(** * PlacementTracker: extraction of PO fields and grouping of PO records

    A shallow embedding of the pure stages of the program:
    - the server side ([normalizeText], [extractPoDetails], [htmlToText]),
      whose patterns are JavaScript regular expressions, interpreted here by
      a backtracking matcher for the fragment of the regular-expression
      language the source uses;
    - the client side of [public/app.js] ([formatMonth], [monthSortKey],
      [shortPreview], [grouped], [supportCounts], [supportFilters],
      [supportCandidates], [latestPeriod], the filter-seeding effect,
      [latestPerCompany], the counter of a month, [selected] and the click
      on a group);
    - what [fetchPoMails] does to the messages it has collected (the sort
      and the mapping to records).

    JavaScript strings are sequences of UTF-16 code units; a code unit is a
    binary natural number. *)

From Stdlib Require Import Ascii String.
From Stdlib Require Import List Bool Arith NArith ZArith Lia.
From Stdlib Require Import Sorted Permutation.
From Stdlib Require Import DecimalPos DecimalN DecimalZ DecimalFacts.
Import ListNotations.

Set Implicit Arguments.

(* ================================================================== *)
(** * Strings *)
(* ================================================================== *)

Definition char := N.
Definition jsstring := list char.

(** A string literal of the source, as code units. *)
Definition js (s : string) : jsstring :=
  map N_of_ascii (list_ascii_of_string s).

Fixpoint str_eqb (a b : jsstring) : bool :=
  match a, b with
  | [], [] => true
  | x :: a', y :: b' => N.eqb x y && str_eqb a' b'
  | _, _ => false
  end.

(** [a < b] on strings: code units compared left to right, a proper prefix
    is smaller. *)
Fixpoint str_ltb (a b : jsstring) : bool :=
  match a, b with
  | [], [] => false
  | [], _ :: _ => true
  | _ :: _, [] => false
  | x :: a', y :: b' =>
      if N.ltb x y then true
      else if N.eqb x y then str_ltb a' b' else false
  end.

(** WhiteSpace and LineTerminator code points: the set matched by [\s] and
    stripped by [String.prototype.trim]. *)
Definition isWhiteSpace (c : char) : bool :=
  ((9 <=? c) && (c <=? 13) || (c =? 32) || (c =? 160) || (c =? 5760)
   || (8192 <=? c) && (c <=? 8202) || (c =? 8232) || (c =? 8233)
   || (c =? 8239) || (c =? 8287) || (c =? 12288) || (c =? 65279))%N.

Definition isLineTerminator (c : char) : bool :=
  ((c =? 10) || (c =? 13) || (c =? 8232) || (c =? 8233))%N.

Fixpoint dropWhile (p : char -> bool) (s : jsstring) : jsstring :=
  match s with
  | [] => []
  | c :: s' => if p c then dropWhile p s' else s
  end.

Definition trimStart (s : jsstring) : jsstring := dropWhile isWhiteSpace s.
Definition trimEnd (s : jsstring) : jsstring := rev (dropWhile isWhiteSpace (rev s)).

(** [String.prototype.trim]. *)
Definition trim (s : jsstring) : jsstring := trimEnd (trimStart s).

(** Values that reach [String(...)] and the truthiness tests of the source. *)
Inductive value : Type :=
| VUndefined
| VNull
| VString (s : jsstring).

(** [String(v)]. *)
Definition toString (v : value) : jsstring :=
  match v with
  | VUndefined => js "undefined"
  | VNull => js "null"
  | VString s => s
  end.

(** [!v]. *)
Definition falsy (v : value) : bool :=
  match v with
  | VString (_ :: _) => false
  | _ => true
  end.

(* ================================================================== *)
(** * Regular expressions *)
(* ================================================================== *)

(** The members of a character class. *)
Inductive citem : Type :=
| CChar (c : char)
| CRange (lo hi : char)
| CSpace
| CNonSpace
| CDigit.

(** What consumes exactly one code unit. *)
Inductive atom : Type :=
| AChar (c : char)
| ADot
| AClass (negated : bool) (items : list citem).

(** The fragment of the pattern language used by the source.  Quantifiers
    are only ever applied to atoms there; [RQuant a lo hi greedy] is
    [a{lo,hi}] ([hi = None] for no upper bound), lazy when [greedy] is
    false.  There is one capture group per pattern, [RGroup]. *)
Inductive regex : Type :=
| REmpty
| RAtom (a : atom)
| RSeq (r1 r2 : regex)
| RAlt (r1 r2 : regex)
| RQuant (a : atom) (lo : nat) (hi : option nat) (greedy : bool)
| RGroup (r : regex)
| RLookahead (r : regex)
| RBol
| REol.

Record pattern : Type := {
  p_regex : regex;
  p_ignoreCase : bool
}.

(** Case folding of the [i] flag.  Every pattern of the source is ASCII,
    and a code unit of 128 or more never folds onto an ASCII one, so
    folding is only needed on the ASCII letters. *)
Definition isLower (c : char) : bool := ((97 <=? c) && (c <=? 122))%N.
Definition isUpper (c : char) : bool := ((65 <=? c) && (c <=? 90))%N.
Definition toUpper (c : char) : char := if isLower c then (c - 32)%N else c.
Definition toLower (c : char) : char := if isUpper c then (c + 32)%N else c.

Definition char_matches (icase : bool) (p c : char) : bool :=
  if icase then N.eqb (toUpper p) (toUpper c) else N.eqb p c.

Definition inRange (lo hi c : char) : bool := ((lo <=? c) && (c <=? hi))%N.

Definition citem_matches (icase : bool) (it : citem) (c : char) : bool :=
  match it with
  | CChar p => char_matches icase p c
  | CRange lo hi =>
      inRange lo hi c
      || (icase && (inRange lo hi (toUpper c) || inRange lo hi (toLower c)))
  | CSpace => isWhiteSpace c
  | CNonSpace => negb (isWhiteSpace c)
  | CDigit => inRange 48%N 57%N c
  end.

Definition atom_matches (icase : bool) (a : atom) (c : char) : bool :=
  match a with
  | AChar p => char_matches icase p c
  | ADot => negb (isLineTerminator c)
  | AClass negated items =>
      xorb negated (existsb (fun it => citem_matches icase it c) items)
  end.

(** The result of a match attempt: the capture of group 1 (absent when the
    group did not take part) and the number of code units matched. *)
Definition mstate : Type := (option jsstring * nat)%type.

Section Matcher.

Variable icase : bool.
(** Where in the subject string the attempt starts. *)
Variable start : nat.

(** [n] occurrences of [a], then [k].  [pos] counts the code units
    consumed since the start of the attempt, [s] is the input ahead. *)
Fixpoint exactly (a : atom) (n : nat) (k : nat -> jsstring -> option mstate)
    (pos : nat) (s : jsstring) {struct n} : option mstate :=
  match n with
  | O => k pos s
  | S n' =>
      match s with
      | c :: s' =>
          if atom_matches icase a c then exactly a n' k (S pos) s' else None
      | [] => None
      end
  end.

(** At most [hi] further occurrences of [a], then [k]: as many as
    possible first when greedy, as few as possible first when lazy. *)
Fixpoint upto (a : atom) (greedy : bool) (hi : option nat)
    (k : nat -> jsstring -> option mstate) (pos : nat) (s : jsstring)
    {struct s} : option mstate :=
  match hi with
  | Some O => k pos s
  | _ =>
      match s with
      | c :: s' =>
          if atom_matches icase a c then
            if greedy then
              match upto a greedy (option_map pred hi) k (S pos) s' with
              | Some r => Some r
              | None => k pos s
              end
            else
              match k pos s with
              | Some r => Some r
              | None => upto a greedy (option_map pred hi) k (S pos) s'
              end
          else k pos s
      | [] => k pos s
      end
  end.

(** The backtracking matcher, in continuation-passing style:
    [run r k cap pos s] matches [r] at the head of [s] and hands the
    capture, the new position and the rest of the input to [k];
    alternatives are tried in order until [k] accepts. *)
Fixpoint run (r : regex)
    (k : option jsstring -> nat -> jsstring -> option mstate)
    (cap : option jsstring) (pos : nat) (s : jsstring) {struct r}
    : option mstate :=
  match r with
  | REmpty => k cap pos s
  | RAtom a =>
      match s with
      | c :: s' => if atom_matches icase a c then k cap (S pos) s' else None
      | [] => None
      end
  | RSeq r1 r2 => run r1 (fun cap' pos' s' => run r2 k cap' pos' s') cap pos s
  | RAlt r1 r2 =>
      match run r1 k cap pos s with
      | Some x => Some x
      | None => run r2 k cap pos s
      end
  | RQuant a lo hi greedy =>
      exactly a lo
        (upto a greedy (option_map (fun h => h - lo) hi) (k cap)) pos s
  | RGroup r1 =>
      run r1 (fun _ pos' s' => k (Some (firstn (pos' - pos) s)) pos' s')
        cap pos s
  | RLookahead r1 =>
      match run r1 (fun cap' pos' _ => Some (cap', pos')) cap pos s with
      | Some (cap', _) => k cap' pos s
      | None => None
      end
  | RBol => if Nat.eqb (start + pos) 0 then k cap pos s else None
  | REol => match s with [] => k cap pos s | _ :: _ => None end
  end.

End Matcher.

(** One match attempt, at index [start] of the subject, [s] being the
    subject from there on. *)
Definition match_at (p : pattern) (start : nat) (s : jsstring) : option mstate :=
  run (p_ignoreCase p) start (p_regex p)
    (fun cap pos _ => Some (cap, pos)) None 0 s.

(** The result of [String.prototype.match] for a pattern without the [g]
    flag: where the match starts, the matched text, and group 1. *)
Record MatchResult : Type := {
  m_index : nat;
  m_text : jsstring;
  m_group1 : option jsstring
}.

(** Try every start position from left to right, the end of the input
    included. *)
Fixpoint search_from (p : pattern) (i : nat) (s : jsstring)
    : option MatchResult :=
  match match_at p i s with
  | Some (cap, len) =>
      Some {| m_index := i; m_text := firstn len s; m_group1 := cap |}
  | None =>
      match s with
      | [] => None
      | _ :: s' => search_from p (S i) s'
      end
  end.

(** [s.match(p)]. *)
Definition str_match (p : pattern) (s : jsstring) : option MatchResult :=
  search_from p 0 s.

(** [s.replace(p, by)] for a pattern with the [g] flag: every match, left
    to right and without overlap, is replaced.  [i] is the index of [s] in
    the subject, [skip] counts the code units of the current match still to
    be dropped; after an empty match one code unit is copied. *)
Fixpoint replace_from (p : pattern) (by_ : jsstring) (i : nat)
    (skip : nat) (s : jsstring) {struct s} : jsstring :=
  match skip with
  | S n =>
      match s with
      | _ :: s' => replace_from p by_ (S i) n s'
      | [] => []
      end
  | O =>
      match match_at p i s with
      | Some (_, len) =>
          match len, s with
          | S n, _ :: s' => by_ ++ replace_from p by_ (S i) n s'
          | _, c :: s' => by_ ++ c :: replace_from p by_ (S i) 0 s'
          | _, [] => by_
          end
      | None =>
          match s with
          | c :: s' => c :: replace_from p by_ (S i) 0 s'
          | [] => []
          end
      end
  end.

Definition replaceAll (p : pattern) (by_ : jsstring) (s : jsstring) : jsstring :=
  replace_from p by_ 0 0 s.

(** ** Pattern syntax *)

Fixpoint lit_chars (cs : jsstring) : regex :=
  match cs with
  | [] => REmpty
  | [c] => RAtom (AChar c)
  | c :: cs' => RSeq (RAtom (AChar c)) (lit_chars cs')
  end.

(** A run of literal characters of a pattern. *)
Definition lit (s : string) : regex := lit_chars (js s).

Definition cc (s : string) : list citem := map CChar (js s).
Definition range (lo hi : string) : citem :=
  match js lo, js hi with
  | [l], [h] => CRange l h
  | _, _ => CRange 1%N 0%N
  end.

Definition space : atom := AClass false [CSpace].
Definition star (a : atom) : regex := RQuant a 0 None true.
Definition plus (a : atom) : regex := RQuant a 1 None true.
Definition opt (a : atom) : regex := RQuant a 0 (Some 1) true.
Definition star_lazy (a : atom) : regex := RQuant a 0 None false.
Definition plus_lazy (a : atom) : regex := RQuant a 1 None false.

(** [r1 r2 ... rn] and [r1|r2|...|rn]. *)
Fixpoint seq (rs : list regex) : regex :=
  match rs with
  | [] => REmpty
  | [r] => r
  | r :: rs' => RSeq r (seq rs')
  end.

Fixpoint alt (rs : list regex) : regex :=
  match rs with
  | [] => REmpty
  | [r] => r
  | r :: rs' => RAlt r (alt rs')
  end.

(** ** The patterns of the source *)

Definition letters_space : atom :=
  AClass false [range "A" "Z"; range "a" "z"; CSpace].

(** [/\u00a0/g] *)
Definition nbspPattern : pattern :=
  {| p_regex := RAtom (AChar 160%N); p_ignoreCase := false |}.

(** [/\s+/g] *)
Definition spacesPattern : pattern :=
  {| p_regex := plus space; p_ignoreCase := false |}.

(** [/Interview Support\s*Support by\s*(.+?)(?=\s+Marketing Application|\s+Thanks|$)/i] *)
Definition interviewPattern : pattern :=
  {| p_regex :=
       seq [lit "Interview Support"; star space; lit "Support by"; star space;
            RGroup (plus_lazy ADot);
            RLookahead
              (alt [seq [plus space; lit "Marketing Application"];
                    seq [plus space; lit "Thanks"];
                    REol])];
     p_ignoreCase := true |}.

(** [/Name of Candidate:\s*([A-Za-z\s]+?)\s+(?=SST|Location|PO)/i] *)
Definition candidateNamePattern : pattern :=
  {| p_regex :=
       seq [lit "Name of Candidate:"; star space;
            RGroup (plus_lazy letters_space);
            plus space;
            RLookahead (alt [lit "SST"; lit "Location"; lit "PO"])];
     p_ignoreCase := true |}.

(** [/Personal Phone Number\s*([\+\d\(\)\-\.\s]+)/i] *)
Definition phoneNumberPattern : pattern :=
  {| p_regex :=
       seq [lit "Personal Phone Number"; star space;
            RGroup
              (plus (AClass false
                       (cc "+" ++ [CDigit] ++ cc "()-." ++ [CSpace])))];
     p_ignoreCase := true |}.

(** [/Email ID\s*([A-Za-z0-9._%+-]+@[A-Za-z0-9.-]+\.[A-Za-z]{2,})/i] *)
Definition emailPattern : pattern :=
  {| p_regex :=
       seq [lit "Email ID"; star space;
            RGroup
              (seq [plus (AClass false
                            ([range "A" "Z"; range "a" "z"; range "0" "9"]
                             ++ cc "._%+-"));
                    lit "@";
                    plus (AClass false
                            ([range "A" "Z"; range "a" "z"; range "0" "9"]
                             ++ cc ".-"));
                    lit ".";
                    RQuant (AClass false [range "A" "Z"; range "a" "z"])
                           2 None true])];
     p_ignoreCase := true |}.

(** [/Location\s*([A-Z]{2,3})/i] *)
Definition locationPattern : pattern :=
  {| p_regex :=
       seq [lit "Location"; star space;
            RGroup (RQuant (AClass false [range "A" "Z"]) 2 (Some 3) true)];
     p_ignoreCase := true |}.

(** [/Position that Applied:\s*(.+?)(?=\s+Job Location)/i] *)
Definition positionAppliedPattern : pattern :=
  {| p_regex :=
       seq [lit "Position that Applied:"; star space;
            RGroup (plus_lazy ADot);
            RLookahead (seq [plus space; lit "Job Location"])];
     p_ignoreCase := true |}.

(** [/Job Location:\s*(.+?)(?=\s+Implementation\/End Client)/i] *)
Definition jobLocationPattern : pattern :=
  {| p_regex :=
       seq [lit "Job Location:"; star space;
            RGroup (plus_lazy ADot);
            RLookahead (seq [plus space; lit "Implementation/End Client"])];
     p_ignoreCase := true |}.

(** [/Implementation\/End Client\s*(.+?)(?=\s+Vendor Details|\s+Rate:)/i] *)
Definition endClientPattern : pattern :=
  {| p_regex :=
       seq [lit "Implementation/End Client"; star space;
            RGroup (plus_lazy ADot);
            RLookahead
              (alt [seq [plus space; lit "Vendor Details"];
                    seq [plus space; lit "Rate:"]])];
     p_ignoreCase := true |}.

(** [/Rate:\s*\$?([0-9,\.kK\/\sA-Za-z]+)/i] *)
Definition ratePattern : pattern :=
  {| p_regex :=
       seq [lit "Rate:"; star space; opt (AChar 36%N);
            RGroup
              (plus (AClass false
                       ([range "0" "9"] ++ cc ",.kK/"
                        ++ [CSpace; range "A" "Z"; range "a" "z"])))];
     p_ignoreCase := true |}.

(** [/^([A-Za-z\s]+?)(?=\s+Team Lead)/i] *)
Definition supportByPattern : pattern :=
  {| p_regex :=
       seq [RBol; RGroup (plus_lazy letters_space);
            RLookahead (seq [plus space; lit "Team Lead"])];
     p_ignoreCase := true |}.

(** [/Team Lead\s*([A-Za-z\s]+?)(?=\s+Manager)/i] *)
Definition teamLeadPattern : pattern :=
  {| p_regex :=
       seq [lit "Team Lead"; star space;
            RGroup (plus_lazy letters_space);
            RLookahead (seq [plus space; lit "Manager"])];
     p_ignoreCase := true |}.

(** [/Manager\s*([A-Za-z\s]+?)(?=\s+Marketing|$)/i] *)
Definition managerPattern : pattern :=
  {| p_regex :=
       seq [lit "Manager"; star space;
            RGroup (plus_lazy letters_space);
            RLookahead (alt [seq [plus space; lit "Marketing"]; REol])];
     p_ignoreCase := true |}.

(* ================================================================== *)
(** * The server side: normalisation and extraction *)
(* ================================================================== *)

(** [normalizeText]: [String(text).replace(/\u00a0/g, " ").replace(/\s+/g, " ").trim()]. *)
Definition normalizeText (text : value) : jsstring :=
  trim (replaceAll spacesPattern (js " ")
          (replaceAll nbspPattern (js " ") (toString text))).

(** A call either returns or throws. *)
Inductive outcome (A : Type) : Type :=
| Returned (a : A)
| Thrown (error : jsstring).
Arguments Returned {A} a.
Arguments Thrown {A} error.

Definition bind {A B : Type} (x : outcome A) (f : A -> outcome B) : outcome B :=
  match x with
  | Returned a => f a
  | Thrown e => Thrown e
  end.

Notation "x <- e1 ;; e2" := (bind e1 (fun x => e2))
  (at level 61, e1 at next level, right associativity).

(** [match ? match[1].trim() : null]: calling [trim] on a group that did
    not take part (an [undefined]) throws a [TypeError]. *)
Definition find (p : pattern) (src : jsstring) : outcome (option jsstring) :=
  match str_match p src with
  | Some m =>
      match m_group1 m with
      | Some g => Returned (Some (trim g))
      | None => Thrown (js "TypeError")
      end
  | None => Returned None
  end.

(** The object [extractPoDetails] returns; [None] is [null]. *)
Record ExtractedFields : Type := {
  candidate_name : option jsstring;
  phone_number : option jsstring;
  email : option jsstring;
  location : option jsstring;
  position_applied : option jsstring;
  job_location : option jsstring;
  end_client : option jsstring;
  rate : option jsstring;
  interview_support_by : option jsstring;
  team_lead : option jsstring;
  manager : option jsstring
}.

(** [interviewMatch[1]] when the span is found, [null] otherwise. *)
Definition interviewSection (text : jsstring) : option jsstring :=
  match str_match interviewPattern text with
  | Some m => m_group1 m
  | None => None
  end.

(** [interviewSection || ""]. *)
Definition sectionOrEmpty (sec : option jsstring) : jsstring :=
  match sec with
  | Some (c :: s) => c :: s
  | _ => []
  end.

Definition extractPoDetails (inputText : value) : outcome ExtractedFields :=
  let text := normalizeText inputText in
  let section := sectionOrEmpty (interviewSection text) in
  f1 <- find candidateNamePattern text ;;
  f2 <- find phoneNumberPattern text ;;
  f3 <- find emailPattern text ;;
  f4 <- find locationPattern text ;;
  f5 <- find positionAppliedPattern text ;;
  f6 <- find jobLocationPattern text ;;
  f7 <- find endClientPattern text ;;
  f8 <- find ratePattern text ;;
  f9 <- find supportByPattern section ;;
  f10 <- find teamLeadPattern section ;;
  f11 <- find managerPattern section ;;
  Returned {| candidate_name := f1; phone_number := f2; email := f3;
              location := f4; position_applied := f5; job_location := f6;
              end_client := f7; rate := f8; interview_support_by := f9;
              team_lead := f10; manager := f11 |}.

(** [/<script[\s\S]*?<\/script>/gi] *)
Definition scriptPattern : pattern :=
  {| p_regex :=
       seq [lit "<script"; star_lazy (AClass false [CSpace; CNonSpace]);
            lit "</script>"];
     p_ignoreCase := true |}.

(** [/<style[\s\S]*?<\/style>/gi] *)
Definition stylePattern : pattern :=
  {| p_regex :=
       seq [lit "<style"; star_lazy (AClass false [CSpace; CNonSpace]);
            lit "</style>"];
     p_ignoreCase := true |}.

(** [/<\/?[^>]+>/g] *)
Definition tagPattern : pattern :=
  {| p_regex :=
       seq [lit "<"; opt (AChar 47%N); plus (AClass true (cc ">")); lit ">"];
     p_ignoreCase := false |}.

(** [/&nbsp;/gi] *)
Definition nbspEntityPattern : pattern :=
  {| p_regex := lit "&nbsp;"; p_ignoreCase := true |}.

(** The constant [stripped] of [htmlToText]. *)
Definition stripped (htmlContent : value) : jsstring :=
  replaceAll nbspEntityPattern (js " ")
    (replaceAll tagPattern (js " ")
       (replaceAll stylePattern (js " ")
          (replaceAll scriptPattern (js " ") (toString htmlContent)))).

(** The constant [text] of [htmlToText]: the body as flat text. *)
Definition htmlText (htmlContent : value) : jsstring :=
  normalizeText (VString (stripped htmlContent)).

(** [htmlToText] returns the empty string on an empty body and the
    extracted fields otherwise. *)
Definition htmlToText (htmlContent : value)
    : outcome (jsstring + ExtractedFields) :=
  if falsy htmlContent then Returned (inl [])
  else
    e <- extractPoDetails (VString (htmlText htmlContent)) ;;
    Returned (inr e).

(* ================================================================== *)
(** * The client side: dates, maps and sorting *)
(* ================================================================== *)

(** What the host decides: how a non-empty string parses into a time value
    (milliseconds since the epoch, [None] for an invalid date), the local
    calendar, and the locale's "month year" label. *)
Class DateEnv : Type := {
  parseDate : jsstring -> option Z;
  getFullYear : Z -> Z;
  getMonth : Z -> Z;
  monthYearLabel : Z -> jsstring
}.

(** [String(n)] for an integer. *)
Fixpoint uint_chars (d : Decimal.uint) : jsstring :=
  match d with
  | Decimal.Nil => []
  | Decimal.D0 d' => 48%N :: uint_chars d'
  | Decimal.D1 d' => 49%N :: uint_chars d'
  | Decimal.D2 d' => 50%N :: uint_chars d'
  | Decimal.D3 d' => 51%N :: uint_chars d'
  | Decimal.D4 d' => 52%N :: uint_chars d'
  | Decimal.D5 d' => 53%N :: uint_chars d'
  | Decimal.D6 d' => 54%N :: uint_chars d'
  | Decimal.D7 d' => 55%N :: uint_chars d'
  | Decimal.D8 d' => 56%N :: uint_chars d'
  | Decimal.D9 d' => 57%N :: uint_chars d'
  end.

Definition numToString (z : Z) : jsstring :=
  match Z.to_int z with
  | Decimal.Pos d => uint_chars d
  | Decimal.Neg d => 45%N :: uint_chars d
  end.

(** [s.padStart(2, "0")]. *)
Definition padStart2 (s : jsstring) : jsstring :=
  repeat 48%N (2 - length s) ++ s.

(** An insertion-ordered [Map] with string keys. *)
Definition jsmap (V : Type) : Type := list (jsstring * V).

Fixpoint map_get {V : Type} (k : jsstring) (m : jsmap V) : option V :=
  match m with
  | [] => None
  | (k', v) :: m' => if str_eqb k k' then Some v else map_get k m'
  end.

Definition map_has {V : Type} (k : jsstring) (m : jsmap V) : bool :=
  match map_get k m with Some _ => true | None => false end.

(** [m.set(k, v)]: an existing key keeps its place, a new one goes last. *)
Fixpoint map_set {V : Type} (k : jsstring) (v : V) (m : jsmap V) : jsmap V :=
  match m with
  | [] => [(k, v)]
  | (k', v') :: m' =>
      if str_eqb k k' then (k', v) :: m' else (k', v') :: map_set k v m'
  end.

(** An insertion-ordered [Set] of strings. *)
Definition set_add (x : jsstring) (s : list jsstring) : list jsstring :=
  if existsb (str_eqb x) s then s else s ++ [x].

(** [Array.prototype.sort] with a comparator: a stable sort; [x] moves
    behind [y] only when the comparator is positive on [(x, y)].  Where the
    comparator is a consistent order every stable sort gives this result;
    where it is not, the language leaves the order to the engine, and this
    is the reading of an insertion sort. *)
Fixpoint sort_insert {A : Type} (cmp : A -> A -> Z) (x : A) (l : list A) : list A :=
  match l with
  | [] => [x]
  | y :: l' =>
      if (cmp x y <=? 0)%Z then x :: y :: l' else y :: sort_insert cmp x l'
  end.

Definition js_sort {A : Type} (cmp : A -> A -> Z) (l : list A) : list A :=
  fold_right (sort_insert cmp) [] l.

(** [Array.prototype.sort] without a comparator, on an array of strings:
    the order of the code units. *)
Definition compareStrings (a b : jsstring) : Z :=
  if str_ltb a b then (-1)%Z else if str_ltb b a then 1%Z else 0%Z.

(** A record as the client receives it.  [extracted] is [None] where the
    server sent no object (the empty string [htmlToText] gives for an empty
    body): [item.extracted?.field] is then [undefined]. *)
Record Sender : Type := { name : jsstring; address : jsstring }.

Record Item : Type := {
  id : jsstring;
  subject : jsstring;
  from : option Sender;
  receivedDateTime : jsstring;
  bodyPreview : jsstring;
  webLink : jsstring;
  extracted : option ExtractedFields
}.

(** [item.extracted?.field]. *)
Definition field (f : ExtractedFields -> option jsstring) (item : Item)
    : option jsstring :=
  match extracted item with
  | Some e => f e
  | None => None
  end.

(** [a || b] where [b] is a string. *)
Definition orElse (a : option jsstring) (b : jsstring) : jsstring :=
  match a with
  | Some (c :: s) => c :: s
  | _ => b
  end.

Definition All : jsstring := js "All".

(** ** [shortPreview] *)

(** [/^(.*?)(?=\s+Name of Candidate:|$)/i] *)
Definition cutoffPattern : pattern :=
  {| p_regex :=
       seq [RBol; RGroup (star_lazy ADot);
            RLookahead
              (alt [seq [plus space; lit "Name of Candidate:"]; REol])];
     p_ignoreCase := true |}.

(** The constant [base] of [shortPreview]: the text before the first
    "Name of Candidate:" label, or all of it. *)
Definition previewBase (trimmed : jsstring) : outcome jsstring :=
  match str_match cutoffPattern trimmed with
  | Some cutoffMatch =>
      match m_group1 cutoffMatch with
      | Some g => Returned (trim g)
      | None => Thrown (js "TypeError")
      end
  | None => Returned trimmed
  end.

Definition shortPreview (text : value) : outcome jsstring :=
  if falsy text then Returned []
  else
    let trimmed := trim (replaceAll spacesPattern (js " ") (toString text)) in
    base <- previewBase trimmed ;;
    if length base <=? 120 then Returned base
    else Returned (trim (firstn 117 base) ++ js "...").

Section Client.

Context {env : DateEnv}.

(** [new Date(value).getTime()] for a string: the empty string is never a
    date. *)
Definition dateOf (v : jsstring) : option Z :=
  match v with
  | [] => None
  | _ :: _ => parseDate v
  end.

(** [new Date(value || 0).getTime()]. *)
Definition dateOrEpoch (v : jsstring) : option Z :=
  match v with
  | [] => Some 0%Z
  | _ :: _ => parseDate v
  end.

Definition formatMonth (v : jsstring) : jsstring :=
  match v with
  | [] => js "Unknown Month"
  | _ :: _ =>
      match dateOf v with
      | None => js "Unknown Month"
      | Some t => monthYearLabel t
      end
  end.

(** [String(date.getFullYear())]. *)
Definition yearString (t : Z) : jsstring := numToString (getFullYear t).

(** [String(date.getMonth() + 1).padStart(2, "0")]. *)
Definition monthString (t : Z) : jsstring :=
  padStart2 (numToString (getMonth t + 1)).

Definition monthSortKey (v : jsstring) : jsstring :=
  match dateOf v with
  | None => js "0000-00"
  | Some t => yearString t ++ js "-" ++ monthString t
  end.

(** ** [grouped] *)

Record MonthEntry : Type := { sortKey : jsstring; items : list Item }.

(** One turn of the loop filling [monthBuckets]. *)
Definition addToMonth (monthBuckets : jsmap MonthEntry) (item : Item)
    : jsmap MonthEntry :=
  let monthKey := formatMonth (receivedDateTime item) in
  let key := monthSortKey (receivedDateTime item) in
  let buckets :=
    if map_has monthKey monthBuckets then monthBuckets
    else map_set monthKey {| sortKey := key; items := [] |} monthBuckets in
  match map_get monthKey buckets with
  | Some b =>
      map_set monthKey
        {| sortKey := b.(sortKey); items := b.(items) ++ [item] |} buckets
  | None => buckets
  end.

Definition monthBuckets (filtered : list Item) : jsmap MonthEntry :=
  fold_left addToMonth filtered [].

(** [(a, b) => (a[1].sortKey < b[1].sortKey ? 1 : -1)]: never zero, a
    consistent order as long as the sort keys differ from bucket to
    bucket. *)
Definition compareBuckets (a b : jsstring * MonthEntry) : Z :=
  if str_ltb (snd a).(sortKey) (snd b).(sortKey) then 1%Z else (-1)%Z.

Definition sortedBuckets (filtered : list Item) : list (jsstring * MonthEntry) :=
  js_sort compareBuckets (monthBuckets filtered).

Definition candidateKey (item : Item) : jsstring :=
  orElse (field candidate_name item)
    (orElse (Some (subject item)) (js "Untitled")).

Definition addToCandidate (candidateBuckets : jsmap (list Item)) (item : Item)
    : jsmap (list Item) :=
  let key := candidateKey item in
  let buckets :=
    if map_has key candidateBuckets then candidateBuckets
    else map_set key [] candidateBuckets in
  match map_get key buckets with
  | Some groupItems => map_set key (groupItems ++ [item]) buckets
  | None => buckets
  end.

Record Group : Type := {
  key : jsstring;
  displayName : jsstring;
  groupItems : list Item
}.

Record Month : Type := { monthLabel : jsstring; groups : list Group }.

Definition toMonth (entry : jsstring * MonthEntry) : Month :=
  {| monthLabel := fst entry;
     groups :=
       map (fun g => {| key := fst g; displayName := fst g;
                        groupItems := snd g |})
           (fold_left addToCandidate (snd entry).(items) []) |}.

Definition grouped (filtered : list Item) : list Month :=
  map toMonth (sortedBuckets filtered).

(** ** [supportCounts] and [supportCandidates] *)

(** The year/month test both loops share: [false] where the loop runs
    [continue]. *)
Definition passesFilter (supportYear supportMonth : jsstring) (item : Item)
    : bool :=
  match dateOrEpoch (receivedDateTime item) with
  | Some t =>
      if negb (str_eqb supportYear All)
         && negb (str_eqb (yearString t) supportYear) then false
      else if negb (str_eqb supportMonth All)
              && negb (str_eqb (monthString t) supportMonth) then false
      else true
  | None => true
  end.

Definition supportName (item : Item) : jsstring :=
  orElse (field interview_support_by item) (js "Unknown").

Definition candidateName (item : Item) : jsstring :=
  orElse (field candidate_name item) (js "Unknown").

Definition countStep (supportYear supportMonth : jsstring)
    (counts : jsmap Z) (item : Item) : jsmap Z :=
  if passesFilter supportYear supportMonth item then
    let name := supportName item in
    let old := match map_get name counts with Some n => n | None => 0%Z end in
    map_set name (old + 1)%Z counts
  else counts.

Definition countsMap (filtered : list Item) (supportYear supportMonth : jsstring)
    : jsmap Z :=
  fold_left (countStep supportYear supportMonth) filtered [].

(** The rows [{ name, count }], as pairs. *)
Definition supportCounts (filtered : list Item)
    (supportYear supportMonth : jsstring) : list (jsstring * Z) :=
  js_sort (fun a b => (snd b - snd a)%Z)
    (countsMap filtered supportYear supportMonth).

Definition candidateStep (supportYear supportMonth : jsstring)
    (buckets : jsmap (list jsstring)) (item : Item) : jsmap (list jsstring) :=
  if passesFilter supportYear supportMonth item then
    let expert := supportName item in
    let candidate := candidateName item in
    let buckets' :=
      if map_has expert buckets then buckets else map_set expert [] buckets in
    match map_get expert buckets' with
    | Some s => map_set expert (set_add candidate s) buckets'
    | None => buckets'
    end
  else buckets.

Definition supportCandidates (filtered : list Item)
    (supportYear supportMonth : jsstring) : jsmap (list jsstring) :=
  fold_left (candidateStep supportYear supportMonth) filtered [].

(** ** [latestPeriod] and the seeding effect *)

Definition latestStep (latest : option Z) (item : Item) : option Z :=
  match dateOrEpoch (receivedDateTime item) with
  | None => latest
  | Some date =>
      match latest with
      | None => Some date
      | Some l => if (date >? l)%Z then Some date else latest
      end
  end.

Record Period : Type := { year : jsstring; month : jsstring }.

Definition latestPeriod (filtered : list Item) : Period :=
  match fold_left latestStep filtered None with
  | None => {| year := All; month := All |}
  | Some latest =>
      {| year := yearString latest; month := monthString latest |}
  end.

(** The two filter states of the component. *)
Record Filters : Type := { supportYear : jsstring; supportMonth : jsstring }.

(** The effect on [[latestPeriod, supportYear, supportMonth]]: both tests
    read the state of the render the effect belongs to. *)
Definition seedEffect (lp : Period) (st : Filters) : Filters :=
  {| supportYear :=
       if str_eqb st.(supportYear) All && negb (str_eqb lp.(year) All)
       then lp.(year) else st.(supportYear);
     supportMonth :=
       if str_eqb st.(supportMonth) All && negb (str_eqb lp.(month) All)
       then lp.(month) else st.(supportMonth) |}.

(** What the user can do to the filters: the "All Years" button and the
    year tabs call [setSupportYear], the month select [setSupportMonth]. *)
Inductive action : Type :=
| SetSupportYear (y : jsstring)
| SetSupportMonth (m : jsstring).

Definition apply_action (a : action) (st : Filters) : Filters :=
  match a with
  | SetSupportYear y =>
      {| supportYear := y; supportMonth := st.(supportMonth) |}
  | SetSupportMonth m =>
      {| supportYear := st.(supportYear); supportMonth := m |}
  end.

(** A state change makes the component render again, and the effect runs
    after the render since one of its dependencies changed. *)
Definition step (filtered : list Item) (st : Filters) (a : action) : Filters :=
  seedEffect (latestPeriod filtered) (apply_action a st).

Definition run_actions (filtered : list Item) (st : Filters)
    (acts : list action) : Filters :=
  fold_left (step filtered) acts st.

(** ** [latestPerCompany] *)

Definition companyKey (item : Item) : jsstring :=
  orElse (field end_client item)
    (orElse (field job_location item) (js "Unknown Company")).

(** [b > a] on time values: false as soon as one of them is [NaN]. *)
Definition time_gtb (b a : option Z) : bool :=
  match b, a with
  | Some y, Some x => (y >? x)%Z
  | _, _ => false
  end.

Definition companyStep (buckets : jsmap Item) (item : Item) : jsmap Item :=
  let company := companyKey item in
  match map_get company buckets with
  | None => map_set company item buckets
  | Some existing =>
      if time_gtb (dateOrEpoch (receivedDateTime item))
                  (dateOrEpoch (receivedDateTime existing))
      then map_set company item buckets
      else buckets
  end.

(** [bDate - aDate]; a [NaN] result counts as [+0] in the sort. *)
Definition compareByDate (a b : Item) : Z :=
  match dateOrEpoch (receivedDateTime a), dateOrEpoch (receivedDateTime b) with
  | Some aDate, Some bDate => (bDate - aDate)%Z
  | _, _ => 0%Z
  end.

Definition latestPerCompany (items : list Item) : list Item :=
  js_sort compareByDate (map snd (fold_left companyStep items [])).

(** ** [supportFilters] *)

(** One turn of the loop filling the sets [years] and [months]. *)
Definition filterStep (sets : list jsstring * list jsstring) (item : Item)
    : list jsstring * list jsstring :=
  match dateOrEpoch (receivedDateTime item) with
  | None => sets
  | Some t =>
      (set_add (yearString t) (fst sets), set_add (monthString t) (snd sets))
  end.

Record SupportFilters : Type := {
  years : list jsstring;
  months : list jsstring
}.

Definition supportFilters (filtered : list Item) : SupportFilters :=
  let sets := fold_left filterStep filtered ([], []) in
  {| years := rev (js_sort compareStrings (fst sets));
     months := js_sort compareStrings (snd sets) |}.

(** ** The list pane: counters, selection *)

(** [groups.reduce((acc, group) => acc + group.items.length, 0)]. *)
Definition monthCount (groups : list Group) : nat :=
  fold_left (fun acc group => acc + length (groupItems group)) groups 0.

(** [filtered.find((item) => item.id === selectedId)]. *)
Definition selected (filtered : list Item) (selectedId : jsstring)
    : option Item :=
  List.find (fun item => str_eqb (id item) selectedId) filtered.

(** The three states a click on a group changes. *)
Record Selection : Type := {
  selectedGroupKey : jsstring;
  selectedId : jsstring;
  selectedGroupItems : list Item
}.

(** [`${monthLabel}::${group.key}`]. *)
Definition groupKey (monthLabel key : jsstring) : jsstring :=
  monthLabel ++ js "::" ++ key.

(** The click handler of a group, [deduped] being
    [latestPerCompany(group.items)] and [first] its first record: a click
    on the active group clears the selection, a click on another one
    selects it. *)
Definition onClick (groupKey : jsstring) (deduped : list Item)
    (prev : Selection) : Selection :=
  if str_eqb (selectedGroupKey prev) groupKey then
    {| selectedGroupKey := []; selectedId := []; selectedGroupItems := [] |}
  else
    {| selectedGroupKey := groupKey;
       selectedId :=
         match deduped with
         | first :: _ => orElse (Some (id first)) []
         | [] => []
         end;
       selectedGroupItems := deduped |}.

End Client.

(* ================================================================== *)
(** * The server side: the list [fetchPoMails] returns *)
(* ================================================================== *)

(** A message as the mail API sends it: every property read by
    [fetchPoMails] may be missing. *)
Module Email.

Record Body : Type := { content : option jsstring }.

Record From : Type := { emailAddress : option Sender }.

Record t : Type := {
  id : option jsstring;
  subject : option jsstring;
  from : option From;
  receivedDateTime : option jsstring;
  bodyPreview : option jsstring;
  webLink : option jsstring;
  body : option Body
}.

End Email.

(** [xs.map(f)] where [f] may throw. *)
Fixpoint mapM {A B : Type} (f : A -> outcome B) (l : list A)
    : outcome (list B) :=
  match l with
  | [] => Returned []
  | x :: l' =>
      y <- f x ;;
      ys <- mapM f l' ;;
      Returned (y :: ys)
  end.

Section Fetch.

Context {env : DateEnv}.

(** [aDate - bDate] on [new Date(x.receivedDateTime || 0).getTime()]; a
    [NaN] result counts as [+0] in the sort. *)
Definition compareReceived (a b : Email.t) : Z :=
  match dateOrEpoch (orElse (Email.receivedDateTime a) []),
        dateOrEpoch (orElse (Email.receivedDateTime b) []) with
  | Some aDate, Some bDate => (aDate - bDate)%Z
  | _, _ => 0%Z
  end.

(** The record made of one message. *)
Definition toRecord (email : Email.t) : outcome Item :=
  x <- htmlToText
         (VString
            (orElse
               (match Email.body email with
                | Some b => Email.content b
                | None => None
                end) [])) ;;
  Returned
    {| id := orElse (Email.id email) [];
       subject := orElse (Email.subject email) [];
       from :=
         match Email.from email with
         | Some f => Email.emailAddress f
         | None => None
         end;
       receivedDateTime := orElse (Email.receivedDateTime email) [];
       bodyPreview := orElse (Email.bodyPreview email) [];
       webLink := orElse (Email.webLink email) [];
       extracted :=
         match x with
         | inl _ => None
         | inr e => Some e
         end |}.

(** The constant [mapped] of [fetchPoMails], the list it returns:
    [allEmails] sorted, then mapped to records.  The requests that collect
    [allEmails] and the write to the database are outside. *)
Definition mapped (allEmails : list Email.t) : outcome (list Item) :=
  mapM toRecord (js_sort compareReceived allEmails).

End Fetch.

(* ================================================================== *)
(** * A host: UTC as the local time zone, en-US as the locale *)
(* ================================================================== *)

(** This host reads the timestamps of the form [YYYY-MM-DDTHH:mm:ssZ] (the
    shape of [receivedDateTime] in the mail API) and nothing else. *)
Module UTC.

Definition digit (c : char) : option Z :=
  if inRange 48%N 57%N c then Some (Z.of_N c - 48)%Z else None.

Fixpoint number (cs : jsstring) (acc : Z) : option Z :=
  match cs with
  | [] => Some acc
  | c :: cs' =>
      match digit c with
      | Some d => number cs' (10 * acc + d)%Z
      | None => None
      end
  end.

Definition isLeap (y : Z) : bool :=
  ((y mod 4 =? 0) && (negb (y mod 100 =? 0) || (y mod 400 =? 0)))%Z.

Definition daysInMonth (y m : Z) : Z :=
  (if m =? 2 then (if isLeap y then 29 else 28)
   else if (m =? 4) || (m =? 6) || (m =? 9) || (m =? 11) then 30
   else 31)%Z.

(** Days from 1970-01-01 to the civil date [y-m-d]. *)
Definition daysFromCivil (y m d : Z) : Z :=
  (let y' := if m <=? 2 then y - 1 else y in
   let era := y' / 400 in
   let yoe := y' - era * 400 in
   let doy := (153 * (if m >? 2 then m - 3 else m + 9) + 2) / 5 + d - 1 in
   let doe := yoe * 365 + yoe / 4 - yoe / 100 + doy in
   era * 146097 + doe - 719468)%Z.

(** The civil date (year, month 1..12, day) of a day number. *)
Definition civilFromDays (z : Z) : Z * Z * Z :=
  (let z' := z + 719468 in
   let era := z' / 146097 in
   let doe := z' - era * 146097 in
   let yoe := (doe - doe / 1460 + doe / 36524 - doe / 146096) / 365 in
   let doy := doe - (365 * yoe + yoe / 4 - yoe / 100) in
   let mp := (5 * doy + 2) / 153 in
   let d := doy - (153 * mp + 2) / 5 + 1 in
   let m := if mp <? 10 then mp + 3 else mp - 9 in
   let y := yoe + era * 400 + (if m <=? 2 then 1 else 0) in
   (y, m, d))%Z.

Definition msPerDay : Z := 86400000%Z.

Definition parseIso (s : jsstring) : option Z :=
  match s with
  | [y1; y2; y3; y4; a; m1; m2; b; n1; n2; t; h1; h2; c; i1; i2; e; s1; s2; z] =>
      if str_eqb [a; b; t; c; e; z] (js "--T::Z") then
        match number [y1; y2; y3; y4] 0, number [m1; m2] 0, number [n1; n2] 0,
              number [h1; h2] 0, number [i1; i2] 0, number [s1; s2] 0 with
        | Some y, Some m, Some d, Some h, Some mi, Some sec =>
            if ((1 <=? m) && (m <=? 12) && (1 <=? d) && (d <=? daysInMonth y m)
                && (h <=? 23) && (mi <=? 59) && (sec <=? 59))%Z
            then Some (daysFromCivil y m d * msPerDay
                       + ((h * 60 + mi) * 60 + sec) * 1000)%Z
            else None
        | _, _, _, _, _, _ => None
        end
      else None
  | _ => None
  end.

Definition civil (t : Z) : Z * Z * Z := civilFromDays (t / msPerDay)%Z.

Definition fullYear (t : Z) : Z := fst (fst (civil t)).
Definition monthIndex (t : Z) : Z := (snd (fst (civil t)) - 1)%Z.

Definition monthName (m : Z) : jsstring :=
  nth (Z.to_nat m)
    (map js ["January"; "February"; "March"; "April"; "May"; "June"; "July";
             "August"; "September"; "October"; "November"; "December"]%string)
    [].

(** The label shows the year of the era: [1 - y] for a year before 1. *)
Definition label (t : Z) : jsstring :=
  let y := fullYear t in
  monthName (monthIndex t) ++ js " "
    ++ numToString (if (y <=? 0)%Z then (1 - y)%Z else y).

#[global] Instance env : DateEnv :=
  {| parseDate := parseIso;
     getFullYear := fullYear;
     getMonth := monthIndex;
     monthYearLabel := label |}.

(** A record with the fields the grouping reads. *)
Definition mail (id_ date company support : string) : Item :=
  {| id := js id_;
     subject := js "PO";
     from := None;
     receivedDateTime := js date;
     bodyPreview := [];
     webLink := [];
     extracted :=
       Some {| candidate_name := Some (js "Jane Doe");
               phone_number := None; email := None; location := None;
               position_applied := None; job_location := None;
               end_client := Some (js company); rate := None;
               interview_support_by := Some (js support);
               team_lead := None; manager := None |} |}.

(** A message of the mail API with an id and a timestamp. *)
Definition message (id_ date : string) : Email.t :=
  {| Email.id := Some (js id_);
     Email.subject := Some (js "PO");
     Email.from := None;
     Email.receivedDateTime := Some (js date);
     Email.bodyPreview := None;
     Email.webLink := None;
     Email.body := None |}.

End UTC.

(* ================================================================== *)
(** * Vocabulary of the statements *)
(* ================================================================== *)

(** A field is absent or holds a string that [trim] leaves alone. *)
Definition trimmedOrAbsent (o : option jsstring) : Prop :=
  match o with
  | Some v => trim v = v
  | None => True
  end.

(** All eleven fields are trimmed or absent. *)
Definition wellFormed (e : ExtractedFields) : Prop :=
  Forall trimmedOrAbsent
    [candidate_name e; phone_number e; email e; location e;
     position_applied e; job_location e; end_client e; rate e;
     interview_support_by e; team_lead e; manager e].

(** Every successful path through the pattern goes through its group. *)
Fixpoint captures (r : regex) : bool :=
  match r with
  | RGroup _ => true
  | RSeq r1 r2 => captures r1 || captures r2
  | RAlt r1 r2 => captures r1 && captures r2
  | RLookahead r1 => captures r1
  | _ => false
  end.

(** Every successful path through the pattern takes at least one code
    unit. *)
Fixpoint consumes (r : regex) : bool :=
  match r with
  | RAtom _ => true
  | RSeq r1 r2 => consumes r1 || consumes r2
  | RAlt r1 r2 => consumes r1 && consumes r2
  | RQuant _ lo _ _ => negb (Nat.eqb lo 0)
  | RGroup r1 => consumes r1
  | _ => false
  end.

(** The eleven field patterns, in the order of the returned object. *)
Definition fieldPatterns : list pattern :=
  [candidateNamePattern; phoneNumberPattern; emailPattern; locationPattern;
   positionAppliedPattern; jobLocationPattern; endClientPattern; ratePattern;
   supportByPattern; teamLeadPattern; managerPattern].

(** The span of the interview-support example. *)
Definition supportSpan : jsstring :=
  js "Interview Support Support by Alice Team Lead Bob Manager Carol Marketing Application".

(** What the two replacements of [normalizeText] compute, written
    directly: [unbreak] turns a no-break space into a space, [collapse]
    keeps one space for each run of white space ([inRun] tells that the
    previous code unit belonged to a run). *)
Definition unbreak (c : char) : char := if (160 =? c)%N then 32%N else c.

Fixpoint collapse (inRun : bool) (s : jsstring) : jsstring :=
  match s with
  | [] => []
  | c :: s' =>
      if isWhiteSpace c then
        if inRun then collapse true s' else 32%N :: collapse true s'
      else c :: collapse false s'
  end.

(** The length of the run of white space at the head of [s]. *)
Fixpoint leadingSpaces (s : jsstring) : nat :=
  match s with
  | [] => 0
  | c :: s' => if isWhiteSpace c then S (leadingSpaces s') else 0
  end.

(** The only white space is the space, and never two in a row. *)
Fixpoint singleSpaced (inRun : bool) (s : jsstring) : bool :=
  match s with
  | [] => true
  | c :: s' =>
      if isWhiteSpace c then N.eqb c 32 && negb inRun && singleSpaced true s'
      else singleSpaced false s'
  end.


(** [a] comes before [b] in [l]. *)
Definition before {A : Type} (a b : A) (l : list A) : Prop :=
  exists l1 l2 l3, l = l1 ++ a :: l2 ++ b :: l3.

(** ** What a pattern can take *)

(** The strings a match of [r] can take from the input (a look-ahead and
    the two anchors take nothing; the source has no [a{lo,hi}] with
    [hi < lo], which the language rejects). *)
Fixpoint spans (icase : bool) (r : regex) (w : jsstring) : Prop :=
  match r with
  | REmpty => w = []
  | RAtom a => exists c, w = [c] /\ atom_matches icase a c = true
  | RSeq r1 r2 =>
      exists w1 w2, w = w1 ++ w2 /\ spans icase r1 w1 /\ spans icase r2 w2
  | RAlt r1 r2 => spans icase r1 w \/ spans icase r2 w
  | RQuant a lo hi _ =>
      lo <= length w
      /\ match hi with Some h => length w <= Nat.max lo h | None => True end
      /\ Forall (fun c => atom_matches icase a c = true) w
  | RGroup r1 => spans icase r1 w
  | RLookahead _ => w = []
  | RBol => w = []
  | REol => w = []
  end.

(** What a match of [r] makes of the capture [cap]. *)
Fixpoint groupSpans (icase : bool) (r : regex) (cap cap' : option jsstring)
    : Prop :=
  match r with
  | RGroup r1 => exists g, cap' = Some g /\ spans icase r1 g
  | RSeq r1 r2 =>
      exists c1, groupSpans icase r1 cap c1 /\ groupSpans icase r2 c1 cap'
  | RAlt r1 r2 => groupSpans icase r1 cap cap' \/ groupSpans icase r2 cap cap'
  | RLookahead r1 => groupSpans icase r1 cap cap'
  | _ => cap' = cap
  end.

(** The bodies of the groups of a pattern. *)
Fixpoint groupsOf (r : regex) : list regex :=
  match r with
  | RGroup r1 => [r1]
  | RSeq r1 r2 => groupsOf r1 ++ groupsOf r2
  | RAlt r1 r2 => groupsOf r1 ++ groupsOf r2
  | RLookahead r1 => groupsOf r1
  | _ => []
  end.

(** The ASCII letters and digits. *)
Definition isLetter (c : char) : bool := isUpper c || isLower c.
Definition isDigit (c : char) : bool := inRange 48%N 57%N c.

(** The code units a field is made of. *)
Definition madeOf (p : char -> bool) (o : option jsstring) : Prop :=
  match o with
  | Some v => Forall (fun c => p c = true) v
  | None => True
  end.

(** [c] is one of the code units of the literal [s]. *)
Definition oneOf (s : string) (c : char) : bool := existsb (N.eqb c) (js s).

(** The code units of a name: ASCII letters and white space. *)
Definition nameUnit (c : char) : bool := isLetter c || isWhiteSpace c.

(** The code units of a phone number and of a rate. *)
Definition phoneUnit (c : char) : bool :=
  isDigit c || isWhiteSpace c || oneOf "+()-." c.
Definition rateUnit (c : char) : bool :=
  isDigit c || isLetter c || isWhiteSpace c || oneOf ",./" c.

(** The code units of the parts of an address. *)
Definition localUnit (c : char) : bool :=
  isLetter c || isDigit c || oneOf "._%+-" c.
Definition domainUnit (c : char) : bool :=
  isLetter c || isDigit c || oneOf ".-" c.

(** ** The list pane *)

(** The records under all the groups of all the months, top to bottom. *)
Definition allItems (months : list Month) : list Item :=
  flat_map (fun m => flat_map groupItems (groups m)) months.

(** The sum of the counts of a table. *)
Definition sumCounts (rows : list (jsstring * Z)) : Z :=
  fold_right (fun row acc => (snd row + acc)%Z) 0%Z rows.

(** The order of the rows: the count on the left is not below the one on
    the right. *)
Definition countNotBelow (a b : jsstring * Z) : Prop := (snd b <= snd a)%Z.

(** Strictly ascending and strictly descending strings. *)
Definition ascending (a b : jsstring) : Prop := str_ltb a b = true.
Definition descending (a b : jsstring) : Prop := str_ltb b a = true.

Section ClientVocabulary.

Context {env : DateEnv}.

(** The time value the aggregations compare:
    [new Date(item.receivedDateTime || 0).getTime()], [None] for [NaN]. *)
Definition timeOf (item : Item) : option Z :=
  dateOrEpoch (receivedDateTime item).

(** The records whose time value is a number. *)
Definition timed (item : Item) : Prop := timeOf item <> None.

(** The time value as a number: the parsed timestamp, and 0, the epoch,
    for a missing timestamp and in place of [NaN]. *)
Definition timeValue (item : Item) : Z :=
  match timeOf item with
  | Some t => t
  | None => 0%Z
  end.

(** The records of [l] that pass the filter under the name [who]. *)
Definition countOf (supportYear supportMonth who : jsstring) (l : list Item) : Z :=
  Z.of_nat
    (length
       (filter (fun r => passesFilter supportYear supportMonth r
                         && str_eqb (supportName r) who) l)).

(** What holds of the buckets once the records [done] have been seen. *)
Definition bucketsOf (done : list Item) (m : jsmap MonthEntry) : Prop :=
  NoDup (map fst m)
  /\ (forall label e,
        In (label, e) m ->
        (forall r, In r (items e) ->
                   In r done /\ formatMonth (receivedDateTime r) = label)
        /\ exists r0,
             In r0 (items e)
             /\ sortKey e = monthSortKey (receivedDateTime r0))
  /\ (forall r,
        In r done ->
        exists e, In (formatMonth (receivedDateTime r), e) m
                  /\ In r (items e)).

(** The order of the sort: the sort key on the left is not below the one
    on the right. *)
Definition keyNotBelow (a b : jsstring * MonthEntry) : Prop :=
  str_ltb (sortKey (snd a)) (sortKey (snd b)) = false.

(** What holds of the company map once the records [done] have been
    seen: each company of [done] has one entry, a record of that company
    that no earlier record of the company reaches and no later one
    exceeds. *)
Definition companiesOf (done : list Item) (m : jsmap Item) : Prop :=
  NoDup (map fst m)
  /\ (forall k s,
        In (k, s) m ->
        companyKey s = k
        /\ exists l1 l2,
             done = l1 ++ s :: l2
             /\ (forall r, In r l1 -> companyKey r = k ->
                           (timeValue r < timeValue s)%Z)
             /\ (forall r, In r l2 -> companyKey r = k ->
                           (timeValue r <= timeValue s)%Z))
  /\ (forall r, In r done -> exists s, In (companyKey r, s) m).

(** The order of the last sort: most recent first. *)
Definition notOlder (a b : Item) : Prop := (timeValue b <= timeValue a)%Z.

(** What holds of the counts once the records [done] have been seen. *)
Definition countsOf (supportYear supportMonth : jsstring)
    (done : list Item) (m : jsmap Z) : Prop :=
  forall who,
    map_get who m
    = if (countOf supportYear supportMonth who done =? 0)%Z then None
      else Some (countOf supportYear supportMonth who done).

(** What holds of the candidate sets once the records [done] have been
    seen. *)
Definition candidatesOf (supportYear supportMonth : jsstring)
    (done : list Item) (m : jsmap (list jsstring)) : Prop :=
  forall r,
    In r done -> passesFilter supportYear supportMonth r = true ->
    exists s, map_get (supportName r) m = Some s /\ In (candidateName r) s.

(** The order of the fetched list: oldest first. *)
Definition notNewer (a b : Item) : Prop := (timeValue a <= timeValue b)%Z.

(** The time value the server sorts by. *)
Definition receivedOf (email : Email.t) : option Z :=
  dateOrEpoch (orElse (Email.receivedDateTime email) []).

(** The tests that place a record in a month and in a group. *)
Definition inMonth (label : jsstring) (r : Item) : bool :=
  str_eqb (formatMonth (receivedDateTime r)) label.

Definition inGroup (candidate : jsstring) (r : Item) : bool :=
  str_eqb (candidateKey r) candidate.

(** What holds of the month buckets once the records [done] have been
    seen: the bucket of a label holds the records of [done] with that
    label, in the order of [done], under the sort key of the first. *)
Definition monthsOf (done : list Item) (m : jsmap MonthEntry)
    : Prop :=
  forall label,
    map_get label m
    = match filter (inMonth label) done with
      | [] => None
      | r0 :: rest =>
          Some {| sortKey := monthSortKey (receivedDateTime r0);
                  items := r0 :: rest |}
      end.

(** The same for the groups of a month. *)
Definition groupsOfMonth (done : list Item) (m : jsmap (list Item)) : Prop :=
  forall candidate,
    map_get candidate m
    = match filter (inGroup candidate) done with
      | [] => None
      | r0 :: rest => Some (r0 :: rest)
      end.

End ClientVocabulary.


(** The atom every match of the pattern starts with, where there is one. *)
Fixpoint firstAtom (r : regex) : option atom :=
  match r with
  | RAtom a => Some a
  | RSeq r1 _ => firstAtom r1
  | RGroup r1 => firstAtom r1
  | _ => None
  end.

(** Every match of the pattern ends with the character [c]. *)
Fixpoint endsWith (c : char) (r : regex) : bool :=
  match r with
  | RAtom (AChar c') => N.eqb c' c
  | RSeq _ r2 => endsWith c r2
  | RAlt r1 r2 => endsWith c r1 && endsWith c r2
  | RGroup r1 => endsWith c r1
  | _ => false
  end.

(** No "<" of the text opens a tag: each is directly followed by ">" or
    has no ">" after it. *)
Fixpoint tagFree (s : jsstring) : Prop :=
  match s with
  | [] => True
  | c :: s' =>
      (c = 60%N -> (exists s'', s' = 62%N :: s'') \/ ~ In 62%N s')
      /\ tagFree s'
  end.

(** The three patterns that match from a "<" to a later ">". *)
Definition tagPatterns : list pattern :=
  [scriptPattern; stylePattern; tagPattern].


(** The literal [cs] is at the head of [s]. *)
Fixpoint litAt (icase : bool) (cs s : jsstring) : bool :=
  match cs, s with
  | [], _ => true
  | p :: cs', c :: s' => char_matches icase p c && litAt icase cs' s'
  | _ :: _, [] => false
  end.

(** The characters of the no-break-space entity. *)
Definition entity : jsstring := js "&nbsp;".

(** The entity occurs nowhere in the text, in either case. *)
Fixpoint entityFree (s : jsstring) : Prop :=
  litAt true entity s = false
  /\ match s with
     | [] => True
     | _ :: s' => entityFree s'
     end.

(** Code units other than the two angle brackets. *)
Definition plain (c : char) : Prop := c <> 60%N /\ c <> 62%N.

(** Neither white space nor an angle bracket. *)
Definition solid (c : char) : bool :=
  negb (isWhiteSpace c) && negb (N.eqb c 60) && negb (N.eqb c 62).

(** [edits b s out]: [out] is [s] with some plain code units turned into
    spaces or dropped.  A code unit is dropped only right after white space
    of the output or at its start ([b] tells that the output so far is
    empty or ends with white space), or in a tail of plain code units that
    is dropped as a whole. *)
Inductive edits : bool -> jsstring -> jsstring -> Prop :=
| edits_nil b : edits b [] []
| edits_keep b c s out :
    edits (isWhiteSpace c) s out -> edits b (c :: s) (c :: out)
| edits_space b c s out :
    plain c -> edits true s out -> edits b (c :: s) (32%N :: out)
| edits_drop c s out :
    plain c -> edits true s out -> edits true (c :: s) out
| edits_tail b s : Forall plain s -> edits b s [].


(** ** The label the preview stops at *)

(** A match attempt succeeded. *)
Definition succeeds {A : Type} (o : option A) : bool :=
  match o with
  | Some _ => true
  | None => false
  end.

(** The pattern has no [^]: what it matches does not depend on where in
    the subject it is tried. *)
Fixpoint unanchored (r : regex) : bool :=
  match r with
  | RBol => false
  | RSeq r1 r2 => unanchored r1 && unanchored r2
  | RAlt r1 r2 => unanchored r1 && unanchored r2
  | RGroup r1 => unanchored r1
  | RLookahead r1 => unanchored r1
  | _ => true
  end.

(** [/\s+Name of Candidate:/i], the first alternative of the look-ahead of
    [cutoffPattern]. *)
Definition labelPattern : pattern :=
  {| p_regex := seq [plus space; lit "Name of Candidate:"];
     p_ignoreCase := true |}.

(** White space and the label "Name of Candidate:" are at the head of [s]. *)
Definition labelAt (s : jsstring) : bool :=
  succeeds (match_at labelPattern 0 s).

(** Comparisons of code units, as arithmetic. *)
Ltac to_props :=
  repeat first
    [ rewrite orb_true_iff in * | rewrite andb_true_iff in *
    | rewrite orb_false_iff in * | rewrite andb_false_iff in *
    | rewrite negb_true_iff in * | rewrite negb_false_iff in *
    | rewrite N.leb_le in * | rewrite N.leb_gt in *
    | rewrite N.eqb_eq in * | rewrite N.eqb_neq in * ].


(* ================================================================== *)
(** * Strings: facts *)
(* ================================================================== *)

Lemma str_eqb_refl (a : jsstring) : str_eqb a a = true.
Proof.
  induction a as [|x a IH]; simpl; [reflexivity|].
  now rewrite N.eqb_refl, IH.
Qed.

Lemma str_eqb_eq (a b : jsstring) : str_eqb a b = true <-> a = b.
Proof.
  split.
  - revert b; induction a as [|x a IH]; intros [|y b]; simpl; try discriminate;
      [reflexivity|].
    intros H. apply andb_prop in H as [Hx Hr].
    apply N.eqb_eq in Hx. apply IH in Hr. congruence.
  - intros ->. apply str_eqb_refl.
Qed.

Lemma str_eqb_neq (a b : jsstring) : str_eqb a b = false <-> a <> b.
Proof.
  split.
  - intros H E. apply str_eqb_eq in E. congruence.
  - intros H. destruct (str_eqb a b) eqn:E; [|reflexivity].
    apply str_eqb_eq in E. contradiction.
Qed.

Lemma str_eqb_sym (a b : jsstring) : str_eqb a b = str_eqb b a.
Proof.
  destruct (str_eqb a b) eqn:E.
  - apply str_eqb_eq in E. subst. symmetry. apply str_eqb_refl.
  - symmetry. apply str_eqb_neq. apply str_eqb_neq in E. congruence.
Qed.

Lemma dropWhile_idem (p : char -> bool) (s : jsstring) :
  dropWhile p (dropWhile p s) = dropWhile p s.
Proof.
  induction s as [|c s IH]; simpl; [reflexivity|].
  destruct (p c) eqn:E; [exact IH|]. simpl. now rewrite E.
Qed.

Lemma dropWhile_snoc (p : char -> bool) (s : jsstring) (c : char) :
  p c = false -> dropWhile p (s ++ [c]) = dropWhile p s ++ [c].
Proof.
  intros Hc. induction s as [|d s IH]; simpl.
  - now rewrite Hc.
  - destruct (p d); [exact IH | reflexivity].
Qed.

Lemma dropWhile_head (p : char -> bool) (s : jsstring) :
  match dropWhile p s with
  | [] => True
  | c :: _ => p c = false
  end.
Proof.
  induction s as [|c s IH]; simpl; [exact I|].
  destruct (p c) eqn:E; [exact IH | exact E].
Qed.

Lemma dropWhile_fix (p : char -> bool) (s : jsstring) :
  match s with [] => True | c :: _ => p c = false end ->
  dropWhile p s = s.
Proof.
  destruct s as [|c s]; simpl; [reflexivity|]. now intros ->.
Qed.

Lemma trimEnd_idem (s : jsstring) : trimEnd (trimEnd s) = trimEnd s.
Proof.
  unfold trimEnd. now rewrite rev_involutive, dropWhile_idem.
Qed.

Lemma trimEnd_head (s : jsstring) :
  match s with [] => True | c :: _ => isWhiteSpace c = false end ->
  match trimEnd s with [] => True | c :: _ => isWhiteSpace c = false end.
Proof.
  destruct s as [|c s]; [exact (fun H => H)|].
  intros Hc. unfold trimEnd. simpl rev.
  rewrite dropWhile_snoc by exact Hc.
  rewrite rev_app_distr. simpl. exact Hc.
Qed.

Lemma trim_idem (s : jsstring) : trim (trim s) = trim s.
Proof.
  unfold trim at 1.
  assert (H : trimStart (trim s) = trim s).
  { unfold trimStart. apply dropWhile_fix. unfold trim.
    apply trimEnd_head. apply dropWhile_head. }
  rewrite H. unfold trim. apply trimEnd_idem.
Qed.

(* ================================================================== *)
(** * The matcher: every success passes through the continuation *)
(* ================================================================== *)

Section MatcherFacts.

Variable icase : bool.
Variable start : nat.

Lemma exactly_passes a n k pos s x :
  exactly icase a n k pos s = Some x ->
  exists w s', s = w ++ s' /\ length w = n /\ k (pos + n) s' = Some x.
Proof.
  revert pos s. induction n as [|n IH]; intros pos s H; simpl in H.
  - exists [], s. rewrite Nat.add_0_r. auto.
  - destruct s as [|c s]; [discriminate|].
    destruct (atom_matches icase a c); [|discriminate].
    apply IH in H as (w & s' & -> & Hlen & H).
    exists (c :: w), s'. simpl. rewrite Hlen.
    replace (pos + S n) with (S pos + n) by lia. auto.
Qed.

Lemma upto_passes a greedy hi k pos s x :
  upto icase a greedy hi k pos s = Some x ->
  exists w s', s = w ++ s' /\ k (pos + length w) s' = Some x.
Proof.
  revert hi pos. induction s as [|c s IH]; intros hi pos H.
  - exists [], []. simpl. rewrite Nat.add_0_r.
    destruct hi as [[|h]|]; simpl in H; auto.
  - assert (here : k pos (c :: s) = Some x ->
                   exists w s', c :: s = w ++ s'
                                /\ k (pos + length w) s' = Some x).
    { intros Hk. exists [], (c :: s). simpl. rewrite Nat.add_0_r. auto. }
    assert (further : forall h,
              upto icase a greedy h k (S pos) s = Some x ->
              exists w s', c :: s = w ++ s'
                           /\ k (pos + length w) s' = Some x).
    { intros h Hu. apply IH in Hu as (w & s' & -> & Hu).
      exists (c :: w), s'. simpl.
      replace (pos + S (length w)) with (S pos + length w) by lia. auto. }
    assert (step :
      (if atom_matches icase a c then
         if greedy then
           match upto icase a greedy (option_map pred hi) k (S pos) s with
           | Some r => Some r
           | None => k pos (c :: s)
           end
         else
           match k pos (c :: s) with
           | Some r => Some r
           | None => upto icase a greedy (option_map pred hi) k (S pos) s
           end
       else k pos (c :: s)) = Some x ->
      exists w s', c :: s = w ++ s' /\ k (pos + length w) s' = Some x).
    { destruct (atom_matches icase a c); [|exact here].
      destruct greedy.
      - destruct (upto icase a true (option_map pred hi) k (S pos) s) eqn:E.
        + intros E'. injection E' as ->. eauto.
        + exact here.
      - destruct (k pos (c :: s)) eqn:E.
        + intros E'. injection E' as ->. auto.
        + eauto. }
    destruct hi as [[|h]|]; simpl in H; auto.
Qed.

Lemma run_passes r :
  forall k cap pos s x,
    run icase start r k cap pos s = Some x ->
    exists cap' w s',
      s = w ++ s'
      /\ k cap' (pos + length w) s' = Some x
      /\ (captures r = true -> cap' <> None)
      /\ (cap <> None -> cap' <> None)
      /\ (consumes r = true -> w <> []).
Proof.
  induction r as [| a | r1 IH1 r2 IH2 | r1 IH1 r2 IH2 | a lo hi g
                  | r1 IH1 | r1 IH1 | |];
    intros k cap pos s x H; simpl in H.
  - exists cap, [], s. simpl. rewrite Nat.add_0_r.
    repeat split; auto; discriminate.
  - destruct s as [|c s]; [discriminate|].
    destruct (atom_matches icase a c); [|discriminate].
    exists cap, [c], s. simpl. rewrite Nat.add_1_r.
    repeat split; auto; discriminate.
  - apply IH1 in H as (c1 & w1 & s1 & -> & H & Hc1 & Hk1 & Hn1).
    apply IH2 in H as (c2 & w2 & s2 & -> & H & Hc2 & Hk2 & Hn2).
    exists c2, (w1 ++ w2), s2. rewrite length_app, Nat.add_assoc.
    split; [now rewrite List.app_assoc|]. split; [exact H|]. simpl.
    repeat split; auto.
    + intros Hor. apply orb_prop in Hor as [Ha | Hb]; auto.
    + intros Hor Heq. apply app_eq_nil in Heq as [-> ->].
      apply orb_prop in Hor as [Ha | Hb];
        [now apply (Hn1 Ha) | now apply (Hn2 Hb)].
  - destruct (run icase start r1 k cap pos s) eqn:E.
    + injection H as ->.
      apply IH1 in E as (c1 & w1 & s1 & -> & E & Hc1 & Hk1 & Hn1).
      exists c1, w1, s1. simpl. repeat split; auto.
      * intros Hand. apply andb_prop in Hand as [Ha _]. auto.
      * intros Hand. apply andb_prop in Hand as [Ha _]. auto.
    + apply IH2 in H as (c2 & w2 & s2 & -> & H & Hc2 & Hk2 & Hn2).
      exists c2, w2, s2. simpl. repeat split; auto.
      * intros Hand. apply andb_prop in Hand as [_ Hb]. auto.
      * intros Hand. apply andb_prop in Hand as [_ Hb]. auto.
  - apply exactly_passes in H as (w1 & s1 & -> & Hlen & H).
    apply upto_passes in H as (w2 & s2 & -> & H).
    exists cap, (w1 ++ w2), s2. rewrite length_app, Nat.add_assoc, Hlen.
    split; [now rewrite List.app_assoc|]. split; [exact H|]. simpl.
    repeat split; auto; try discriminate.
    intros Hlo Heq. apply app_eq_nil in Heq as [-> _]. simpl in Hlen.
    subst lo. discriminate.
  - apply IH1 in H as (c1 & w1 & s1 & -> & H & _ & _ & Hn1).
    eexists _, w1, s1. split; [reflexivity|]. split; [exact H|].
    simpl. repeat split; auto; discriminate.
  - destruct (run icase start r1 (fun cap' pos' _ => Some (cap', pos')) cap pos s)
      as [[c1 p1]|] eqn:E; [|discriminate].
    apply IH1 in E as (c2 & w2 & s2 & _ & E & Hc2 & Hk2 & _).
    injection E as -> _.
    exists c1, [], s. simpl. rewrite Nat.add_0_r.
    repeat split; auto; discriminate.
  - destruct (Nat.eqb (start + pos) 0); [|discriminate].
    exists cap, [], s. simpl. rewrite Nat.add_0_r.
    repeat split; auto; discriminate.
  - destruct s; [|discriminate].
    exists cap, [], []. simpl. rewrite Nat.add_0_r.
    repeat split; auto; discriminate.
Qed.

End MatcherFacts.

(** A successful attempt matched a prefix of the input, of the length it
    reports. *)
Lemma match_at_prefix (p : pattern) (start : nat) (s : jsstring) cap len :
  match_at p start s = Some (cap, len) ->
  exists w s',
    s = w ++ s' /\ len = length w
    /\ (captures (p_regex p) = true -> cap <> None)
    /\ (consumes (p_regex p) = true -> w <> []).
Proof.
  intros H. unfold match_at in H.
  apply run_passes in H as (c & w & s' & -> & H & Hcap & _ & Hne).
  simpl in H. injection H as Hc Hl. subst c len.
  exists w, s'. auto.
Qed.

Lemma match_at_group (p : pattern) (start : nat) (s : jsstring) cap len :
  captures (p_regex p) = true ->
  match_at p start s = Some (cap, len) -> cap <> None.
Proof.
  intros Hc H. apply match_at_prefix in H as (w & s' & _ & _ & Hcap & _).
  auto.
Qed.

Lemma search_from_group (p : pattern) (s : jsstring) :
  captures (p_regex p) = true ->
  forall i m, search_from p i s = Some m -> m_group1 m <> None.
Proof.
  intros Hc. induction s as [|c s IH]; intros i m H; simpl in H.
  - destruct (match_at p i []) as [[cap len]|] eqn:E; [|discriminate].
    injection H as <-. simpl. eapply match_at_group; eauto.
  - destruct (match_at p i (c :: s)) as [[cap len]|] eqn:E.
    + injection H as <-. simpl. eapply match_at_group; eauto.
    + eauto.
Qed.

(** [find] returns, and what it returns is trimmed or absent, for every
    pattern whose successful paths all go through its group. *)
Lemma find_returns (p : pattern) (src : jsstring) :
  captures (p_regex p) = true ->
  exists o, find p src = Returned o /\ trimmedOrAbsent o.
Proof.
  intros Hc. unfold find.
  destruct (str_match p src) as [m|] eqn:E.
  - apply search_from_group in E; [|exact Hc].
    destruct (m_group1 m) as [g|]; [|contradiction].
    exists (Some (trim g)). split; [reflexivity|]. apply trim_idem.
  - exists None. split; [reflexivity | exact I].
Qed.

Lemma fieldPatterns_capture :
  Forall (fun p => captures (p_regex p) = true) fieldPatterns.
Proof. repeat constructor. Qed.

(** C1.  For every input ([undefined], [null] and every string, the empty
    one included), [extractPoDetails] returns (it never throws) an object
    each of whose eleven fields is either [null] or a string that [trim]
    leaves unchanged; and a field pattern that matches nowhere in its
    source gives [null], not an error. *)
Theorem extractPoDetails_total (inputText : value) :
  (exists e : ExtractedFields,
     extractPoDetails inputText = Returned e /\ wellFormed e)
  /\ (forall p src, str_match p src = None -> find p src = Returned None).
Proof.
  split; [| intros p src H; unfold find; now rewrite H].
  unfold extractPoDetails.
  set (text := normalizeText inputText).
  set (sec := sectionOrEmpty (interviewSection text)).
  destruct (find_returns candidateNamePattern text eq_refl) as (f1 & -> & H1).
  destruct (find_returns phoneNumberPattern text eq_refl) as (f2 & -> & H2).
  destruct (find_returns emailPattern text eq_refl) as (f3 & -> & H3).
  destruct (find_returns locationPattern text eq_refl) as (f4 & -> & H4).
  destruct (find_returns positionAppliedPattern text eq_refl) as (f5 & -> & H5).
  destruct (find_returns jobLocationPattern text eq_refl) as (f6 & -> & H6).
  destruct (find_returns endClientPattern text eq_refl) as (f7 & -> & H7).
  destruct (find_returns ratePattern text eq_refl) as (f8 & -> & H8).
  destruct (find_returns supportByPattern sec eq_refl) as (f9 & -> & H9).
  destruct (find_returns teamLeadPattern sec eq_refl) as (f10 & -> & H10).
  destruct (find_returns managerPattern sec eq_refl) as (f11 & -> & H11).
  eexists. split; [reflexivity|].
  unfold wellFormed. simpl. repeat constructor; assumption.
Qed.

(** C1 on a text that has nothing of the letter: no anchor, no field. *)
Lemma extractPoDetails_total_witness :
  find candidateNamePattern (js "Lunch at noon?") = Returned None.
Proof.
  apply (proj2 (extractPoDetails_total (VString (js "Lunch at noon?")))).
  vm_compute. reflexivity.
Defined.

(* ================================================================== *)
(** * The template examples *)
(* ================================================================== *)

(** C7, as stated, fails: with a colon after "Location" the location
    pattern, which wants two or three letters after optional white space,
    does not match, and [location] is [null]. *)
Lemma location_with_colon_is_null :
  exists e,
    extractPoDetails
      (VString (js "Name of Candidate: Jane Doe SST Location: USA"))
    = Returned e
    /\ location e <> Some (js "USA").
Proof.
  eexists. split; [vm_compute; reflexivity|]. simpl. discriminate.
Qed.

(** C7, amended.  On "Name of Candidate: Jane Doe SST Location: USA" the
    extractor returns [candidate_name = "Jane Doe"] and [location = null];
    on the same text without the colon after "Location" it returns
    [candidate_name = "Jane Doe"] and [location = "USA"]. *)
Theorem template_name_and_location :
  (exists e,
     extractPoDetails
       (VString (js "Name of Candidate: Jane Doe SST Location: USA"))
     = Returned e
     /\ candidate_name e = Some (js "Jane Doe")
     /\ location e = None)
  /\ (exists e,
       extractPoDetails
         (VString (js "Name of Candidate: Jane Doe SST Location USA"))
       = Returned e
       /\ candidate_name e = Some (js "Jane Doe")
       /\ location e = Some (js "USA")).
Proof.
  split; eexists; (split; [vm_compute; reflexivity|]); split; reflexivity.
Qed.

(* ================================================================== *)
(** * The interview-support section *)
(* ================================================================== *)

Lemma search_from_index (p : pattern) (s : jsstring) :
  forall i m, search_from p i s = Some m -> i <= m_index m.
Proof.
  induction s as [|c s IH]; intros i m H; simpl in H.
  - destruct (match_at p i []) as [[cap len]|]; [|discriminate].
    injection H as <-. simpl. lia.
  - destruct (match_at p i (c :: s)) as [[cap len]|].
    + injection H as <-. simpl. lia.
    + apply IH in H. lia.
Qed.

(** The match found at index [i + length pre] is the attempt made there. *)
Lemma search_from_at (p : pattern) (pre s : jsstring) :
  forall i m,
    search_from p i (pre ++ s) = Some m ->
    m_index m = i + length pre ->
    exists len, match_at p (i + length pre) s = Some (m_group1 m, len).
Proof.
  induction pre as [|c pre IH]; intros i m H Hi; simpl in *.
  - rewrite Nat.add_0_r in *.
    destruct s as [|c s]; simpl in H.
    + destruct (match_at p i []) as [[cap len]|]; [|discriminate].
      injection H as <-. simpl. eauto.
    + destruct (match_at p i (c :: s)) as [[cap len]|].
      * injection H as <-. simpl. eauto.
      * apply search_from_index in H. lia.
  - destruct (match_at p i (c :: pre ++ s)) as [[cap len]|].
    + injection H as <-. simpl in Hi. lia.
    + replace (i + S (length pre)) with (S i + length pre) by lia.
      apply IH; [exact H | lia].
Qed.

(** At the span, the section pattern captures up to "Carol", whatever
    comes before and after. *)
Lemma interview_at_span (start : nat) (q : jsstring) :
  match_at interviewPattern start (supportSpan ++ q)
  = Some (Some (js "Alice Team Lead Bob Manager Carol"), 62).
Proof. vm_compute. reflexivity. Qed.

(** C2, as stated, fails: the text below is normalized and contains the
    span, but the section pattern matches first at an earlier "Interview
    Support Support by", whose section is "Zed". *)
Lemma earlier_section_wins :
  let text :=
    js "Interview Support Support by Zed Thanks " ++ supportSpan ++ js " x" in
  normalizeText (VString text) = text
  /\ exists e,
       extractPoDetails (VString text) = Returned e
       /\ interview_support_by e <> Some (js "Alice")
       /\ team_lead e <> Some (js "Bob")
       /\ manager e <> Some (js "Carol").
Proof.
  split; [vm_compute; reflexivity|].
  eexists. split; [vm_compute; reflexivity|].
  simpl. repeat split; discriminate.
Qed.

(** C2, amended.  For a normalized body text [p ++ span ++ q] in which the
    section pattern first matches at the span "Interview Support Support by
    Alice Team Lead Bob Manager Carol Marketing Application", extraction
    gives [interview_support_by = "Alice"], [team_lead = "Bob"] and
    [manager = "Carol"], whatever [p] holds (a "Manager" label in [p] is
    not captured).  And for every input whose normalized text has no match
    of the section pattern, the three fields are [null]. *)
Theorem interview_section_fields :
  (forall p q : jsstring,
     let text := p ++ supportSpan ++ q in
     normalizeText (VString text) = text ->
     (exists m, str_match interviewPattern text = Some m
                /\ m_index m = length p) ->
     exists e,
       extractPoDetails (VString text) = Returned e
       /\ interview_support_by e = Some (js "Alice")
       /\ team_lead e = Some (js "Bob")
       /\ manager e = Some (js "Carol"))
  /\ (forall inputText : value,
       interviewSection (normalizeText inputText) = None ->
       exists e,
         extractPoDetails inputText = Returned e
         /\ interview_support_by e = None
         /\ team_lead e = None
         /\ manager e = None).
Proof.
  split.
  - intros p q text Hn (m & Hm & Hi).
    assert (Hsec : interviewSection text
                   = Some (js "Alice Team Lead Bob Manager Carol")).
    { unfold interviewSection. rewrite Hm.
      unfold str_match in Hm.
      destruct (@search_from_at interviewPattern p (supportSpan ++ q) 0 m Hm Hi)
        as (len & Hat).
      rewrite interview_at_span in Hat. now injection Hat as <- _. }
    unfold extractPoDetails. rewrite Hn. fold text. rewrite Hsec.
    destruct (find_returns candidateNamePattern text eq_refl) as (f1 & -> & _).
    destruct (find_returns phoneNumberPattern text eq_refl) as (f2 & -> & _).
    destruct (find_returns emailPattern text eq_refl) as (f3 & -> & _).
    destruct (find_returns locationPattern text eq_refl) as (f4 & -> & _).
    destruct (find_returns positionAppliedPattern text eq_refl) as (f5 & -> & _).
    destruct (find_returns jobLocationPattern text eq_refl) as (f6 & -> & _).
    destruct (find_returns endClientPattern text eq_refl) as (f7 & -> & _).
    destruct (find_returns ratePattern text eq_refl) as (f8 & -> & _).
    eexists. split; [vm_compute; reflexivity|].
    repeat split.
  - intros inputText Hnone.
    unfold extractPoDetails. rewrite Hnone.
    set (text := normalizeText inputText).
    destruct (find_returns candidateNamePattern text eq_refl) as (f1 & -> & _).
    destruct (find_returns phoneNumberPattern text eq_refl) as (f2 & -> & _).
    destruct (find_returns emailPattern text eq_refl) as (f3 & -> & _).
    destruct (find_returns locationPattern text eq_refl) as (f4 & -> & _).
    destruct (find_returns positionAppliedPattern text eq_refl) as (f5 & -> & _).
    destruct (find_returns jobLocationPattern text eq_refl) as (f6 & -> & _).
    destruct (find_returns endClientPattern text eq_refl) as (f7 & -> & _).
    destruct (find_returns ratePattern text eq_refl) as (f8 & -> & _).
    eexists. split; [vm_compute; reflexivity|].
    repeat split.
Qed.

(** The amended C2 at a text with a "Manager" label before the section. *)
Lemma interview_section_fields_witness :
  (let text := js "Manager Dave " ++ supportSpan ++ js " form" in
   exists e,
     extractPoDetails (VString text) = Returned e
     /\ interview_support_by e = Some (js "Alice")
     /\ team_lead e = Some (js "Bob")
     /\ manager e = Some (js "Carol"))
  /\ (exists e,
       extractPoDetails (VString (js "Team Lead Bob Manager Carol")) = Returned e
       /\ interview_support_by e = None
       /\ team_lead e = None
       /\ manager e = None).
Proof.
  split.
  - apply (proj1 interview_section_fields (js "Manager Dave ") (js " form")).
    + vm_compute. reflexivity.
    + eexists. split; [vm_compute; reflexivity | reflexivity].
  - apply (proj2 interview_section_fields
             (VString (js "Team Lead Bob Manager Carol"))).
    vm_compute. reflexivity.
Defined.

(* ================================================================== *)
(** * The text normalizer *)
(* ================================================================== *)

Lemma match_at_nbsp (i : nat) (c : char) (s : jsstring) :
  match_at nbspPattern i (c :: s)
  = if (160 =? c)%N then Some (None, 1) else None.
Proof. reflexivity. Qed.

Lemma replace_nbsp (s : jsstring) :
  forall i, replace_from nbspPattern (js " ") i 0 s = map unbreak s.
Proof.
  induction s as [|c s IH]; intros i; [reflexivity|].
  cbn [replace_from map]. rewrite match_at_nbsp. unfold unbreak at 1.
  destruct (160 =? c)%N; rewrite IH; reflexivity.
Qed.

Lemma upto_spaces_greedy (s : jsstring) :
  forall pos,
    upto false space true None (fun pos' _ => Some (None, pos')) pos s
    = Some (None, pos + leadingSpaces s).
Proof.
  induction s as [|c s IH]; intros pos; cbn [upto leadingSpaces].
  - now rewrite Nat.add_0_r.
  - cbn [atom_matches space existsb citem_matches xorb orb option_map].
    rewrite orb_false_r.
    destruct (isWhiteSpace c).
    + rewrite IH. f_equal. f_equal. lia.
    + now rewrite Nat.add_0_r.
Qed.

Lemma match_at_spaces (i : nat) (s : jsstring) :
  match_at spacesPattern i s
  = match leadingSpaces s with
    | O => None
    | S n => Some (None, S n)
    end.
Proof.
  unfold match_at. cbn [spacesPattern p_regex p_ignoreCase plus run exactly].
  destruct s as [|c s]; [reflexivity|].
  cbn [atom_matches space existsb citem_matches xorb orb option_map
       leadingSpaces].
  rewrite orb_false_r.
  destruct (isWhiteSpace c); [|reflexivity].
  cbn [option_map]. now rewrite upto_spaces_greedy.
Qed.

Lemma replace_spaces (s : jsstring) :
  forall i,
    replace_from spacesPattern (js " ") i 0 s = collapse false s
    /\ replace_from spacesPattern (js " ") i (leadingSpaces s) s
       = collapse true s.
Proof.
  induction s as [|c s IH]; intros i.
  - split; reflexivity.
  - assert (A : replace_from spacesPattern (js " ") i 0 (c :: s)
                = collapse false (c :: s)).
    { cbn [replace_from]. rewrite match_at_spaces.
      cbn [leadingSpaces collapse].
      destruct (isWhiteSpace c).
      - destruct (IH (S i)) as [_ ->]. reflexivity.
      - destruct (IH (S i)) as [-> _]. reflexivity. }
    split; [exact A|].
    cbn [leadingSpaces]. destruct (isWhiteSpace c) eqn:E.
    + cbn [replace_from collapse]. rewrite E.
      destruct (IH (S i)) as [_ ->]. reflexivity.
    + rewrite A. cbn [collapse]. now rewrite E.
Qed.

(** [normalizeText] is: no-break spaces to spaces, runs of white space to
    one space, trim. *)
Lemma normalizeText_eq (v : value) :
  normalizeText v = trim (collapse false (map unbreak (toString v))).
Proof.
  unfold normalizeText, replaceAll.
  rewrite replace_nbsp. now destruct (replace_spaces (map unbreak (toString v)) 0) as [-> _].
Qed.

Lemma singleSpaced_weaken (s : jsstring) :
  singleSpaced true s = true -> singleSpaced false s = true.
Proof.
  destruct s as [|c s]; simpl; [auto|].
  destruct (isWhiteSpace c); [|auto].
  rewrite andb_false_r. discriminate.
Qed.

Lemma collapse_singleSpaced (s : jsstring) :
  forall b, singleSpaced b (collapse b s) = true.
Proof.
  induction s as [|c s IH]; intros b; simpl; [reflexivity|].
  destruct (isWhiteSpace c) eqn:E.
  - destruct b; [apply IH|].
    simpl. now rewrite IH.
  - simpl. rewrite E. apply IH.
Qed.

Lemma collapse_fix (s : jsstring) :
  forall b, singleSpaced b s = true -> collapse b s = s.
Proof.
  induction s as [|c s IH]; intros b H; simpl in *; [reflexivity|].
  destruct (isWhiteSpace c).
  - apply andb_prop in H as [H Hs]. apply andb_prop in H as [Hc Hb].
    apply N.eqb_eq in Hc. subst c.
    destruct b; [discriminate|]. now rewrite IH.
  - now rewrite IH.
Qed.

Lemma unbreak_fix (s : jsstring) :
  forall b, singleSpaced b s = true -> map unbreak s = s.
Proof.
  induction s as [|c s IH]; intros b H; simpl in *; [reflexivity|].
  unfold unbreak at 1.
  destruct (160 =? c)%N eqn:E.
  - apply N.eqb_eq in E. subst c. discriminate.
  - f_equal. destruct (isWhiteSpace c).
    + apply andb_prop in H as [_ Hs]. eauto.
    + eauto.
Qed.

Lemma singleSpaced_dropWhile (s : jsstring) :
  forall b, singleSpaced b s = true ->
            singleSpaced false (dropWhile isWhiteSpace s) = true.
Proof.
  induction s as [|c s IH]; intros b H; simpl in *; [reflexivity|].
  destruct (isWhiteSpace c) eqn:E.
  - apply andb_prop in H as [_ Hs]. eauto.
  - simpl. now rewrite E.
Qed.

Lemma singleSpaced_prefix (a w : jsstring) :
  forall b, singleSpaced b (a ++ w) = true -> singleSpaced b a = true.
Proof.
  induction a as [|c a IH]; intros b H; simpl in *; [reflexivity|].
  destruct (isWhiteSpace c).
  - apply andb_prop in H as [H Hs]. rewrite H. simpl. eauto.
  - eauto.
Qed.

Lemma dropWhile_suffix (p : char -> bool) (s : jsstring) :
  exists w, s = w ++ dropWhile p s.
Proof.
  induction s as [|c s [w IH]]; simpl.
  - exists []. reflexivity.
  - destruct (p c).
    + exists (c :: w). simpl. now f_equal.
    + exists []. reflexivity.
Qed.

Lemma trimEnd_prefix (s : jsstring) : exists w, s = trimEnd s ++ w.
Proof.
  unfold trimEnd.
  destruct (dropWhile_suffix isWhiteSpace (rev s)) as [w Hw].
  exists (rev w).
  rewrite <- rev_app_distr, <- Hw. now rewrite rev_involutive.
Qed.

Lemma singleSpaced_trim (s : jsstring) :
  singleSpaced false s = true -> singleSpaced false (trim s) = true.
Proof.
  intros H. unfold trim.
  destruct (trimEnd_prefix (trimStart s)) as [w Hw].
  apply singleSpaced_prefix with (w := w). rewrite <- Hw.
  unfold trimStart. eapply singleSpaced_dropWhile; eauto.
Qed.

(** Normalized text is single-spaced and trimmed, and [normalizeText]
    leaves such text alone. *)
Lemma normalizeText_singleSpaced (v : value) :
  singleSpaced false (normalizeText v) = true.
Proof.
  rewrite normalizeText_eq. apply singleSpaced_trim, collapse_singleSpaced.
Qed.

Lemma normalizeText_idem (v : value) :
  normalizeText (VString (normalizeText v)) = normalizeText v.
Proof.
  rewrite (normalizeText_eq (VString _)). cbn [toString].
  pose proof (normalizeText_singleSpaced v) as H.
  rewrite (unbreak_fix _ _ H), (collapse_fix _ _ H).
  rewrite normalizeText_eq. apply trim_idem.
Qed.

(* ================================================================== *)
(** * Strings: the order *)
(* ================================================================== *)

Lemma str_ltb_irrefl (a : jsstring) : str_ltb a a = false.
Proof.
  induction a as [|x a IH]; simpl; [reflexivity|].
  now rewrite N.ltb_irrefl, N.eqb_refl.
Qed.

Lemma str_ltb_asym (a : jsstring) :
  forall b, str_ltb a b = true -> str_ltb b a = false.
Proof.
  induction a as [|x a IH]; intros [|y b]; simpl; try easy.
  destruct (N.ltb_spec x y) as [Hxy|Hxy].
  - intros _. destruct (N.ltb_spec y x); [lia|].
    destruct (N.eqb_spec y x); [lia | reflexivity].
  - destruct (N.eqb_spec x y) as [->|Hne]; [|discriminate].
    intros H. rewrite N.ltb_irrefl, N.eqb_refl. auto.
Qed.

(** [>=] on strings is transitive. *)
Lemma str_geb_trans (a : jsstring) :
  forall b c,
    str_ltb a b = false -> str_ltb b c = false -> str_ltb a c = false.
Proof.
  induction a as [|x a IH]; intros [|y b] [|z c]; simpl; try easy.
  destruct (N.ltb_spec x y) as [Hxy|Hxy]; [discriminate|].
  destruct (N.ltb_spec y z) as [Hyz|Hyz]; [discriminate|].
  destruct (N.eqb_spec x y) as [->|Hne1];
    destruct (N.eqb_spec y z) as [->|Hne2]; intros H1 H2;
    repeat match goal with
      | |- context [N.ltb ?u ?v] => destruct (N.ltb_spec u v); try lia
      | |- context [N.eqb ?u ?v] => destruct (N.eqb_spec u v); try lia
      end; eauto.
Qed.

(* ================================================================== *)
(** * Sorting *)
(* ================================================================== *)

Lemma sort_insert_perm {A : Type} (cmp : A -> A -> Z) (x : A) (l : list A) :
  Permutation (x :: l) (sort_insert cmp x l).
Proof.
  induction l as [|y l IH]; simpl; [reflexivity|].
  destruct (cmp x y <=? 0)%Z; [reflexivity|].
  rewrite perm_swap. now apply perm_skip.
Qed.

Lemma js_sort_perm {A : Type} (cmp : A -> A -> Z) (l : list A) :
  Permutation l (js_sort cmp l).
Proof.
  induction l as [|x l IH]; simpl; [reflexivity|].
  rewrite <- sort_insert_perm. now apply perm_skip.
Qed.

Lemma js_sort_In {A : Type} (cmp : A -> A -> Z) (l : list A) (x : A) :
  In x (js_sort cmp l) <-> In x l.
Proof.
  split; apply Permutation_in;
    [symmetry|]; apply js_sort_perm.
Qed.

Section SortFacts.

Context {A : Type} (cmp : A -> A -> Z).
(** The order the comparator stands for, on the elements satisfying [P]. *)
Variable R : A -> A -> Prop.
Variable P : A -> Prop.
Hypothesis cmp_le : forall x y, P x -> P y -> (cmp x y <= 0)%Z -> R x y.
Hypothesis cmp_gt : forall x y, P x -> P y -> (0 < cmp x y)%Z -> R y x.
Hypothesis R_trans :
  forall x y z, P x -> P y -> P z -> R x y -> R y z -> R x z.

Lemma sort_insert_sorted (x : A) (l : list A) :
  P x -> Forall P l -> StronglySorted R l ->
  StronglySorted R (sort_insert cmp x l).
Proof.
  intros Px. induction l as [|y l IH]; intros HP HS; simpl.
  - constructor; constructor.
  - inversion HP as [|? ? Py HPl]; subst.
    inversion HS as [|? ? HSl Hy]; subst.
    destruct (Z.leb_spec (cmp x y) 0) as [Hle|Hgt].
    + constructor; [exact HS|].
      constructor; [now apply cmp_le|].
      rewrite Forall_forall in *. intros z Hz.
      apply R_trans with y; auto.
    + constructor; [now apply IH|].
      rewrite Forall_forall in *. intros z Hz.
      apply (Permutation_in _ (Permutation_sym (sort_insert_perm cmp x l))) in Hz.
      destruct Hz as [<-|Hz]; auto.
Qed.

Lemma js_sort_sorted (l : list A) :
  Forall P l -> StronglySorted R (js_sort cmp l).
Proof.
  induction l as [|x l IH]; intros HP; simpl; [constructor|].
  inversion HP; subst.
  apply sort_insert_sorted; auto.
  rewrite Forall_forall in *. intros z Hz.
  apply js_sort_In in Hz. auto.
Qed.

End SortFacts.

Lemma sorted_suffix {A : Type} (R : A -> A -> Prop) (l1 l2 : list A) :
  StronglySorted R (l1 ++ l2) -> StronglySorted R l2.
Proof.
  induction l1 as [|x l1 IH]; simpl; [auto|].
  intros H. inversion H; subst. auto.
Qed.

(** In a sorted list, an element that is not above another comes after it. *)
Lemma sorted_before {A : Type} (R : A -> A -> Prop) (l : list A) (a b : A) :
  StronglySorted R l -> In a l -> In b l -> R a a -> ~ R b a ->
  before a b l.
Proof.
  intros HS Ha Hb Hrefl Hnot.
  apply in_split in Ha as (l1 & rest & ->).
  apply in_app_or in Hb as [Hb | [Hb | Hb]].
  - exfalso. apply in_split in Hb as (m1 & m2 & ->).
    rewrite <- app_assoc in HS. simpl in HS.
    apply sorted_suffix in HS.
    inversion HS as [|? ? _ Hall]; subst.
    rewrite Forall_forall in Hall. apply Hnot, Hall.
    apply in_or_app. right. left. reflexivity.
  - subst. contradiction.
  - apply in_split in Hb as (l2 & l3 & ->).
    exists l1, l2, l3. reflexivity.
Qed.

(* ================================================================== *)
(** * Maps *)
(* ================================================================== *)

Section MapFacts.

Context {V : Type}.
Implicit Types (m : jsmap V) (k : jsstring) (v : V).

Lemma map_get_set_same k v m : map_get k (map_set k v m) = Some v.
Proof.
  induction m as [|[k' v'] m IH]; simpl.
  - now rewrite str_eqb_refl.
  - destruct (str_eqb k k') eqn:E; simpl; rewrite E; auto.
Qed.

Lemma map_get_set_other k k' v m :
  k' <> k -> map_get k' (map_set k v m) = map_get k' m.
Proof.
  intros Hne. induction m as [|[k0 v0] m IH]; simpl.
  - apply str_eqb_neq in Hne. now rewrite Hne.
  - destruct (str_eqb k k0) eqn:E; simpl.
    + apply str_eqb_eq in E. subst k0.
      apply str_eqb_neq in Hne. now rewrite Hne.
    + now rewrite IH.
Qed.

Lemma map_get_In k v m : map_get k m = Some v -> In (k, v) m.
Proof.
  induction m as [|[k0 v0] m IH]; simpl; [discriminate|].
  destruct (str_eqb k k0) eqn:E.
  - intros [= <-]. apply str_eqb_eq in E. subst. now left.
  - auto.
Qed.

Lemma map_get_None k m : map_get k m = None -> ~ In k (map fst m).
Proof.
  induction m as [|[k0 v0] m IH]; simpl; [tauto|].
  destruct (str_eqb k k0) eqn:E; [discriminate|].
  apply str_eqb_neq in E. intros H [H1|H2]; [congruence | now apply IH].
Qed.

Lemma In_map_get k v m :
  NoDup (map fst m) -> In (k, v) m -> map_get k m = Some v.
Proof.
  induction m as [|[k0 v0] m IH]; simpl; [tauto|].
  intros HN [H|H].
  - injection H as -> ->. now rewrite str_eqb_refl.
  - inversion HN as [|? ? Hnotin HN']; subst.
    destruct (str_eqb k k0) eqn:E.
    + apply str_eqb_eq in E. subst. exfalso. apply Hnotin.
      apply (in_map fst) in H. exact H.
    + auto.
Qed.

Lemma map_set_absent k v m :
  map_get k m = None -> map_set k v m = m ++ [(k, v)].
Proof.
  induction m as [|[k0 v0] m IH]; simpl; [reflexivity|].
  destruct (str_eqb k k0); [discriminate|].
  intros H. now rewrite IH.
Qed.

Lemma map_set_keys_present k v v0 m :
  map_get k m = Some v0 -> map fst (map_set k v m) = map fst m.
Proof.
  induction m as [|[k1 v1] m IH]; simpl; [discriminate|].
  destruct (str_eqb k k1); simpl; [reflexivity|].
  intros H. now rewrite IH.
Qed.

(** What [set] leaves in the map. *)
Lemma In_map_set k v m k' v' :
  In (k', v') (map_set k v m) ->
  (k' = k /\ v' = v) \/ In (k', v') m.
Proof.
  induction m as [|[k1 v1] m IH]; simpl.
  - intros [[= <- <-]|[]]. now left.
  - destruct (str_eqb k k1) eqn:E; simpl.
    + apply str_eqb_eq in E. subst.
      intros [[= <- <-]|H]; [now left | right; now right].
    + intros [H|H]; [right; now left|].
      destruct (IH H) as [?|?]; [now left | right; now right].
Qed.

Lemma In_map_set_other k v m k' v' :
  k' <> k -> In (k', v') m -> In (k', v') (map_set k v m).
Proof.
  intros Hne. induction m as [|[k1 v1] m IH]; simpl; [tauto|].
  destruct (str_eqb k k1) eqn:E; simpl.
  - apply str_eqb_eq in E. subst.
    intros [[= -> ->]|H]; [congruence | now right].
  - intros [H|H]; [now left | right; auto].
Qed.

End MapFacts.

Lemma map_set_set {V : Type} (k : jsstring) (v v' : V) (m : jsmap V) :
  map_set k v' (map_set k v m) = map_set k v' m.
Proof.
  induction m as [|[k1 v1] m IH]; simpl.
  - now rewrite str_eqb_refl.
  - destruct (str_eqb k k1) eqn:E; simpl; rewrite E; [reflexivity|].
    now rewrite IH.
Qed.

Lemma map_set_NoDup {V : Type} (k : jsstring) (v : V) (m : jsmap V) :
  NoDup (map fst m) -> NoDup (map fst (map_set k v m)).
Proof.
  intros HN. destruct (map_get k m) as [v0|] eqn:E.
  - now erewrite map_set_keys_present by exact E.
  - rewrite map_set_absent by exact E. rewrite map_app. simpl.
    apply NoDup_app_remove_l with (l := []). simpl.
    apply Permutation_NoDup with (l := k :: map fst m).
    + apply Permutation_cons_append.
    + constructor; [now apply map_get_None | exact HN].
Qed.

(* ================================================================== *)
(** * Numbers as strings *)
(* ================================================================== *)

Lemma unorm_D0 (d d' : Decimal.uint) :
  Decimal.unorm d = Decimal.D0 d' -> d' = Decimal.Nil.
Proof.
  induction d; simpl; try discriminate; auto.
  intros [= <-]. reflexivity.
Qed.

Lemma to_uint_normal (p : positive) :
  Decimal.unorm (Pos.to_uint p) = Pos.to_uint p.
Proof.
  rewrite <- (DecimalPos.Unsigned.to_of (Pos.to_uint p)).
  now rewrite DecimalPos.Unsigned.of_to.
Qed.

(** The decimal writing of a positive number starts with a digit from 1
    to 9. *)
Lemma to_uint_head (p : positive) :
  exists c r, uint_chars (Pos.to_uint p) = c :: r /\ (48 < c)%N /\ (c <= 57)%N.
Proof.
  pose proof (to_uint_normal p) as Hn.
  pose proof (DecimalPos.Unsigned.to_uint_nonzero p) as Hz.
  pose proof (DecimalPos.Unsigned.to_uint_nonnil p) as Hnil.
  destruct (Pos.to_uint p) as [|d|d|d|d|d|d|d|d|d|d] eqn:E;
    [contradiction | | | | | | | | | |];
    try (simpl; eexists _, _; split; [reflexivity | split; lia]).
  exfalso. apply Hz. apply unorm_D0 in Hn. now subst d.
Qed.

Lemma numToString_positive (y : Z) :
  (1 <= y)%Z ->
  exists c r, numToString y = c :: r /\ (48 < c)%N.
Proof.
  intros Hy. destruct y as [|p|p]; try lia.
  unfold numToString. simpl.
  destruct (to_uint_head p) as (c & r & -> & Hc & _). eauto.
Qed.

Lemma uint_chars_head (d : Decimal.uint) :
  match uint_chars d with
  | [] => True
  | c :: _ => (48 <= c)%N /\ (c <= 57)%N
  end.
Proof. destruct d; simpl; auto; lia. Qed.

(** A number never reads "All". *)
Lemma numToString_head (z : Z) :
  match numToString z with
  | [] => True
  | c :: _ => c <> 65%N
  end.
Proof.
  unfold numToString. destruct (Z.to_int z) as [d|d].
  - pose proof (uint_chars_head d) as H.
    destruct (uint_chars d); [exact I | lia].
  - lia.
Qed.

Lemma numToString_not_All (z : Z) : numToString z <> All.
Proof.
  pose proof (numToString_head z) as H. intros E. rewrite E in H.
  simpl in H. now apply H.
Qed.

Lemma padStart2_not_All (s : jsstring) :
  match s with [] => True | c :: _ => c <> 65%N end ->
  padStart2 s <> All.
Proof.
  intros H. unfold padStart2.
  destruct s as [|c [|d s]]; simpl; try discriminate.
  intros E. injection E as E _. now apply H.
Qed.

(* ================================================================== *)
(** * Month buckets *)
(* ================================================================== *)

Section MonthBuckets.

Context {env : DateEnv}.

Lemma unparseable_month (v : jsstring) :
  dateOf v = None ->
  formatMonth v = js "Unknown Month" /\ monthSortKey v = js "0000-00".
Proof.
  intros H. unfold formatMonth, monthSortKey. rewrite H.
  destruct v; split; reflexivity.
Qed.

(** One turn of the loop, by cases on the label being new. *)
Lemma addToMonth_eq (m : jsmap MonthEntry) (item : Item) :
  addToMonth m item
  = match map_get (formatMonth (receivedDateTime item)) m with
    | Some b =>
        map_set (formatMonth (receivedDateTime item))
          {| sortKey := sortKey b; items := items b ++ [item] |} m
    | None =>
        m ++ [(formatMonth (receivedDateTime item),
               {| sortKey := monthSortKey (receivedDateTime item);
                  items := [item] |})]
    end.
Proof.
  unfold addToMonth, map_has.
  destruct (map_get (formatMonth (receivedDateTime item)) m) as [b|] eqn:E.
  - rewrite E. reflexivity.
  - rewrite map_get_set_same. simpl. rewrite map_set_set.
    now apply map_set_absent.
Qed.

Lemma bucketsOf_step (done : list Item) (m : jsmap MonthEntry) (item : Item) :
  bucketsOf done m -> bucketsOf (done ++ [item]) (addToMonth m item).
Proof.
  intros (HN & Hb & Hr). rewrite addToMonth_eq.
  set (label := formatMonth (receivedDateTime item)).
  destruct (map_get label m) as [b|] eqn:E.
  - pose proof (map_get_In _ _ E) as Hin.
    destruct (Hb _ _ Hin) as (Hitems & r0 & Hr0 & Hkey).
    split; [now apply map_set_NoDup|]. split.
    + intros l e He. apply In_map_set in He as [[-> ->]|He].
      * simpl. split.
        -- intros r Hin'. apply in_app_or in Hin' as [Hin'|[<-|[]]].
           ++ destruct (Hitems _ Hin'). split; [apply in_or_app|]; auto.
           ++ split; [apply in_or_app; right; now left | reflexivity].
        -- exists r0. split; [apply in_or_app; now left | exact Hkey].
      * destruct (Hb _ _ He) as (Hi & r1 & Hr1 & Hk1). split.
        -- intros r Hin'. destruct (Hi _ Hin').
           split; [apply in_or_app|]; auto.
        -- eauto.
    + intros r Hin'. apply in_app_or in Hin' as [Hin'|[<-|[]]].
      * destruct (Hr _ Hin') as (e & He & Hre).
        destruct (list_eq_dec N.eq_dec (formatMonth (receivedDateTime r)) label)
          as [Heq|Hne].
        -- rewrite Heq in *.
           rewrite (In_map_get _ _ _ HN He) in E. injection E as ->.
           eexists. split.
           ++ apply map_get_In. apply map_get_set_same.
           ++ simpl. apply in_or_app. now left.
        -- exists e. split; [now apply In_map_set_other | exact Hre].
      * eexists. split.
        -- apply map_get_In. apply map_get_set_same.
        -- simpl. apply in_or_app. right. now left.
  - split; [|split].
    + rewrite map_app. simpl.
      apply Permutation_NoDup with (l := label :: map fst m).
      * apply Permutation_cons_append.
      * constructor; [now apply map_get_None | exact HN].
    + intros l e He. apply in_app_or in He as [He|[[= <- <-]|[]]].
      * destruct (Hb _ _ He) as (Hi & r1 & Hr1 & Hk1). split.
        -- intros r Hin'. destruct (Hi _ Hin').
           split; [apply in_or_app|]; auto.
        -- eauto.
      * simpl. split.
        -- intros r [<-|[]]. split; [apply in_or_app; right; now left|].
           reflexivity.
        -- exists item. split; [now left | reflexivity].
    + intros r Hin'. apply in_app_or in Hin' as [Hin'|[<-|[]]].
      * destruct (Hr _ Hin') as (e & He & Hre).
        exists e. split; [apply in_or_app; now left | exact Hre].
      * eexists. split; [apply in_or_app; right; now left|].
        simpl. now left.
Qed.

Lemma bucketsOf_fold (l done : list Item) (m : jsmap MonthEntry) :
  bucketsOf done m -> bucketsOf (done ++ l) (fold_left addToMonth l m).
Proof.
  revert done m. induction l as [|x l IH]; intros done m H; simpl.
  - now rewrite List.app_nil_r.
  - replace (done ++ x :: l) with ((done ++ [x]) ++ l)
      by (now rewrite <- List.app_assoc).
    apply IH. now apply bucketsOf_step.
Qed.

Lemma bucketsOf_monthBuckets (filtered : list Item) :
  bucketsOf filtered (monthBuckets filtered).
Proof.
  apply (@bucketsOf_fold filtered [] []).
  split; [constructor|]. split; [intros ? ? []|intros ? []].
Qed.

Lemma sortedBuckets_sorted (filtered : list Item) :
  StronglySorted keyNotBelow (sortedBuckets filtered).
Proof.
  unfold sortedBuckets.
  apply js_sort_sorted with (P := fun _ => True).
  - intros x y _ _. unfold compareBuckets, keyNotBelow.
    destruct (str_ltb (sortKey (snd x)) (sortKey (snd y))); [lia | auto].
  - intros x y _ _. unfold compareBuckets, keyNotBelow.
    destruct (str_ltb (sortKey (snd x)) (sortKey (snd y))) eqn:E; [|lia].
    intros _. now apply str_ltb_asym.
  - intros x y z _ _ _. unfold keyNotBelow. apply str_geb_trans.
  - apply Forall_forall. auto.
Qed.

(** The sentinel key is below the key of any date of year 1 or later. *)
Lemma sentinel_below (v : jsstring) (t : Z) :
  dateOf v = Some t -> (1 <= getFullYear t)%Z ->
  str_ltb (js "0000-00") (monthSortKey v) = true.
Proof.
  intros Hv Hy. unfold monthSortKey. rewrite Hv. unfold yearString.
  destruct (numToString_positive Hy) as (c & r & -> & Hc).
  simpl. destruct (N.ltb_spec 48 c); [reflexivity | lia].
Qed.

End MonthBuckets.

Section GroupingOrder.

Context {env : DateEnv}.

(** C3, amended.  Every record lies in the bucket labelled with
    [formatMonth] of its timestamp, and the sort key of a bucket is
    [monthSortKey] of one of its records; a timestamp that does not parse
    (the empty one included) gives the label "Unknown Month" and the key
    "0000-00"; the buckets are emitted sorted by sort key, descending in
    the order of strings, and [grouped] keeps that order; and a bucket
    with the key "0000-00" comes after every bucket whose key is that of
    a parseable date of local year 1 or later. *)
Theorem month_buckets_order (filtered : list Item) :
  (forall v, dateOf v = None ->
             formatMonth v = js "Unknown Month"
             /\ monthSortKey v = js "0000-00")
  /\ (forall r, In r filtered ->
        exists e, In (formatMonth (receivedDateTime r), e)
                     (sortedBuckets filtered)
                  /\ In r (items e))
  /\ (forall label e, In (label, e) (sortedBuckets filtered) ->
        exists r0, In r0 (items e)
                   /\ formatMonth (receivedDateTime r0) = label
                   /\ sortKey e = monthSortKey (receivedDateTime r0))
  /\ StronglySorted keyNotBelow (sortedBuckets filtered)
  /\ map monthLabel (grouped filtered) = map fst (sortedBuckets filtered)
  /\ (forall bu br,
        In bu (sortedBuckets filtered) ->
        In br (sortedBuckets filtered) ->
        sortKey (snd bu) = js "0000-00" ->
        (exists v t, dateOf v = Some t /\ (1 <= getFullYear t)%Z
                     /\ sortKey (snd br) = monthSortKey v) ->
        before br bu (sortedBuckets filtered)).
Proof.
  destruct (bucketsOf_monthBuckets filtered) as (HN & Hb & Hr).
  split; [exact unparseable_month|].
  split; [|split; [|split; [|split]]].
  - intros r Hin. destruct (Hr _ Hin) as (e & He & Hre).
    exists e. split; [|exact Hre].
    unfold sortedBuckets. now apply js_sort_In.
  - intros label e He. unfold sortedBuckets in He. apply js_sort_In in He.
    destruct (Hb _ _ He) as (Hi & r0 & Hr0 & Hk).
    exists r0. destruct (Hi _ Hr0). auto.
  - apply sortedBuckets_sorted.
  - unfold grouped. rewrite map_map. reflexivity.
  - intros bu br Hbu Hbr Hkey (v & t & Hv & Hy & Hk).
    apply sorted_before with (R := keyNotBelow); auto.
    + apply sortedBuckets_sorted.
    + unfold keyNotBelow. apply str_ltb_irrefl.
    + unfold keyNotBelow. rewrite Hkey, Hk.
      rewrite (sentinel_below _ Hv Hy). discriminate.
Qed.

End GroupingOrder.

(** C3, as stated, fails: the year is written without padding and keys are
    compared as strings, so the key "0-06" of a date in year 0 is below
    "0000-00", and the "Unknown Month" bucket comes first. *)
Lemma unknown_month_before_year_zero :
  let filtered :=
    [UTC.mail "1" "" "AcmeCo" "A";
     UTC.mail "2" "0000-06-15T12:00:00Z" "AcmeCo" "A"] in
  dateOf (js "0000-06-15T12:00:00Z") = Some (-62152833600000)%Z
  /\ monthSortKey (js "0000-06-15T12:00:00Z") = js "0-06"
  /\ map (fun b => sortKey (snd b)) (sortedBuckets filtered)
     = [js "0000-00"; js "0-06"]
  /\ exists real,
       map monthLabel (grouped filtered) = [js "Unknown Month"; real]
       /\ real = formatMonth (js "0000-06-15T12:00:00Z").
Proof.
  vm_compute. repeat split. eexists. split; reflexivity.
Qed.

(** The amended C3 on a record without timestamp and one of March 2024. *)
Lemma month_buckets_order_witness :
  let r1 := UTC.mail "1" "" "AcmeCo" "A" in
  let r2 := UTC.mail "2" "2024-03-05T10:00:00Z" "AcmeCo" "A" in
  before
    (js "March 2024", {| sortKey := js "2024-03"; items := [r2] |})
    (js "Unknown Month", {| sortKey := js "0000-00"; items := [r1] |})
    (sortedBuckets [r1; r2]).
Proof.
  intros r1 r2.
  apply (proj2 (proj2 (proj2 (proj2 (proj2 (month_buckets_order [r1; r2])))))).
  - vm_compute. right. left. reflexivity.
  - vm_compute. left. reflexivity.
  - reflexivity.
  - exists (js "2024-03-05T10:00:00Z"), 1709632800000%Z.
    split; [vm_compute; reflexivity|].
    split; [vm_compute; discriminate | vm_compute; reflexivity].
Defined.

(* ================================================================== *)
(** * Company deduplication *)
(* ================================================================== *)

Lemma In_map_set_strong {V : Type} (k : jsstring) (v : V) (m : jsmap V)
    (k' : jsstring) (v' : V) :
  NoDup (map fst m) ->
  In (k', v') (map_set k v m) ->
  (k' = k /\ v' = v) \/ (k' <> k /\ In (k', v') m).
Proof.
  intros HN Hin.
  destruct (list_eq_dec N.eq_dec k' k) as [->|Hne].
  - left. split; [reflexivity|].
    apply (In_map_get _ _ _ (map_set_NoDup k v m HN)) in Hin.
    rewrite map_get_set_same in Hin. congruence.
  - right. split; [exact Hne|].
    apply In_map_set in Hin as [[? _]|?]; [contradiction | assumption].
Qed.

Section CompanyDedup.

Context {env : DateEnv}.

Lemma time_gtb_timed (a b : Item) :
  timed a -> timed b ->
  time_gtb (dateOrEpoch (receivedDateTime b))
           (dateOrEpoch (receivedDateTime a))
  = (timeValue b >? timeValue a)%Z.
Proof.
  unfold timed, timeValue, timeOf. intros Ha Hb.
  destruct (dateOrEpoch (receivedDateTime a)); [|contradiction].
  destruct (dateOrEpoch (receivedDateTime b)); [|contradiction].
  reflexivity.
Qed.

Lemma companiesOf_step (done : list Item) (m : jsmap Item) (item : Item) :
  Forall timed done -> timed item ->
  companiesOf done m -> companiesOf (done ++ [item]) (companyStep m item).
Proof.
  intros Hdone Hitem (HN & Hb & Hc). unfold companyStep.
  set (k := companyKey item).
  assert (Hold : forall k' s, k' <> k -> In (k', s) m ->
            companyKey s = k'
            /\ exists l1 l2,
                 done ++ [item] = l1 ++ s :: l2
                 /\ (forall r, In r l1 -> companyKey r = k' ->
                               (timeValue r < timeValue s)%Z)
                 /\ (forall r, In r l2 -> companyKey r = k' ->
                               (timeValue r <= timeValue s)%Z)).
  { intros k' s Hne Hin.
    destruct (Hb _ _ Hin) as (Hk & l1 & l2 & -> & H1 & H2).
    split; [exact Hk|]. exists l1, (l2 ++ [item]).
    split; [now rewrite <- List.app_assoc|]. split; [exact H1|].
    intros r Hr Hkr. apply in_app_or in Hr as [Hr|[<-|[]]]; [auto|].
    fold k in Hkr. congruence. }
  destruct (map_get k m) as [existing|] eqn:E.
  - pose proof (map_get_In _ _ E) as Hex.
    destruct (Hb _ _ Hex) as (Hk & l1 & l2 & Hsplit & H1 & H2).
    assert (Htex : timed existing).
    { rewrite Forall_forall in Hdone. apply Hdone. rewrite Hsplit.
      apply in_or_app. right. now left. }
    rewrite (time_gtb_timed Htex Hitem).
    destruct (Z.gtb_spec (timeValue item) (timeValue existing)) as [Hgt|Hle].
    + split; [now apply map_set_NoDup|]. split.
      * intros k' s Hin.
        apply In_map_set_strong in Hin; [|exact HN].
        destruct Hin as [[-> ->]|[Hne Hin]]; [|now apply Hold].
        split; [reflexivity|]. exists done, [].
        split; [reflexivity|]. split; [|intros ? []].
        intros r Hr Hkr. rewrite Hsplit in Hr.
        apply in_app_or in Hr as [Hr|[<-|Hr]].
        -- specialize (H1 _ Hr Hkr). lia.
        -- lia.
        -- specialize (H2 _ Hr Hkr). lia.
      * intros r Hr. apply in_app_or in Hr as [Hr|[<-|[]]].
        -- destruct (Hc _ Hr) as (s & Hs).
           destruct (list_eq_dec N.eq_dec (companyKey r) k) as [->|Hne].
           ++ exists item. apply map_get_In, map_get_set_same.
           ++ exists s. now apply In_map_set_other.
        -- exists item. apply map_get_In, map_get_set_same.
    + split; [exact HN|]. split.
      * intros k' s Hin.
        destruct (list_eq_dec N.eq_dec k' k) as [->|Hne]; [|now apply Hold].
        apply (In_map_get _ _ _ HN) in Hin. rewrite E in Hin.
        injection Hin as <-.
        split; [exact Hk|]. exists l1, (l2 ++ [item]).
        split; [rewrite Hsplit; now rewrite <- List.app_assoc|].
        split; [exact H1|].
        intros r Hr Hkr. apply in_app_or in Hr as [Hr|[<-|[]]]; [auto | lia].
      * intros r Hr. apply in_app_or in Hr as [Hr|[<-|[]]]; [auto|].
        exists existing. exact Hex.
  - assert (Hfresh : forall s, ~ In (k, s) m).
    { intros s Hin. apply (map_get_None _ _ E).
      apply (in_map fst) in Hin. exact Hin. }
    rewrite map_set_absent by exact E.
    split; [|split].
    + rewrite map_app. simpl.
      apply Permutation_NoDup with (l := k :: map fst m).
      * apply Permutation_cons_append.
      * constructor; [now apply map_get_None | exact HN].
    + intros k' s Hin. apply in_app_or in Hin as [Hin|[[= <- <-]|[]]].
      * apply Hold; [|exact Hin]. intros ->. now apply (Hfresh s).
      * split; [reflexivity|]. exists done, [].
        split; [reflexivity|]. split; [|intros ? []].
        intros r Hr Hkr. exfalso.
        destruct (Hc _ Hr) as (s & Hs). rewrite Hkr in Hs.
        now apply (Hfresh s).
    + intros r Hr. apply in_app_or in Hr as [Hr|[<-|[]]].
      * destruct (Hc _ Hr) as (s & Hs). exists s.
        apply in_or_app. now left.
      * exists item. apply in_or_app. right. now left.
Qed.

Lemma companiesOf_fold (l done : list Item) (m : jsmap Item) :
  Forall timed (done ++ l) ->
  companiesOf done m ->
  companiesOf (done ++ l) (fold_left companyStep l m).
Proof.
  revert done m. induction l as [|x l IH]; intros done m HT H; simpl.
  - now rewrite List.app_nil_r.
  - replace (done ++ x :: l) with ((done ++ [x]) ++ l) in *
      by (now rewrite <- List.app_assoc).
    apply IH; [exact HT|].
    apply Forall_app in HT as [HT _]. apply Forall_app in HT as [HT Hx].
    inversion Hx; subst. now apply companiesOf_step.
Qed.

Lemma companiesOf_all (items : list Item) :
  Forall timed items ->
  companiesOf items (fold_left companyStep items []).
Proof.
  intros HT. apply (@companiesOf_fold items [] []); [exact HT|].
  split; [constructor|]. split; [intros ? ? []|intros ? []].
Qed.

Lemma latestPerCompany_In (items : list Item) (s : Item) :
  In s (latestPerCompany items)
  <-> exists k, In (k, s) (fold_left companyStep items []).
Proof.
  unfold latestPerCompany. rewrite js_sort_In, in_map_iff. split.
  - intros ([k s'] & <- & Hin). now exists k.
  - intros (k & Hin). now exists (k, s).
Qed.

Lemma compareByDate_timed (a b : Item) :
  timed a -> timed b -> compareByDate a b = (timeValue b - timeValue a)%Z.
Proof.
  unfold timed, timeValue, timeOf, compareByDate. intros Ha Hb.
  destruct (dateOrEpoch (receivedDateTime a)); [|contradiction].
  destruct (dateOrEpoch (receivedDateTime b)); [|contradiction].
  reflexivity.
Qed.

(** Two records of one company, in either order. *)
Lemma latestPerCompany_pair (r1 r2 : Item) :
  companyKey r1 = companyKey r2 ->
  latestPerCompany [r1; r2]
  = if time_gtb (timeOf r2) (timeOf r1) then [r2] else [r1].
Proof.
  intros Hk. unfold latestPerCompany. cbn [fold_left].
  unfold companyStep at 2. cbn [map_get map_set].
  unfold companyStep. rewrite <- Hk. cbn [map_get].
  rewrite str_eqb_refl. unfold timeOf.
  destruct (time_gtb (dateOrEpoch (receivedDateTime r2))
                     (dateOrEpoch (receivedDateTime r1))).
  - cbn [map_set]. rewrite str_eqb_refl. reflexivity.
  - reflexivity.
Qed.

End CompanyDedup.

Section CompanyDedupClaims.

Context {env : DateEnv}.

(** C5, amended.  Among the records of one company with equal time
    values the earlier-encountered one is kept: every record of the view
    has a place in the group before which the records of its company are
    strictly older, and after which none is more recent; of two records
    of one company with the same time value, the first is the one left. *)
Theorem first_record_wins_ties (group : list Item) :
  Forall timed group ->
  (forall s, In s (latestPerCompany group) ->
     exists l1 l2,
       group = l1 ++ s :: l2
       /\ (forall r, In r l1 -> companyKey r = companyKey s ->
                     (timeValue r < timeValue s)%Z)
       /\ (forall r, In r l2 -> companyKey r = companyKey s ->
                     (timeValue r <= timeValue s)%Z))
  /\ (forall r1 r2,
        group = [r1; r2] ->
        companyKey r1 = companyKey r2 ->
        timeValue r1 = timeValue r2 ->
        latestPerCompany group = [r1]).
Proof.
  intros HT. split.
  - destruct (companiesOf_all HT) as (HN & Hb & Hc).
    intros s Hs. apply latestPerCompany_In in Hs as (k & Hin).
    destruct (Hb _ _ Hin) as (<- & l1 & l2 & Hsplit & H1 & H2).
    exists l1, l2. auto.
  - intros r1 r2 -> Hk Heq.
    inversion HT as [|? ? T1 HT']; subst.
    inversion HT' as [|? ? T2 _]; subst.
    rewrite (latestPerCompany_pair _ _ Hk). unfold timeOf.
    rewrite (time_gtb_timed T1 T2).
    destruct (Z.gtb_spec (timeValue r2) (timeValue r1)); [lia|reflexivity].
Qed.

End CompanyDedupClaims.

(** C5, as stated, fails: of two records of one company with the same
    timestamp, the later-encountered one is dropped. *)
Lemma later_record_loses_tie :
  let a := UTC.mail "1" "2024-03-05T10:00:00Z" "AcmeCo" "A" in
  let b := UTC.mail "2" "2024-03-05T10:00:00Z" "AcmeCo" "B" in
  companyKey a = companyKey b
  /\ timeOf a = timeOf b
  /\ a <> b
  /\ latestPerCompany [a; b] = [a].
Proof.
  vm_compute. repeat split. discriminate.
Qed.

(** The amended C5 on two records with the same timestamp. *)
Lemma first_record_wins_ties_witness :
  let a := UTC.mail "1" "2024-03-05T10:00:00Z" "AcmeCo" "A" in
  let b := UTC.mail "2" "2024-03-05T10:00:00Z" "AcmeCo" "B" in
  latestPerCompany [a; b] = [a].
Proof.
  intros a b.
  assert (HT : Forall timed [a; b])
    by (repeat constructor; vm_compute; discriminate).
  apply (proj2 (first_record_wins_ties HT) a b); reflexivity.
Defined.

(* ================================================================== *)
(** * Support statistics *)
(* ================================================================== *)

Lemma set_add_In (x : jsstring) (s : list jsstring) : In x (set_add x s).
Proof.
  unfold set_add. destruct (existsb (str_eqb x) s) eqn:E.
  - apply existsb_exists in E as (y & Hy & Heq).
    apply str_eqb_eq in Heq. now subst.
  - apply in_or_app. right. now left.
Qed.

Lemma set_add_keeps (x y : jsstring) (s : list jsstring) :
  In y s -> In y (set_add x s).
Proof.
  intros H. unfold set_add. destruct (existsb (str_eqb x) s); [exact H|].
  apply in_or_app. now left.
Qed.

Section SupportStatistics.

Context {env : DateEnv}.
Variables supportYear supportMonth : jsstring.

(** A non-empty timestamp that does not parse takes no part in the
    filtering. *)
Lemma unparseable_passes (r : Item) :
  receivedDateTime r <> [] -> dateOf (receivedDateTime r) = None ->
  passesFilter supportYear supportMonth r = true.
Proof.
  unfold passesFilter, dateOrEpoch, dateOf.
  destruct (receivedDateTime r); [contradiction|].
  now intros _ ->.
Qed.

Lemma countOf_snoc (who : jsstring) (done : list Item) (item : Item) :
  countOf supportYear supportMonth who (done ++ [item])
  = (countOf supportYear supportMonth who done
     + if passesFilter supportYear supportMonth item
          && str_eqb (supportName item) who then 1 else 0)%Z.
Proof.
  unfold countOf. rewrite filter_app, length_app. simpl.
  destruct (passesFilter supportYear supportMonth item
            && str_eqb (supportName item) who); simpl; lia.
Qed.

Lemma countOf_nonneg (who : jsstring) (l : list Item) :
  (0 <= countOf supportYear supportMonth who l)%Z.
Proof. unfold countOf. lia. Qed.

Lemma countsOf_step (done : list Item) (m : jsmap Z) (item : Item) :
  countsOf supportYear supportMonth done m ->
  countsOf supportYear supportMonth (done ++ [item])
    (countStep supportYear supportMonth m item).
Proof.
  intros H who. rewrite countOf_snoc. unfold countStep.
  pose proof (countOf_nonneg who done) as Hw.
  destruct (passesFilter supportYear supportMonth item) eqn:Hp; simpl.
  - destruct (str_eqb (supportName item) who) eqn:E.
    + apply str_eqb_eq in E. subst who.
      rewrite map_get_set_same, (H (supportName item)).
      destruct (Z.eqb_spec (countOf supportYear supportMonth
                              (supportName item) done) 0) as [->|Hne].
      * reflexivity.
      * destruct (Z.eqb_spec (countOf supportYear supportMonth
                                (supportName item) done + 1) 0); [lia|].
        reflexivity.
    + apply str_eqb_neq in E.
      rewrite map_get_set_other by congruence.
      rewrite Z.add_0_r. apply H.
  - rewrite Z.add_0_r. apply H.
Qed.

Lemma countsOf_fold (l done : list Item) (m : jsmap Z) :
  countsOf supportYear supportMonth done m ->
  countsOf supportYear supportMonth (done ++ l)
    (fold_left (countStep supportYear supportMonth) l m).
Proof.
  revert done m. induction l as [|x l IH]; intros done m H; simpl.
  - now rewrite List.app_nil_r.
  - replace (done ++ x :: l) with ((done ++ [x]) ++ l)
      by (now rewrite <- List.app_assoc).
    apply IH. now apply countsOf_step.
Qed.

Lemma countsOf_all (filtered : list Item) :
  countsOf supportYear supportMonth filtered
    (countsMap filtered supportYear supportMonth).
Proof.
  apply (@countsOf_fold filtered [] []). intros who. reflexivity.
Qed.

Lemma countOf_member (r : Item) (l : list Item) :
  In r l -> passesFilter supportYear supportMonth r = true ->
  (1 <= countOf supportYear supportMonth (supportName r) l)%Z.
Proof.
  intros Hin Hp. unfold countOf.
  assert (Hf : In r (filter
                       (fun x => passesFilter supportYear supportMonth x
                                 && str_eqb (supportName x) (supportName r)) l)).
  { apply filter_In. split; [exact Hin|].
    now rewrite Hp, str_eqb_refl. }
  destruct (filter _ l); [destruct Hf | simpl; lia].
Qed.

Lemma candidatesOf_step (done : list Item) (m : jsmap (list jsstring))
    (item : Item) :
  candidatesOf supportYear supportMonth done m ->
  candidatesOf supportYear supportMonth (done ++ [item])
    (candidateStep supportYear supportMonth m item).
Proof.
  intros H r Hr Hp. unfold candidateStep, map_has.
  apply in_app_or in Hr as [Hr|[<-|[]]].
  - destruct (H r Hr Hp) as (s & Hs & Hc).
    destruct (passesFilter supportYear supportMonth item); [|eauto].
    destruct (list_eq_dec N.eq_dec (supportName r) (supportName item))
      as [Heq|Hne].
    + rewrite Heq in *. rewrite Hs. rewrite Hs.
      rewrite map_get_set_same. eexists. split; [reflexivity|].
      now apply set_add_keeps.
    + destruct (map_get (supportName item) m) as [s0|] eqn:E.
      * rewrite E. rewrite map_get_set_other by exact Hne. eauto.
      * rewrite map_get_set_same.
        rewrite !map_get_set_other by exact Hne. eauto.
  - rewrite Hp.
    destruct (map_get (supportName item) m) as [s0|] eqn:E.
    + rewrite E, map_get_set_same. eexists. split; [reflexivity|].
      apply set_add_In.
    + rewrite !map_get_set_same. eexists. split; [reflexivity|].
      apply set_add_In.
Qed.

Lemma candidatesOf_fold (l done : list Item) (m : jsmap (list jsstring)) :
  candidatesOf supportYear supportMonth done m ->
  candidatesOf supportYear supportMonth (done ++ l)
    (fold_left (candidateStep supportYear supportMonth) l m).
Proof.
  revert done m. induction l as [|x l IH]; intros done m H; simpl.
  - now rewrite List.app_nil_r.
  - replace (done ++ x :: l) with ((done ++ [x]) ++ l)
      by (now rewrite <- List.app_assoc).
    apply IH. now apply candidatesOf_step.
Qed.

(** C6, amended.  Whatever the year and month filters, a record whose
    timestamp is not empty and does not parse passes the filter: the row
    of its support person exists, counts every record of that person
    that passes the filter, this one included, and its candidate is in
    the set of that person. *)
Theorem unparseable_always_counted (filtered : list Item) (r : Item) :
  In r filtered ->
  receivedDateTime r <> [] ->
  dateOf (receivedDateTime r) = None ->
  passesFilter supportYear supportMonth r = true
  /\ (exists n,
        In (supportName r, n) (supportCounts filtered supportYear supportMonth)
        /\ n = countOf supportYear supportMonth (supportName r) filtered
        /\ (1 <= n)%Z)
  /\ (exists s,
        map_get (supportName r)
          (supportCandidates filtered supportYear supportMonth) = Some s
        /\ In (candidateName r) s).
Proof.
  intros Hin Hne Hnone.
  pose proof (unparseable_passes r Hne Hnone) as Hp.
  split; [exact Hp|]. split.
  - pose proof (countOf_member r filtered Hin Hp) as Hc.
    exists (countOf supportYear supportMonth (supportName r) filtered).
    split; [|split; [reflexivity | exact Hc]].
    unfold supportCounts. apply js_sort_In. apply map_get_In.
    rewrite (countsOf_all filtered (supportName r)).
    destruct (Z.eqb_spec (countOf supportYear supportMonth
                            (supportName r) filtered) 0); [lia|reflexivity].
  - apply (@candidatesOf_fold filtered [] []); auto.
    intros ? [].
Qed.

End SupportStatistics.

(** C6, as stated, fails: the empty timestamp does not parse, but the
    aggregator reads it as the epoch, January 1970, and the year filter
    "2024" excludes the record. *)
Lemma empty_timestamp_filtered_out :
  let r := UTC.mail "1" "" "AcmeCo" "A" in
  dateOf (receivedDateTime r) = None
  /\ passesFilter (js "2024") All r = false
  /\ supportCounts [r] (js "2024") All = []
  /\ supportCandidates [r] (js "2024") All = [].
Proof. vm_compute. repeat split. Qed.

(** The amended C6 on a record with a garbled timestamp, under the filter
    March 2024. *)
Lemma unparseable_always_counted_witness :
  let r := UTC.mail "1" "yesterday" "AcmeCo" "A" in
  let others :=
    [UTC.mail "2" "2024-03-05T10:00:00Z" "AcmeCo" "A";
     UTC.mail "3" "2023-11-20T08:00:00Z" "Initech" "A"] in
  exists n,
    In (js "A", n) (supportCounts (others ++ [r]) (js "2024") (js "03"))
    /\ n = 2%Z.
Proof.
  intros r others.
  destruct (@unparseable_always_counted UTC.env (js "2024") (js "03")
              (others ++ [r]) r) as (_ & (n & Hin & Hn & _) & _).
  - simpl. auto.
  - discriminate.
  - reflexivity.
  - exists n. split; [exact Hin|]. rewrite Hn. vm_compute. reflexivity.
Defined.

(* ================================================================== *)
(** * Seeding of the year and month filters *)
(* ================================================================== *)

Section FilterSeeding.

Context {env : DateEnv}.

Lemma latestStep_keeps (l : list Item) (t : Z) :
  fold_left latestStep l (Some t) <> None.
Proof.
  revert t. induction l as [|x l IH]; intros t; simpl; [discriminate|].
  unfold latestStep at 2.
  destruct (dateOrEpoch (receivedDateTime x)) as [d|]; [|apply IH].
  destruct (d >? t)%Z; apply IH.
Qed.

Lemma latest_of_timed (l : list Item) (acc : option Z) :
  (exists r, In r l /\ timed r) -> fold_left latestStep l acc <> None.
Proof.
  revert acc. induction l as [|x l IH]; intros acc (r & Hin & Ht);
    [destruct Hin|].
  simpl. destruct Hin as [->|Hin].
  - unfold latestStep at 2. unfold timed, timeOf in Ht.
    destruct (dateOrEpoch (receivedDateTime r)) as [d|]; [|contradiction].
    destruct acc as [a|]; [destruct (d >? a)%Z|]; apply latestStep_keeps.
  - apply IH. eauto.
Qed.

Lemma latest_of_untimed (l : list Item) :
  (forall r, In r l -> ~ timed r) -> fold_left latestStep l None = None.
Proof.
  induction l as [|x l IH]; intros H; simpl; [reflexivity|].
  unfold latestStep at 2.
  destruct (dateOrEpoch (receivedDateTime x)) as [d|] eqn:E.
  - exfalso. apply (H x); [now left|]. unfold timed, timeOf. now rewrite E.
  - apply IH. intros r Hr. apply H. now right.
Qed.

Lemma yearString_not_All (t : Z) : yearString t <> All.
Proof. apply numToString_not_All. Qed.

Lemma monthString_not_All (t : Z) : monthString t <> All.
Proof. apply padStart2_not_All, numToString_head. Qed.

Lemma latestPeriod_of_timed (filtered : list Item) :
  (exists r, In r filtered /\ timed r) ->
  year (latestPeriod filtered) <> All /\ month (latestPeriod filtered) <> All.
Proof.
  intros H. unfold latestPeriod.
  pose proof (@latest_of_timed filtered None H) as Hl.
  destruct (fold_left latestStep filtered None) as [t|]; [|contradiction].
  simpl. split; [apply yearString_not_All | apply monthString_not_All].
Qed.

(** What the effect does after an action, for every list and every state.
    If some record has an empty or parseable timestamp, the latest period
    is a year and a month, and after every user action and the effect that
    follows it neither filter is "All": an "All" chosen for the year (the
    month) is replaced by the year (the month) of the latest period.  A
    filter set to "All" stays "All" only when no record has such a
    timestamp: then the effect changes nothing. *)
Lemma effect_after_action (filtered : list Item) (st : Filters) :
  ((exists r, In r filtered /\ timed r) ->
     supportYear (step filtered st (SetSupportYear All))
     = year (latestPeriod filtered)
     /\ supportMonth (step filtered st (SetSupportMonth All))
        = month (latestPeriod filtered)
     /\ forall a,
          supportYear (step filtered st a) <> All
          /\ supportMonth (step filtered st a) <> All)
  /\ ((forall r, In r filtered -> ~ timed r) ->
      forall a, step filtered st a = apply_action a st).
Proof.
  split.
  - intros H. destruct (latestPeriod_of_timed filtered H) as [Hy Hm].
    apply str_eqb_neq in Hy, Hm.
    assert (Heff : forall s,
              supportYear (seedEffect (latestPeriod filtered) s) <> All
              /\ supportMonth (seedEffect (latestPeriod filtered) s) <> All).
    { intros s. unfold seedEffect. simpl. rewrite Hy, Hm. simpl.
      rewrite !andb_true_r. split.
      - destruct (str_eqb (supportYear s) All) eqn:E.
        + now apply str_eqb_neq.
        + now apply str_eqb_neq.
      - destruct (str_eqb (supportMonth s) All) eqn:E.
        + now apply str_eqb_neq.
        + now apply str_eqb_neq. }
    split; [|split].
    + unfold step, seedEffect. simpl. now rewrite Hy.
    + unfold step, seedEffect. simpl. now rewrite Hm.
    + intros a. apply Heff.
  - intros H a. unfold step, latestPeriod.
    rewrite (latest_of_untimed filtered H). unfold seedEffect. simpl.
    rewrite !andb_false_r. now destruct (apply_action a st).
Qed.

End FilterSeeding.

(** C9.  The code at one record of March 2024, with the filters at
    2024 / 03: the handler of the "All Years" tab sets the year filter to
    "All", and the effect that follows sets it back to 2024, so that the
    choice of "All" does not last. *)
Lemma explicit_All_is_overridden :
  let filtered := [UTC.mail "1" "2024-03-05T10:00:00Z" "AcmeCo" "A"] in
  let st := {| supportYear := js "2024"; supportMonth := js "03" |} in
  apply_action (SetSupportYear All) st
  = {| supportYear := All; supportMonth := js "03" |}
  /\ run_actions filtered st [SetSupportYear All]
     = {| supportYear := js "2024"; supportMonth := js "03" |}.
Proof. vm_compute. split; reflexivity. Qed.

(* ================================================================== *)
(** * Global replacement *)
(* ================================================================== *)

Lemma match_at_nil (p : pattern) (i : nat) :
  consumes (p_regex p) = true -> match_at p i [] = None.
Proof.
  intros Hc. destruct (match_at p i []) as [[cap len]|] eqn:E; [|reflexivity].
  apply match_at_prefix in E as (w & s' & Hs & _ & _ & Hne).
  symmetry in Hs. apply app_eq_nil in Hs as [-> _].
  exfalso. now apply Hne.
Qed.

(** Dropping the rest of a match is skipping it. *)
Lemma replace_skip (p : pattern) (by_ : jsstring) :
  consumes (p_regex p) = true ->
  forall s i n,
    replace_from p by_ i n s = replace_from p by_ (i + n) 0 (skipn n s).
Proof.
  intros Hc. induction s as [|c s IH]; intros i n.
  - destruct n; simpl.
    + now rewrite Nat.add_0_r.
    + now rewrite match_at_nil.
  - destruct n.
    + simpl skipn. now rewrite Nat.add_0_r.
    + cbn [replace_from skipn]. rewrite IH. f_equal. lia.
Qed.

Lemma replace_unfold (p : pattern) (by_ : jsstring) :
  consumes (p_regex p) = true ->
  forall s i,
    replace_from p by_ i 0 s
    = match match_at p i s with
      | Some (_, len) =>
          by_ ++ replace_from p by_ (i + len) 0 (skipn len s)
      | None =>
          match s with
          | [] => []
          | c :: s' => c :: replace_from p by_ (S i) 0 s'
          end
      end.
Proof.
  intros Hc s i. destruct s as [|c s].
  - simpl. now rewrite match_at_nil.
  - cbn [replace_from].
    destruct (match_at p i (c :: s)) as [[cap len]|] eqn:E; [|reflexivity].
    apply match_at_prefix in E as (w & s' & Hs & -> & _ & Hne).
    destruct w as [|x w]; [exfalso; now apply Hne|].
    cbn [length skipn]. rewrite replace_skip by exact Hc.
    f_equal. f_equal. lia.
Qed.

(** Reasoning on a global replacement: the input is read left to right,
    either one code unit is copied where the pattern does not match, or a
    non-empty match [w] is replaced. *)
Lemma replace_ind (p : pattern) (by_ : jsstring)
    (Q : jsstring -> jsstring -> Prop) :
  consumes (p_regex p) = true ->
  (forall i, Q [] (replace_from p by_ i 0 [])) ->
  (forall i c s',
     match_at p i (c :: s') = None ->
     Q s' (replace_from p by_ (S i) 0 s') ->
     Q (c :: s') (c :: replace_from p by_ (S i) 0 s')) ->
  (forall i w s' cap,
     w <> [] ->
     match_at p i (w ++ s') = Some (cap, length w) ->
     Q s' (replace_from p by_ (i + length w) 0 s') ->
     Q (w ++ s') (by_ ++ replace_from p by_ (i + length w) 0 s')) ->
  forall s i, Q s (replace_from p by_ i 0 s).
Proof.
  intros Hc Hnil Hcopy Hmatch s.
  assert (H : forall n s, length s <= n ->
                          forall i, Q s (replace_from p by_ i 0 s)).
  { clear s. induction n as [|n IH]; intros s Hlen i.
    - destruct s; [apply Hnil | simpl in Hlen; lia].
    - rewrite replace_unfold by exact Hc.
      destruct (match_at p i s) as [[cap len]|] eqn:E.
      + pose proof E as E'.
        apply match_at_prefix in E' as (w & s' & -> & -> & _ & Hne).
        rewrite skipn_app, skipn_all, Nat.sub_diag. simpl skipn.
        apply Hmatch with cap; auto.
        apply IH. rewrite length_app in Hlen.
        destruct w; [exfalso; now apply Hne | simpl in Hlen; simpl; lia].
      + destruct s as [|c s'].
        * specialize (Hnil i). simpl in Hnil. now rewrite E in Hnil.
        * apply Hcopy; [exact E|]. apply IH. simpl in Hlen. lia. }
  intros i. apply (H (length s)). lia.
Qed.

(** Where the pattern matches nowhere, nothing is replaced. *)
Lemma replace_no_match (p : pattern) (by_ : jsstring) (s : jsstring) :
  forall i, search_from p i s = None -> replace_from p by_ i 0 s = s.
Proof.
  induction s as [|c s IH]; intros i H; simpl in *.
  - destruct (match_at p i []) as [[cap len]|]; [discriminate|reflexivity].
  - destruct (match_at p i (c :: s)) as [[cap len]|]; [discriminate|].
    now rewrite IH.
Qed.

Lemma replaceAll_no_match (p : pattern) (by_ : jsstring) (s : jsstring) :
  str_match p s = None -> replaceAll p by_ s = s.
Proof. apply replace_no_match. Qed.


(* ================================================================== *)
(** * Tags *)
(* ================================================================== *)

Lemma run_first (icase : bool) (start : nat) (r : regex) :
  forall a k cap pos s,
    firstAtom r = Some a ->
    match s with
    | [] => True
    | c :: _ => atom_matches icase a c = false
    end ->
    run icase start r k cap pos s = None.
Proof.
  induction r; intros a0 k cap pos s Hf Hs; simpl in Hf; try discriminate.
  - injection Hf as ->. simpl. destruct s as [|c s]; [reflexivity|].
    now rewrite Hs.
  - simpl. eapply IHr1; eauto.
  - simpl. eapply IHr; eauto.
Qed.

Lemma run_ends_with (icase : bool) (start : nat) (c : char) (r : regex) :
  endsWith c r = true ->
  forall k cap pos s x,
    run icase start r k cap pos s = Some x ->
    exists w c' s', s = w ++ c' :: s' /\ char_matches icase c c' = true.
Proof.
  induction r as [| a | r1 IH1 r2 IH2 | r1 IH1 r2 IH2 | | r1 IH1 | | |];
    intros He k cap pos s x H; simpl in He; try discriminate.
  - destruct a as [c0| |]; try discriminate.
    apply N.eqb_eq in He. subst c0. simpl in H.
    destruct s as [|c' s]; [discriminate|].
    destruct (char_matches icase c c') eqn:E; [|discriminate].
    exists [], c', s. auto.
  - simpl in H.
    apply run_passes in H as (c1 & w1 & s1 & -> & H & _).
    apply (IH2 He) in H as (w & c' & s' & -> & Hm).
    exists (w1 ++ w), c', s'. split; [now rewrite <- List.app_assoc | exact Hm].
  - apply andb_prop in He as [He1 He2]. simpl in H.
    destruct (run icase start r1 k cap pos s) eqn:E.
    + injection H as ->. eapply IH1; eauto.
    + eapply IH2; eauto.
  - simpl in H. eapply IH1; eauto.
Qed.

Lemma toUpper_inv (c u : char) :
  toUpper c = u -> c = u \/ c = (u + 32)%N.
Proof.
  unfold toUpper, isLower.
  destruct ((97 <=? c) && (c <=? 122))%N eqn:E; intros <-; [right | now left].
  apply andb_prop in E as [E _]. apply N.leb_le in E. lia.
Qed.

(** A character that is not a letter is only matched by itself, under
    either setting of the [i] flag. *)
Lemma char_matches_symbol (icase : bool) (p c : char) :
  isLower p = false -> isUpper p = false ->
  char_matches icase p c = true -> c = p.
Proof.
  intros Hl Hu. unfold char_matches.
  destruct icase; intros H; apply N.eqb_eq in H; [|now symmetry].
  unfold toUpper in H. rewrite Hl in H.
  unfold isLower, isUpper in *.
  destruct ((97 <=? c) && (c <=? 122))%N eqn:E; [|now symmetry].
  apply andb_prop in E as [E1 E2]. apply N.leb_le in E1, E2.
  apply andb_false_iff in Hu as [Hu|Hu]; apply N.leb_gt in Hu; lia.
Qed.

Lemma char_matches_lt (icase : bool) (c : char) :
  char_matches icase 60%N c = true -> c = 60%N.
Proof. now apply char_matches_symbol. Qed.

Lemma char_matches_gt (icase : bool) (c : char) :
  char_matches icase 62%N c = true -> c = 62%N.
Proof. now apply char_matches_symbol. Qed.

(** A match of one of the three patterns starts with "<" followed by
    something other than ">", and has a ">" further on. *)
Lemma tag_match_shape (p : pattern) (i : nat) (s : jsstring) (x : mstate) :
  In p tagPatterns ->
  match_at p i s = Some x ->
  exists c rest, s = 60%N :: c :: rest /\ c <> 62%N /\ In 62%N rest.
Proof.
  intros Hp H.
  assert (Hfirst : firstAtom (p_regex p) = Some (AChar 60%N)).
  { destruct Hp as [<-|[<-|[<-|[]]]]; reflexivity. }
  assert (Hend : endsWith 62%N (p_regex p) = true).
  { destruct Hp as [<-|[<-|[<-|[]]]]; reflexivity. }
  assert (Hgt : forall j rest, match_at p j (60%N :: 62%N :: rest) = None).
  { intros j rest. destruct Hp as [<-|[<-|[<-|[]]]]; reflexivity. }
  assert (Hone : forall j, match_at p j [60%N] = None).
  { intros j. destruct Hp as [<-|[<-|[<-|[]]]]; reflexivity. }
  destruct s as [|c0 s].
  - unfold match_at in H. erewrite run_first in H; eauto. discriminate.
  - assert (Hc0 : c0 = 60%N).
    { destruct (char_matches (p_ignoreCase p) 60%N c0) eqn:E.
      - eapply char_matches_lt; eauto.
      - unfold match_at in H. erewrite run_first in H; eauto. discriminate. }
    subst c0. destruct s as [|c1 rest]; [now rewrite Hone in H|].
    assert (Hc1 : c1 <> 62%N).
    { intros ->. now rewrite Hgt in H. }
    exists c1, rest. split; [reflexivity|]. split; [exact Hc1|].
    destruct x as [cap len]. unfold match_at in H.
    apply (run_ends_with _ _ _ _ Hend) in H as (w & c' & s' & Hs & Hm).
    apply char_matches_gt in Hm. subst c'.
    destruct w as [|w0 [|w1 w]]; simpl in Hs.
    + discriminate.
    + injection Hs as _ Hs. congruence.
    + injection Hs as _ _ ->. apply in_or_app. right. now left.
Qed.

Lemma tagFree_no_match (p : pattern) (s : jsstring) :
  In p tagPatterns -> tagFree s ->
  forall i, search_from p i s = None.
Proof.
  intros Hp. induction s as [|c s IH]; intros Hf i; simpl.
  - destruct (match_at p i []) as [[cap len]|] eqn:E; [|reflexivity].
    destruct (@tag_match_shape p _ _ _ Hp E) as (? & ? & ? & _). discriminate.
  - destruct Hf as [Hhead Htail].
    destruct (match_at p i (c :: s)) as [[cap len]|] eqn:E; [|auto].
    exfalso.
    destruct (@tag_match_shape p _ _ _ Hp E) as (c1 & rest & Hs & Hc1 & Hin).
    injection Hs as -> ->.
    destruct (Hhead eq_refl) as [(s'' & Hs'')|Hno].
    + injection Hs'' as -> _. now apply Hc1.
    + apply Hno. now right.
Qed.

(** ** The tag pattern matches wherever a tag opens *)

Lemma atom_not_gt (c : char) :
  atom_matches false (AClass true (cc ">")) c = negb (N.eqb 62 c).
Proof.
  cbn [atom_matches cc js map list_ascii_of_string existsb citem_matches].
  unfold char_matches. now rewrite orb_false_r.
Qed.

Lemma upto_not_gt (start : nat) (cap : option jsstring) (s : jsstring) :
  In 62%N s ->
  forall pos,
    upto false (AClass true (cc ">")) true None
      (fun pos' s' =>
         run false start (RAtom (AChar 62%N))
           (fun cap' pos'' _ => Some (cap', pos'')) cap pos' s')
      pos s <> None.
Proof.
  induction s as [|c s IH]; intros Hin pos; [destruct Hin|].
  cbn [upto]. rewrite atom_not_gt.
  destruct (N.eqb_spec 62 c) as [<-|Hne]; cbn [negb].
  - cbn. discriminate.
  - destruct Hin as [Hin|Hin]; [congruence|].
    specialize (IH Hin (S pos)). cbn [option_map].
    destruct (upto _ _ _ _ _ _ _); [discriminate | contradiction].
Qed.

Lemma tag_complete (i : nat) (c : char) (rest : jsstring) :
  c <> 62%N -> In 62%N rest ->
  match_at tagPattern i (60%N :: c :: rest) <> None.
Proof.
  intros Hc Hin.
  assert (Htail :
    exactly false (AClass true (cc ">")) 1
      (upto false (AClass true (cc ">")) true None
         (fun pos' s' =>
            run false i (RAtom (AChar 62%N))
              (fun cap' pos'' _ => Some (cap', pos'')) None pos' s'))
      1 (c :: rest) <> None).
  { cbn [exactly]. rewrite atom_not_gt.
    destruct (N.eqb_spec 62 c) as [E|_]; [congruence|]. cbn [negb].
    now apply upto_not_gt. }
  unfold match_at.
  cbn [tagPattern p_regex p_ignoreCase seq lit js lit_chars map
       list_ascii_of_string opt plus run exactly upto option_map
       atom_matches char_matches].
  change (N_of_ascii "<") with 60%N. change (N_of_ascii ">") with 62%N.
  rewrite N.eqb_refl.
  destruct (47 =? c)%N.
  - cbn [Nat.sub pred].
    match goal with
    | |- match ?u with _ => _ end <> None => destruct u
    end; [discriminate | exact Htail].
  - exact Htail.
Qed.

(** After the tags are replaced, no "<" opens a tag. *)
Lemma replace_tags_tagFree (s : jsstring) :
  forall i,
    let out := replace_from tagPattern (js " ") i 0 s in
    tagFree out
    /\ (In 62%N out -> In 62%N s)
    /\ (forall s2, s = 62%N :: s2 -> exists o2, out = 62%N :: o2).
Proof.
  apply replace_ind with
    (Q := fun s out =>
            tagFree out
            /\ (In 62%N out -> In 62%N s)
            /\ (forall s2, s = 62%N :: s2 -> exists o2, out = 62%N :: o2));
    [reflexivity | | |].
  - intros i. simpl. repeat split; auto; discriminate.
  - intros i c s' Hnone (Hf & Hin & Hhead).
    repeat split; [| exact Hf | |].
    + intros ->.
      destruct (in_dec N.eq_dec 62%N s') as [Hyes|Hno].
      * destruct s' as [|c1 s2]; [destruct Hyes|].
        destruct (N.eq_dec c1 62) as [->|Hc1].
        -- left. destruct (Hhead s2 eq_refl) as (o2 & ->). eauto.
        -- exfalso. destruct Hyes as [E|Hyes]; [congruence|].
           exact (@tag_complete i c1 s2 Hc1 Hyes Hnone).
      * right. intros H. apply Hno, Hin, H.
    + intros [->|H]; [now left | right; auto].
    + intros s2 [= -> ->]. eauto.
  - intros i w s' cap Hne Hm (Hf & Hin & Hhead).
    repeat split.
    + discriminate.
    + exact Hf.
    + intros [E|H]; [discriminate|]. apply in_or_app. right. auto.
    + intros s2 Hs. exfalso.
      assert (Hp : In tagPattern tagPatterns) by (simpl; auto).
      destruct (@tag_match_shape tagPattern _ _ _ Hp Hm) as (c1 & rest & Hs' & _).
      rewrite Hs in Hs'. discriminate.
Qed.


(* ================================================================== *)
(** * Literal patterns and the entity *)
(* ================================================================== *)

Lemma run_lit (icase : bool) (start : nat) (cs : jsstring) :
  forall k cap pos s,
    run icase start (lit_chars cs) k cap pos s
    = if litAt icase cs s
      then k cap (pos + length cs) (skipn (length cs) s)
      else None.
Proof.
  induction cs as [|p cs IH]; intros k cap pos s.
  - simpl. now rewrite Nat.add_0_r.
  - destruct cs as [|p2 cs].
    + simpl. destruct s as [|c s]; [reflexivity|].
      rewrite andb_true_r, Nat.add_1_r. reflexivity.
    + change (lit_chars (p :: p2 :: cs))
        with (RSeq (RAtom (AChar p)) (lit_chars (p2 :: cs))).
      cbn [run]. destruct s as [|c s]; [reflexivity|].
      cbn [atom_matches]. change (litAt icase (p :: p2 :: cs) (c :: s))
        with (char_matches icase p c && litAt icase (p2 :: cs) s).
      destruct (char_matches icase p c); [|reflexivity].
      rewrite IH.
      replace (pos + length (p :: p2 :: cs))
        with (S pos + length (p2 :: cs)) by (simpl; lia).
      reflexivity.
Qed.

Lemma match_at_entity (i : nat) (s : jsstring) :
  match_at nbspEntityPattern i s
  = if litAt true entity s then Some (None, 6) else None.
Proof.
  unfold match_at. cbn [nbspEntityPattern p_regex p_ignoreCase].
  unfold lit. fold entity. rewrite run_lit.
  destruct (litAt true entity s); reflexivity.
Qed.

(** [litAt] reads no further than the literal is long. *)
Lemma litAt_prefix (icase : bool) (cs : jsstring) :
  forall w s1 s2,
    length w = length cs ->
    litAt icase cs (w ++ s1) = litAt icase cs (w ++ s2).
Proof.
  induction cs as [|p cs IH]; intros w s1 s2 Hlen; [reflexivity|].
  destruct w as [|c w]; [discriminate|]. simpl.
  injection Hlen as Hlen. now rewrite (IH w s1 s2 Hlen).
Qed.

Lemma litAt_split (icase : bool) (cs : jsstring) :
  forall s,
    litAt icase cs s = true ->
    exists w s',
      s = w ++ s' /\ length w = length cs
      /\ Forall2 (fun p c => char_matches icase p c = true) cs w.
Proof.
  induction cs as [|p cs IH]; intros s H.
  - exists [], s. repeat split. constructor.
  - destruct s as [|c s]; [discriminate|]. simpl in H.
    apply andb_prop in H as [Hc H].
    apply IH in H as (w & s' & -> & Hlen & Hall).
    exists (c :: w), s'. simpl. repeat split; auto.
Qed.

Lemma char_matches_solid (p c : char) :
  char_matches true p c = true ->
  solid (toUpper p) = true -> solid (toUpper p + 32)%N = true ->
  solid c = true.
Proof.
  unfold char_matches. intros H H1 H2. apply N.eqb_eq in H.
  symmetry in H. apply toUpper_inv in H as [->| ->]; assumption.
Qed.

Lemma solid_facts (c : char) :
  solid c = true -> isWhiteSpace c = false /\ plain c.
Proof.
  unfold solid, plain. intros H.
  apply andb_prop in H as [H H62]. apply andb_prop in H as [Hws H60].
  apply negb_true_iff in Hws, H60, H62.
  apply N.eqb_neq in H60, H62. auto.
Qed.

(** The code units of an occurrence of the entity are solid. *)
Lemma entity_solid (s : jsstring) :
  litAt true entity s = true ->
  exists w s', s = w ++ s' /\ length w = 6 /\ Forall (fun c => solid c = true) w.
Proof.
  intros H. apply litAt_split in H as (w & s' & -> & Hlen & Hall).
  exists w, s'. split; [reflexivity|]. split; [exact Hlen|].
  unfold entity in Hall.
  repeat match goal with
         | H : Forall2 _ (js _) _ |- _ => vm_compute js in H
         | H : Forall2 _ (_ :: _) _ |- _ => inversion H; subst; clear H
         | H : Forall2 _ [] _ |- _ => inversion H; subst; clear H
         end.
  repeat constructor;
    (eapply char_matches_solid; [eassumption | reflexivity | reflexivity]).
Qed.

Lemma white_plain (c : char) : isWhiteSpace c = true -> plain c.
Proof.
  intros H. split; intros ->; vm_compute in H; discriminate.
Qed.

(* ================================================================== *)
(** * Edits that leave tags and entities as they are *)
(* ================================================================== *)

Lemma edits_refl (s : jsstring) : forall b, edits b s s.
Proof. induction s; intros b; constructor; auto. Qed.

Lemma edits_drops (w : jsstring) (s out : jsstring) :
  Forall plain w -> edits true s out -> edits true (w ++ s) out.
Proof.
  induction 1; simpl; intros H1; [assumption|]. constructor; auto.
Qed.

Lemma edits_app_tail (w : jsstring) :
  Forall plain w -> forall p b, edits b (p ++ w) p.
Proof.
  intros Hw. induction p as [|c p IH]; intros b; simpl.
  - now apply edits_tail.
  - now apply edits_keep.
Qed.

Lemma edits_In (b : bool) (s out : jsstring) (x : char) :
  edits b s out -> In x out -> x = 32%N \/ In x s.
Proof.
  induction 1 as [b | b c s out _ IH | b c s out _ _ IH
                  | c s out _ _ IH | b s _]; intros Hin.
  - destruct Hin.
  - destruct Hin as [->|Hin]; [right; now left|].
    destruct (IH Hin); [now left | right; now right].
  - destruct Hin as [<-|Hin]; [now left|].
    destruct (IH Hin); [now left | right; now right].
  - destruct (IH Hin); [now left | right; now right].
  - destruct Hin.
Qed.

(** Tags stay away. *)
Lemma edits_tagFree (b : bool) (s out : jsstring) :
  edits b s out -> tagFree s -> tagFree out.
Proof.
  induction 1 as [b | b c s out He IH | b c s out _ _ IH
                  | c s out _ _ IH | b s _]; intros Hf; simpl in *; auto.
  - destruct Hf as [Hhead Htail]. split; [|auto].
    intros ->. destruct (Hhead eq_refl) as [(s2 & ->)|Hno].
    + left. change (isWhiteSpace 60%N) with false in He.
      inversion He as [| ? ? ? out' _ | ? ? ? ? [_ Hp] | | ? ? Hall]; subst.
      * eauto.
      * now contradiction Hp.
      * inversion Hall as [|? ? [_ Hp] _]; subst. now contradiction Hp.
    + right. intros Hin.
      destruct (@edits_In _ _ _ 62%N He Hin) as [E|Hin'];
        [discriminate | contradiction].
  - destruct Hf as [_ Htail]. split; [discriminate | auto].
  - destruct Hf as [_ Htail]. auto.
Qed.

(** Without white space at hand nothing is dropped: a solid prefix of the
    output is a prefix of the input. *)
Lemma edits_solid_prefix (w : jsstring) :
  forall s out',
    edits false s (w ++ out') ->
    Forall (fun c => isWhiteSpace c = false) w ->
    exists s', s = w ++ s'.
Proof.
  induction w as [|c w IH]; intros s out' He Hw; [now exists s|].
  inversion Hw as [|? ? Hc Hw']; subst.
  simpl in He.
  inversion He as [| ? ? s1 ? He1 | ? ? ? ? _ _ | | ]; subst.
  - rewrite Hc in He1. apply IH in He1 as (s' & ->); [|exact Hw'].
    now exists s'.
  - vm_compute in Hc. discriminate.
Qed.

Lemma entity_after_edits (b : bool) (s out : jsstring) :
  edits b s out -> litAt true entity out = true ->
  exists d s0, s = d ++ s0 /\ litAt true entity s0 = true.
Proof.
  induction 1 as [b | b c s out He _ | b c s out _ _ _
                  | c s out _ _ IH | b s _]; intros Hent.
  - discriminate.
  - exists [], (c :: s). split; [reflexivity|].
    destruct (entity_solid _ Hent) as (w & out' & Hout & Hlen & Hsolid).
    destruct w as [|c0 w5]; [discriminate|].
    injection Hout as <- ->.
    inversion Hsolid as [|? ? Hc Hw5]; subst.
    destruct (solid_facts c Hc) as [Hws _]. rewrite Hws in He.
    apply edits_solid_prefix in He as (s' & ->).
    + etransitivity; [|exact Hent].
      apply (litAt_prefix true entity (c :: w5) s' out'). exact Hlen.
    + eapply Forall_impl; [|exact Hw5].
      intros a Ha. now destruct (solid_facts a Ha).
  - discriminate.
  - destruct (IH Hent) as (d & s0 & -> & H0).
    exists (c :: d), s0. auto.
  - discriminate.
Qed.

Lemma edits_suffix (b : bool) (s out : jsstring) :
  edits b s out ->
  forall pre suf, out = pre ++ suf ->
  exists b' d s1, s = d ++ s1 /\ edits b' s1 suf.
Proof.
  induction 1 as [b | b c s out He IH | b c s out Hp He IH
                  | c s out Hp He IH | b s Hall]; intros pre suf Hout.
  - symmetry in Hout. apply app_eq_nil in Hout as [-> ->].
    exists b, [], []. split; [reflexivity | constructor].
  - destruct pre as [|x pre]; simpl in Hout.
    + subst suf. exists b, [], (c :: s). split; [reflexivity|].
      now constructor.
    + injection Hout as <- Hout.
      destruct (IH _ _ Hout) as (b' & d & s1 & -> & H1).
      exists b', (c :: d), s1. auto.
  - destruct pre as [|x pre]; simpl in Hout.
    + subst suf. exists b, [], (c :: s). split; [reflexivity|].
      now constructor.
    + injection Hout as <- Hout.
      destruct (IH _ _ Hout) as (b' & d & s1 & -> & H1).
      exists b', (c :: d), s1. auto.
  - destruct (IH _ _ Hout) as (b' & d & s1 & -> & H1).
    exists b', (c :: d), s1. auto.
  - symmetry in Hout. apply app_eq_nil in Hout as [-> ->].
    exists b, [], s. split; [reflexivity | now constructor].
Qed.

Lemma entityFree_suffix (d s : jsstring) :
  entityFree (d ++ s) -> litAt true entity s = false.
Proof.
  induction d as [|c d IH]; simpl.
  - destruct s; simpl; tauto.
  - intros [_ H]. auto.
Qed.

Lemma entityFree_intro (s : jsstring) :
  (forall pre suf, s = pre ++ suf -> litAt true entity suf = false) ->
  entityFree s.
Proof.
  induction s as [|c s IH]; intros H; simpl.
  - split; [reflexivity | exact I].
  - split; [apply (H [] (c :: s) eq_refl)|].
    apply IH. intros pre suf ->. apply (H (c :: pre) suf). reflexivity.
Qed.

(** Entities stay away. *)
Lemma edits_entityFree (b : bool) (s out : jsstring) :
  edits b s out -> entityFree s -> entityFree out.
Proof.
  intros He Hf. apply entityFree_intro. intros pre suf Hout.
  destruct (litAt true entity suf) eqn:E; [|reflexivity]. exfalso.
  destruct (edits_suffix He _ _ Hout) as (b' & d & s1 & -> & H1).
  destruct (entity_after_edits H1 E) as (d' & s0 & -> & H0).
  rewrite List.app_assoc in Hf. apply entityFree_suffix in Hf. congruence.
Qed.

Lemma entityFree_no_match (s : jsstring) :
  entityFree s -> forall i, search_from nbspEntityPattern i s = None.
Proof.
  induction s as [|c s IH]; intros Hf i; cbn [search_from];
    rewrite match_at_entity; destruct Hf as [-> Hf]; auto.
Qed.


(* ================================================================== *)
(** * The stages after the tags are such edits *)
(* ================================================================== *)

Lemma app_same_length {A : Type} (a b c d : list A) :
  a ++ b = c ++ d -> length a = length c -> a = c /\ b = d.
Proof.
  revert c. induction a as [|x a IH]; intros [|y c] H Hlen;
    try discriminate; simpl in *; [auto|].
  injection H as -> H. injection Hlen as Hlen.
  destruct (IH c H Hlen) as [-> ->]. auto.
Qed.

Lemma replace_entities_edits (s : jsstring) :
  forall i b, edits b s (replace_from nbspEntityPattern (js " ") i 0 s).
Proof.
  intros i b. revert b. revert s i.
  apply (@replace_ind nbspEntityPattern (js " ")
           (fun s out => forall b, edits b s out)); [reflexivity | | |].
  - intros i b. cbn [replace_from]. rewrite match_at_entity. constructor.
  - intros i c s' _ IH b. now constructor.
  - intros i w s' cap Hne Hm IH b.
    rewrite match_at_entity in Hm.
    destruct (litAt true entity (w ++ s')) eqn:E; [|discriminate].
    injection Hm as _ Hlen.
    destruct (entity_solid _ E) as (w' & s'' & Hs & Hlen' & Hsolid).
    destruct (app_same_length _ _ _ _ Hs) as [<- _]; [congruence|].
    assert (Hplain : Forall plain w).
    { eapply Forall_impl; [|exact Hsolid].
      intros a Ha. now destruct (solid_facts a Ha). }
    destruct w as [|a w]; [now contradiction Hne|].
    inversion Hplain; subst.
    change (js " " ++ replace_from nbspEntityPattern (js " ")
                        (i + length (a :: w)) 0 s')
      with (32%N :: replace_from nbspEntityPattern (js " ")
                      (i + length (a :: w)) 0 s').
    simpl app. apply edits_space; [assumption|].
    apply edits_drops; auto.
Qed.

Lemma unbreak_edits (s : jsstring) : forall b, edits b s (map unbreak s).
Proof.
  induction s as [|c s IH]; intros b; simpl; [constructor|].
  unfold unbreak at 1. destruct (N.eqb_spec 160 c) as [<-|_].
  - apply edits_space; [|apply IH]. split; discriminate.
  - now apply edits_keep.
Qed.

Lemma collapse_edits (s : jsstring) :
  forall inRun b,
    (inRun = true -> b = true) -> edits b s (collapse inRun s).
Proof.
  induction s as [|c s IH]; intros inRun b Hb; simpl; [constructor|].
  destruct (isWhiteSpace c) eqn:E.
  - destruct inRun.
    + rewrite (Hb eq_refl). apply edits_drop; [now apply white_plain|].
      now apply IH.
    + apply edits_space; [now apply white_plain|]. now apply IH.
  - apply edits_keep. rewrite E. apply IH. discriminate.
Qed.

Lemma trimStart_edits (s : jsstring) : edits true s (trimStart s).
Proof.
  unfold trimStart. induction s as [|c s IH]; simpl; [constructor|].
  destruct (isWhiteSpace c) eqn:E.
  - apply edits_drop; [now apply white_plain | exact IH].
  - apply edits_refl.
Qed.

Lemma dropWhile_suffix_all (p : char -> bool) (s : jsstring) :
  exists w, s = w ++ dropWhile p s /\ Forall (fun c => p c = true) w.
Proof.
  induction s as [|c s (w & IH & Hw)]; simpl.
  - exists []. split; [reflexivity | constructor].
  - destruct (p c) eqn:E.
    + exists (c :: w). split; [simpl; now f_equal | now constructor].
    + exists []. split; [reflexivity | constructor].
Qed.

Lemma trimEnd_edits (s : jsstring) : forall b, edits b s (trimEnd s).
Proof.
  intros b. unfold trimEnd.
  destruct (dropWhile_suffix_all isWhiteSpace (rev s)) as (w & Hs & Hw).
  assert (E : s = rev (dropWhile isWhiteSpace (rev s)) ++ rev w).
  { rewrite <- rev_app_distr, <- Hs. now rewrite rev_involutive. }
  rewrite E at 1. apply edits_app_tail.
  apply Forall_rev. eapply Forall_impl; [|exact Hw].
  intros a Ha. now apply white_plain.
Qed.

(** After the entities are replaced none is left. *)
Lemma replace_entities_entityFree (s : jsstring) :
  forall i, entityFree (replace_from nbspEntityPattern (js " ") i 0 s).
Proof.
  revert s.
  apply (@replace_ind nbspEntityPattern (js " ")
           (fun s out => entityFree out)); [reflexivity | | |].
  - intros i. cbn [replace_from]. rewrite match_at_entity.
    split; [reflexivity | exact I].
  - intros i c s' Hnone IH. cbn [entityFree]. split; [|exact IH].
    destruct (litAt true entity
                (c :: replace_from nbspEntityPattern (js " ") (S i) 0 s'))
      eqn:E; [|reflexivity].
    exfalso.
    destruct (entity_solid _ E) as (w & out' & Hout & Hlen & Hsolid).
    destruct w as [|c0 w5]; [discriminate|].
    injection Hout as <- Hout.
    inversion Hsolid as [|? ? Hc Hw5]; subst.
    pose proof (replace_entities_edits s' (S i) false) as He.
    rewrite Hout in He.
    apply edits_solid_prefix in He as (s'' & ->).
    + rewrite match_at_entity in Hnone. rewrite Hout in E.
      pose proof (litAt_prefix true entity (c :: w5) s'' out' Hlen) as X.
      simpl app in X. rewrite X, E in Hnone. discriminate.
    + eapply Forall_impl; [|exact Hw5].
      intros a Ha. now destruct (solid_facts a Ha).
  - intros i w s' cap _ _ IH.
    match goal with
    | |- entityFree (_ ++ ?y) => change (entityFree (32%N :: y))
    end.
    cbn [entityFree]. split; [reflexivity | exact IH].
Qed.

(* ================================================================== *)
(** * The text of a body is left alone by the whole normalizer *)
(* ================================================================== *)

Lemma htmlText_clean (v : value) :
  tagFree (htmlText v) /\ entityFree (htmlText v).
Proof.
  unfold htmlText. rewrite normalizeText_eq. cbn [toString].
  unfold stripped, replaceAll.
  set (u2 := replace_from stylePattern (js " ") 0 0
               (replace_from scriptPattern (js " ") 0 0 (toString v))).
  set (u3 := replace_from tagPattern (js " ") 0 0 u2).
  set (u4 := replace_from nbspEntityPattern (js " ") 0 0 u3).
  assert (T3 : tagFree u3) by (apply (replace_tags_tagFree u2 0)).
  assert (T4 : tagFree u4)
    by (apply (edits_tagFree (replace_entities_edits u3 0 true) T3)).
  assert (E4 : entityFree u4) by apply replace_entities_entityFree.
  pose proof (unbreak_edits u4 true) as H1.
  assert (H2 : edits true (map unbreak u4)
                 (collapse false (map unbreak u4)))
    by (apply collapse_edits; discriminate).
  pose proof (trimStart_edits (collapse false (map unbreak u4))) as H3.
  pose proof (trimEnd_edits
                (trimStart (collapse false (map unbreak u4))) true) as H4.
  split.
  - apply (edits_tagFree H4), (edits_tagFree H3), (edits_tagFree H2),
      (edits_tagFree H1), T4.
  - apply (edits_entityFree H4), (edits_entityFree H3),
      (edits_entityFree H2), (edits_entityFree H1), E4.
Qed.

Lemma stripped_clean (t : jsstring) :
  tagFree t -> entityFree t -> stripped (VString t) = t.
Proof.
  intros Ht He. unfold stripped. cbn [toString].
  rewrite (replaceAll_no_match scriptPattern);
    [|apply tagFree_no_match; [simpl; auto | exact Ht]].
  rewrite (replaceAll_no_match stylePattern);
    [|apply tagFree_no_match; [simpl; auto | exact Ht]].
  rewrite (replaceAll_no_match tagPattern);
    [|apply tagFree_no_match; [simpl; auto | exact Ht]].
  apply replaceAll_no_match. now apply entityFree_no_match.
Qed.

Lemma htmlText_idem (v : value) :
  htmlText (VString (htmlText v)) = htmlText v.
Proof.
  destruct (htmlText_clean v) as [Ht He].
  unfold htmlText at 1. rewrite (stripped_clean _ Ht He).
  unfold htmlText. apply normalizeText_idem.
Qed.


(* ================================================================== *)
(** * The text normalizer: the claim *)
(* ================================================================== *)

(** C8.  The text normalizer is idempotent: the text [htmlToText] makes of
    a body (scripts, styles and tags removed, entity and no-break spaces
    turned into spaces, white space collapsed, trimmed) is left unchanged
    when it is normalized again, and so is the result of [normalizeText]
    on its own.  The empty string normalizes to the empty string, and
    [htmlToText] answers a [null], [undefined] or empty body with the empty
    string, without throwing. *)
Theorem normalizer_idempotent :
  (forall v : value, htmlText (VString (htmlText v)) = htmlText v)
  /\ (forall v : value,
        normalizeText (VString (normalizeText v)) = normalizeText v)
  /\ htmlText (VString []) = []
  /\ normalizeText (VString []) = []
  /\ htmlToText VNull = Returned (inl [])
  /\ htmlToText VUndefined = Returned (inl [])
  /\ htmlToText (VString []) = Returned (inl []).
Proof.
  split; [exact htmlText_idem|].
  split; [exact normalizeText_idem|]. repeat split.
Qed.
(* ================================================================== *)
(** * The matcher: what a success took and what it captured *)
(* ================================================================== *)

Section MatcherSpans.

Variable icase : bool.
Variable start : nat.

Lemma exactly_spans a n k pos s x :
  exactly icase a n k pos s = Some x ->
  exists w s',
    s = w ++ s' /\ length w = n /\ k (pos + n) s' = Some x
    /\ Forall (fun c => atom_matches icase a c = true) w.
Proof.
  revert pos s. induction n as [|n IH]; intros pos s H; simpl in H.
  - exists [], s. rewrite Nat.add_0_r. auto.
  - destruct s as [|c s]; [discriminate|].
    destruct (atom_matches icase a c) eqn:Ec; [|discriminate].
    apply IH in H as (w & s' & -> & Hlen & H & Hall).
    exists (c :: w), s'. simpl. rewrite Hlen.
    replace (pos + S n) with (S pos + n) by lia. auto.
Qed.

Lemma upto_spans a greedy :
  forall s hi k pos x,
    upto icase a greedy hi k pos s = Some x ->
    exists w s',
      s = w ++ s' /\ k (pos + length w) s' = Some x
      /\ match hi with Some h => length w <= h | None => True end
      /\ Forall (fun c => atom_matches icase a c = true) w.
Proof.
  induction s as [|c s IH]; intros hi k pos x H.
  - exists [], []. simpl. rewrite Nat.add_0_r.
    assert (Hk : k pos [] = Some x)
      by (destruct hi as [[|h]|]; simpl in H; auto).
    repeat split; auto. destruct hi; [lia | exact I].
  - assert (here : k pos (c :: s) = Some x ->
                   exists w s',
                     c :: s = w ++ s' /\ k (pos + length w) s' = Some x
                     /\ match hi with Some h => length w <= h | None => True end
                     /\ Forall (fun c => atom_matches icase a c = true) w).
    { intros Hk. exists [], (c :: s). simpl. rewrite Nat.add_0_r.
      repeat split; auto. destruct hi; [lia | exact I]. }
    destruct hi as [[|h]|]; simpl in H; auto.
    + destruct (atom_matches icase a c) eqn:Ec; auto.
      assert (further :
                upto icase a greedy (Some h) k (S pos) s = Some x ->
                exists w s',
                  c :: s = w ++ s' /\ k (pos + length w) s' = Some x
                  /\ length w <= S h
                  /\ Forall (fun c => atom_matches icase a c = true) w).
      { intros Hu. apply IH in Hu as (w & s' & -> & Hu & Hlen & Hall).
        exists (c :: w), s'. simpl.
        replace (pos + S (length w)) with (S pos + length w) by lia.
        repeat split; auto. lia. }
      destruct greedy.
      * destruct (upto icase a true (Some h) k (S pos) s) eqn:E;
          [injection H as ->|]; auto.
      * destruct (k pos (c :: s)) eqn:E; [injection H as ->|]; auto.
    + destruct (atom_matches icase a c) eqn:Ec; auto.
      assert (further :
                upto icase a greedy None k (S pos) s = Some x ->
                exists w s',
                  c :: s = w ++ s' /\ k (pos + length w) s' = Some x
                  /\ True
                  /\ Forall (fun c => atom_matches icase a c = true) w).
      { intros Hu. apply IH in Hu as (w & s' & -> & Hu & _ & Hall).
        exists (c :: w), s'. simpl.
        replace (pos + S (length w)) with (S pos + length w) by lia.
        repeat split; auto. }
      destruct greedy.
      * destruct (upto icase a true None k (S pos) s) eqn:E;
          [injection H as ->|]; auto.
      * destruct (k pos (c :: s)) eqn:E; [injection H as ->|]; auto.
Qed.

(** A success of [run] took a string the pattern spans, and left the
    capture the pattern makes of the one it was given. *)
Lemma run_spans r :
  forall k cap pos s x,
    run icase start r k cap pos s = Some x ->
    exists cap' w s',
      s = w ++ s'
      /\ k cap' (pos + length w) s' = Some x
      /\ spans icase r w
      /\ groupSpans icase r cap cap'.
Proof.
  induction r as [| a | r1 IH1 r2 IH2 | r1 IH1 r2 IH2 | a lo hi g
                  | r1 IH1 | r1 IH1 | |];
    intros k cap pos s x H; simpl in H.
  - exists cap, [], s. simpl. rewrite Nat.add_0_r. auto.
  - destruct s as [|c s]; [discriminate|].
    destruct (atom_matches icase a c) eqn:Ec; [|discriminate].
    exists cap, [c], s. simpl. rewrite Nat.add_1_r.
    split; [reflexivity|]. split; [exact H|].
    split; [exists c; auto | reflexivity].
  - apply IH1 in H as (c1 & w1 & s1 & -> & H & Hs1 & Hg1).
    apply IH2 in H as (c2 & w2 & s2 & -> & H & Hs2 & Hg2).
    exists c2, (w1 ++ w2), s2. rewrite length_app, Nat.add_assoc.
    split; [now rewrite List.app_assoc|]. split; [exact H|]. simpl.
    split; eauto.
  - destruct (run icase start r1 k cap pos s) eqn:E.
    + injection H as ->.
      apply IH1 in E as (c1 & w1 & s1 & -> & E & Hs1 & Hg1).
      exists c1, w1, s1. simpl. auto.
    + apply IH2 in H as (c2 & w2 & s2 & -> & H & Hs2 & Hg2).
      exists c2, w2, s2. simpl. auto.
  - apply exactly_spans in H as (w1 & s1 & -> & Hlen & H & Hall1).
    apply upto_spans in H as (w2 & s2 & -> & H & Hhi & Hall2).
    exists cap, (w1 ++ w2), s2. rewrite length_app, Nat.add_assoc, Hlen.
    split; [now rewrite List.app_assoc|]. split; [exact H|]. simpl.
    rewrite length_app. repeat split.
    + lia.
    + destruct hi as [h|]; simpl in Hhi; [lia | exact I].
    + apply Forall_app. auto.
  - apply IH1 in H as (c1 & w1 & s1 & -> & H & Hs1 & _).
    replace (pos + length w1 - pos) with (length w1) in H by lia.
    rewrite firstn_app, Nat.sub_diag, firstn_all in H. simpl in H.
    rewrite List.app_nil_r in H.
    exists (Some w1), w1, s1. simpl.
    split; [reflexivity|]. split; [exact H|].
    split; [exact Hs1 | exists w1; auto].
  - destruct (run icase start r1 (fun cap' pos' _ => Some (cap', pos'))
                cap pos s)
      as [[c1 p1]|] eqn:E; [|discriminate].
    apply IH1 in E as (c2 & w2 & s2 & _ & E & _ & Hg).
    injection E as -> _.
    exists c1, [], s. simpl. rewrite Nat.add_0_r. auto.
  - destruct (Nat.eqb (start + pos) 0); [|discriminate].
    exists cap, [], s. simpl. rewrite Nat.add_0_r. auto.
  - destruct s; [|discriminate].
    exists cap, [], []. simpl. rewrite Nat.add_0_r. auto.
Qed.

End MatcherSpans.

Lemma match_at_spans (p : pattern) (start : nat) (s : jsstring) cap len :
  match_at p start s = Some (cap, len) ->
  groupSpans (p_ignoreCase p) (p_regex p) None cap.
Proof.
  intros H. unfold match_at in H.
  apply run_spans in H as (c & w & s' & _ & H & _ & Hg).
  simpl in H. injection H as Hc _. now subst c.
Qed.

Lemma search_from_spans (p : pattern) (s : jsstring) :
  forall i m,
    search_from p i s = Some m ->
    groupSpans (p_ignoreCase p) (p_regex p) None (m_group1 m).
Proof.
  induction s as [|c s IH]; intros i m H; simpl in H.
  - destruct (match_at p i []) as [[cap len]|] eqn:E; [|discriminate].
    injection H as <-. simpl. eapply match_at_spans; eauto.
  - destruct (match_at p i (c :: s)) as [[cap len]|] eqn:E.
    + injection H as <-. simpl. eapply match_at_spans; eauto.
    + eauto.
Qed.

(** What [find] returns is the trimmed string its group took. *)
Lemma find_spans (p : pattern) (src v : jsstring) :
  find p src = Returned (Some v) ->
  exists g, v = trim g
            /\ groupSpans (p_ignoreCase p) (p_regex p) None (Some g).
Proof.
  unfold find. destruct (str_match p src) as [m|] eqn:E; [|discriminate].
  apply search_from_spans in E.
  destruct (m_group1 m) as [g|]; [|discriminate].
  intros [= <-]. eauto.
Qed.

Lemma groupSpans_groupsOf (icase : bool) (r : regex) :
  forall cap cap',
    groupSpans icase r cap cap' ->
    cap' = cap
    \/ exists r1 g, In r1 (groupsOf r) /\ cap' = Some g /\ spans icase r1 g.
Proof.
  induction r as [| a | r1 IH1 r2 IH2 | r1 IH1 r2 IH2 | a lo hi g
                  | r1 IH1 | r1 IH1 | |];
    intros cap cap' H; simpl in H; auto.
  - destruct H as (c1 & H1 & H2).
    apply IH2 in H2 as [-> | (r & g & Hin & -> & Hs)].
    + apply IH1 in H1 as [-> | (r & g & Hin & -> & Hs)]; [now left|].
      right. exists r, g. simpl. rewrite in_app_iff. auto.
    + right. exists r, g. simpl. rewrite in_app_iff. auto.
  - destruct H as [H | H];
      [apply IH1 in H | apply IH2 in H];
      (destruct H as [-> | (r & g & Hin & -> & Hs)]; [now left|]);
      right; exists r, g; simpl; rewrite in_app_iff; auto.
  - destruct H as (g & -> & Hs). right. exists r1, g. simpl. auto.
Qed.

(** What [find] returns is the trimmed string one of the groups of the
    pattern took. *)
Lemma find_group (p : pattern) (src v : jsstring) :
  find p src = Returned (Some v) ->
  exists r1 g,
    In r1 (groupsOf (p_regex p)) /\ v = trim g
    /\ spans (p_ignoreCase p) r1 g.
Proof.
  intros H. apply find_spans in H as (g & -> & H).
  apply groupSpans_groupsOf in H as [H | (r1 & g' & Hin & [= <-] & Hs)];
    [discriminate|].
  exists r1, g. auto.
Qed.

(** The fields of a returned object are what [find] gave for the eleven
    patterns. *)
Lemma extractPoDetails_fields (inputText : value) (e : ExtractedFields) :
  extractPoDetails inputText = Returned e ->
  let text := normalizeText inputText in
  let sec := sectionOrEmpty (interviewSection text) in
  find candidateNamePattern text = Returned (candidate_name e)
  /\ find phoneNumberPattern text = Returned (phone_number e)
  /\ find emailPattern text = Returned (email e)
  /\ find locationPattern text = Returned (location e)
  /\ find positionAppliedPattern text = Returned (position_applied e)
  /\ find jobLocationPattern text = Returned (job_location e)
  /\ find endClientPattern text = Returned (end_client e)
  /\ find ratePattern text = Returned (rate e)
  /\ find supportByPattern sec = Returned (interview_support_by e)
  /\ find teamLeadPattern sec = Returned (team_lead e)
  /\ find managerPattern sec = Returned (manager e).
Proof.
  intros H text sec. unfold extractPoDetails in H.
  fold text in H. fold sec in H.
  destruct (find candidateNamePattern text); [|discriminate].
  destruct (find phoneNumberPattern text); [|discriminate].
  destruct (find emailPattern text); [|discriminate].
  destruct (find locationPattern text); [|discriminate].
  destruct (find positionAppliedPattern text); [|discriminate].
  destruct (find jobLocationPattern text); [|discriminate].
  destruct (find endClientPattern text); [|discriminate].
  destruct (find ratePattern text); [|discriminate].
  destruct (find supportByPattern sec); [|discriminate].
  destruct (find teamLeadPattern sec); [|discriminate].
  destruct (find managerPattern sec); [|discriminate].
  cbn [bind] in H. injection H as <-. cbn. repeat split.
Qed.

(** ** Code units *)

Lemma letter_not_space (c : char) : isLetter c = true -> isWhiteSpace c = false.
Proof.
  unfold isLetter, isUpper, isLower, isWhiteSpace. intros H.
  to_props. lia.
Qed.

Lemma digit_not_space (c : char) : isDigit c = true -> isWhiteSpace c = false.
Proof.
  unfold isDigit, inRange, isWhiteSpace. intros H. to_props. lia.
Qed.

(** With or without the [i] flag, a range of letters takes letters only. *)
Lemma range_letters (icase : bool) (lo hi c : char) :
  (65 <= lo)%N -> (hi <= 90)%N \/ (97 <= lo)%N -> (hi <= 122)%N ->
  citem_matches icase (CRange lo hi) c = true -> isLetter c = true.
Proof.
  intros H1 H2 H3. unfold isLetter.
  cbn [citem_matches]. unfold inRange, toUpper, toLower.
  destruct (isLower c) eqn:El; [intros _; apply orb_true_r|].
  destruct (isUpper c) eqn:Eu; [intros _; reflexivity|].
  unfold isLower, isUpper in *. intros H. exfalso.
  destruct icase; cbn [andb] in H; to_props; lia.
Qed.

Lemma range_digits (icase : bool) (c : char) :
  citem_matches icase (CRange 48%N 57%N) c = true -> isDigit c = true.
Proof.
  unfold isDigit. cbn [citem_matches].
  unfold inRange, toUpper, toLower. intros H.
  destruct icase; cbn [andb] in H; [|now rewrite orb_false_r in H].
  destruct (isLower c) eqn:El; destruct (isUpper c) eqn:Eu;
    unfold isLower, isUpper in *; to_props; lia.
Qed.

(** A letter of a pattern takes that letter, in either case. *)
Lemma char_matches_letter (icase : bool) (p c : char) :
  isLetter p = true -> char_matches icase p c = true -> isLetter c = true.
Proof.
  unfold isLetter, char_matches, toUpper.
  intros Hp H.
  destruct (isLower c) eqn:El; [apply orb_true_r|].
  destruct (isUpper c) eqn:Eu; [reflexivity|]. exfalso.
  destruct icase; [destruct (isLower p) eqn:Elp|];
    unfold isLower, isUpper in *; to_props; lia.
Qed.

Lemma upper_range (icase : bool) (c : char) :
  citem_matches icase (range "A" "Z") c = true -> isLetter c = true.
Proof.
  apply (@range_letters icase 65%N 90%N c); [lia | left; lia | lia].
Qed.

Lemma lower_range (icase : bool) (c : char) :
  citem_matches icase (range "a" "z") c = true -> isLetter c = true.
Proof.
  apply (@range_letters icase 97%N 122%N c); [lia | right; lia | lia].
Qed.

Lemma digit_range (icase : bool) (c : char) :
  citem_matches icase (range "0" "9") c = true -> isDigit c = true.
Proof. apply range_digits. Qed.

Lemma class_matches (icase : bool) (items : list citem) (c : char) :
  atom_matches icase (AClass false items) c = true ->
  exists it, In it items /\ citem_matches icase it c = true.
Proof.
  cbn [atom_matches xorb]. intros H. now apply existsb_exists in H.
Qed.

Lemma nameUnit_class (icase : bool) (c : char) :
  atom_matches icase letters_space c = true -> nameUnit c = true.
Proof.
  intros H. apply class_matches in H as (it & Hin & H).
  unfold nameUnit.
  destruct Hin as [<- | [<- | [<- | []]]].
  - apply upper_range in H. now rewrite H.
  - apply lower_range in H. now rewrite H.
  - cbn [citem_matches] in H. rewrite H. apply orb_true_r.
Qed.

(** ** [trim] keeps what the string is made of *)

Lemma Forall_dropWhile (P : char -> Prop) (p : char -> bool) (s : jsstring) :
  Forall P s -> Forall P (dropWhile p s).
Proof.
  induction 1 as [|c s Hc Hs IH]; simpl; [constructor|].
  destruct (p c); auto.
Qed.

Lemma Forall_trim (P : char -> Prop) (s : jsstring) :
  Forall P s -> Forall P (trim s).
Proof.
  intros H. unfold trim, trimEnd, trimStart.
  apply Forall_rev, Forall_dropWhile, Forall_rev, Forall_dropWhile, H.
Qed.

Lemma trim_length (s : jsstring) : length (trim s) <= length s.
Proof.
  unfold trim.
  destruct (trimEnd_prefix (trimStart s)) as [w Hw].
  destruct (dropWhile_suffix isWhiteSpace s) as [u Hu].
  fold (trimStart s) in Hu.
  apply (f_equal (@length char)) in Hw, Hu.
  rewrite length_app in Hw, Hu. lia.
Qed.

(** A string without white space is left alone. *)
Lemma trim_solid (s : jsstring) :
  Forall (fun c => isWhiteSpace c = false) s -> trim s = s.
Proof.
  intros H. unfold trim, trimEnd, trimStart.
  rewrite (dropWhile_fix isWhiteSpace s)
    by (destruct H; [exact I | assumption]).
  apply Forall_rev in H.
  rewrite (dropWhile_fix isWhiteSpace (rev s))
    by (destruct H; [exact I | assumption]).
  apply rev_involutive.
Qed.

(** What a field is made of, from what the group of its pattern takes. *)
Lemma find_madeOf (p : pattern) (a : atom) (lo : nat) (hi : option nat)
    (greedy : bool) (unit : char -> bool) (src : jsstring)
    (o : option jsstring) :
  groupsOf (p_regex p) = [RQuant a lo hi greedy] ->
  (forall c, atom_matches (p_ignoreCase p) a c = true -> unit c = true) ->
  find p src = Returned o -> madeOf unit o.
Proof.
  intros Hg Hunit H. destruct o as [v|]; [|exact I].
  apply find_group in H as (r1 & g & Hin & -> & Hs).
  rewrite Hg in Hin. destruct Hin as [<- | []].
  cbn [spans] in Hs. destruct Hs as (_ & _ & Hall).
  cbn [madeOf]. apply Forall_trim.
  eapply Forall_impl; [|exact Hall]. exact Hunit.
Qed.

(* ================================================================== *)
(** * What the fields are made of *)
(* ================================================================== *)

(** X4.  A location the extractor returns is two or three ASCII letters:
    the pattern takes [[A-Z]{2,3}] after the label (in either case, the
    flag [i] being set), and trimming changes nothing. *)
Theorem location_is_letters (inputText : value) (e : ExtractedFields)
    (v : jsstring) :
  extractPoDetails inputText = Returned e ->
  location e = Some v ->
  (length v = 2 \/ length v = 3) /\ Forall (fun c => isLetter c = true) v.
Proof.
  intros He Hv.
  destruct (@extractPoDetails_fields _ _ He) as (_ & _ & _ & H & _).
  rewrite Hv in H.
  apply find_group in H as (r1 & g & Hin & -> & Hs).
  destruct Hin as [<- | []].
  cbn [spans] in Hs. destruct Hs as (Hlo & Hhi & Hall).
  assert (Hl : Forall (fun c => isLetter c = true) g).
  { eapply Forall_impl; [|exact Hall]. intros c Hc. cbn beta in Hc.
    apply class_matches in Hc as (it & [<- | []] & Hc).
    now apply upper_range in Hc. }
  rewrite trim_solid.
  - split; [simpl in Hhi; lia | exact Hl].
  - eapply Forall_impl; [|exact Hl]. apply letter_not_space.
Qed.

Lemma location_is_letters_witness :
  (length (js "USA") = 2 \/ length (js "USA") = 3)
  /\ Forall (fun c => isLetter c = true) (js "USA").
Proof.
  eapply (@location_is_letters
            (VString (js "Name of Candidate: Jane Doe SST Location USA")));
    [vm_compute; reflexivity | reflexivity].
Defined.

(** X5.  The four name fields (candidate name, interview support, team
    lead, manager) hold ASCII letters and white space only: no digit, no
    punctuation, no letter outside ASCII. *)
Theorem names_are_letters (inputText : value) (e : ExtractedFields) :
  extractPoDetails inputText = Returned e ->
  madeOf nameUnit (candidate_name e)
  /\ madeOf nameUnit (interview_support_by e)
  /\ madeOf nameUnit (team_lead e)
  /\ madeOf nameUnit (manager e).
Proof.
  intros He.
  destruct (@extractPoDetails_fields _ _ He)
    as (H1 & _ & _ & _ & _ & _ & _ & _ & H9 & H10 & H11).
  repeat split;
    eapply find_madeOf;
    try eassumption; try reflexivity; apply nameUnit_class.
Qed.

Lemma names_are_letters_witness :
  exists e,
    extractPoDetails
      (VString (js "Name of Candidate: Jane Doe SST Location USA"))
    = Returned e
    /\ candidate_name e = Some (js "Jane Doe")
    /\ madeOf nameUnit (candidate_name e).
Proof.
  eexists. split; [vm_compute; reflexivity|]. split; [reflexivity|].
  refine (proj1 (@names_are_letters
                   (VString
                      (js "Name of Candidate: Jane Doe SST Location USA"))
                   _ _)).
  vm_compute. reflexivity.
Defined.

Lemma symbol_matches (icase : bool) (p c : char) :
  isLetter p = false -> char_matches icase p c = true -> c = p.
Proof.
  unfold isLetter. intros H. apply orb_false_elim in H as [Hu Hl].
  now apply char_matches_symbol.
Qed.

Lemma phoneUnit_class (icase : bool) (c : char) :
  atom_matches icase
    (AClass false (cc "+" ++ [CDigit] ++ cc "()-." ++ [CSpace])) c = true ->
  phoneUnit c = true.
Proof.
  intros H. apply class_matches in H as (it & Hin & H).
  unfold phoneUnit.
  destruct Hin as [<- | [<- | [<- | [<- | [<- | [<- | [<- | []]]]]]]];
    cbn [citem_matches] in H;
    try (apply symbol_matches in H; [subst c; reflexivity | reflexivity]).
  - fold (isDigit c) in H. now rewrite H.
  - rewrite H. now rewrite orb_true_r.
Qed.

Lemma rateUnit_class (icase : bool) (c : char) :
  atom_matches icase
    (AClass false
       ([range "0" "9"] ++ cc ",.kK/"
        ++ [CSpace; range "A" "Z"; range "a" "z"])) c = true ->
  rateUnit c = true.
Proof.
  intros H. apply class_matches in H as (it & Hin & H).
  unfold rateUnit.
  destruct Hin
    as [<- | [<- | [<- | [<- | [<- | [<- | [<- | [<- | [<- | []]]]]]]]]];
    try (cbn [citem_matches] in H; apply symbol_matches in H;
         [subst c; reflexivity | reflexivity]).
  - apply digit_range in H. now rewrite H.
  - cbn [citem_matches] in H. apply char_matches_letter in H; [|reflexivity].
    rewrite H. now rewrite orb_true_r.
  - cbn [citem_matches] in H. apply char_matches_letter in H; [|reflexivity].
    rewrite H. now rewrite orb_true_r.
  - cbn [citem_matches] in H. rewrite H. now rewrite orb_true_r.
  - apply upper_range in H.
    rewrite H. now rewrite orb_true_r.
  - apply lower_range in H.
    rewrite H. now rewrite orb_true_r.
Qed.

(** X6.  A phone number the extractor returns holds digits, white space
    and the signs [+ ( ) - .] only; a rate holds digits, ASCII letters,
    white space and the signs [, . /] only, so never the dollar sign the
    pattern lets precede it. *)
Theorem phone_and_rate_units (inputText : value) (e : ExtractedFields) :
  extractPoDetails inputText = Returned e ->
  madeOf phoneUnit (phone_number e)
  /\ madeOf rateUnit (rate e)
  /\ (forall v, rate e = Some v -> ~ In 36%N v).
Proof.
  intros He.
  destruct (@extractPoDetails_fields _ _ He)
    as (_ & H2 & _ & _ & _ & _ & _ & H8 & _).
  assert (Hr : madeOf rateUnit (rate e)).
  { eapply (@find_madeOf ratePattern); [reflexivity | | exact H8].
    apply rateUnit_class. }
  split; [|split; [exact Hr|]].
  - eapply (@find_madeOf phoneNumberPattern); [reflexivity | | exact H2].
    apply phoneUnit_class.
  - intros v Hv Hin. rewrite Hv in Hr. cbn [madeOf] in Hr.
    rewrite Forall_forall in Hr. apply Hr in Hin. discriminate.
Qed.

Lemma phone_and_rate_units_witness :
  exists e,
    extractPoDetails
      (VString (js "Personal Phone Number (555) 010-9999 Rate: $55.00/hr"))
    = Returned e
    /\ phone_number e = Some (js "(555) 010-9999")
    /\ rate e = Some (js "55.00/hr")
    /\ madeOf phoneUnit (phone_number e)
    /\ madeOf rateUnit (rate e).
Proof.
  eexists. split; [vm_compute; reflexivity|].
  split; [reflexivity|]. split; [reflexivity|].
  refine ((fun H => conj (proj1 H) (proj1 (proj2 H)))
            (@phone_and_rate_units
               (VString
                  (js "Personal Phone Number (555) 010-9999 Rate: $55.00/hr"))
               _ _)).
  vm_compute. reflexivity.
Defined.

Lemma localUnit_class (icase : bool) (c : char) :
  atom_matches icase
    (AClass false
       ([range "A" "Z"; range "a" "z"; range "0" "9"] ++ cc "._%+-")) c
  = true ->
  localUnit c = true.
Proof.
  intros H. apply class_matches in H as (it & Hin & H).
  unfold localUnit.
  destruct Hin as [<- | [<- | [<- | [<- | [<- | [<- | [<- | [<- | []]]]]]]]];
    try (cbn [citem_matches] in H; apply symbol_matches in H;
         [subst c; reflexivity | reflexivity]).
  - apply upper_range in H. now rewrite H.
  - apply lower_range in H. now rewrite H.
  - apply digit_range in H. rewrite H. now rewrite orb_true_r.
Qed.

Lemma domainUnit_class (icase : bool) (c : char) :
  atom_matches icase
    (AClass false
       ([range "A" "Z"; range "a" "z"; range "0" "9"] ++ cc ".-")) c
  = true ->
  domainUnit c = true.
Proof.
  intros H. apply class_matches in H as (it & Hin & H).
  unfold domainUnit.
  destruct Hin as [<- | [<- | [<- | [<- | [<- | []]]]]];
    try (cbn [citem_matches] in H; apply symbol_matches in H;
         [subst c; reflexivity | reflexivity]).
  - apply upper_range in H. now rewrite H.
  - apply lower_range in H. now rewrite H.
  - apply digit_range in H. rewrite H. now rewrite orb_true_r.
Qed.

Lemma letter_class (icase : bool) (c : char) :
  atom_matches icase (AClass false [range "A" "Z"; range "a" "z"]) c = true ->
  isLetter c = true.
Proof.
  intros H. apply class_matches in H as (it & Hin & H).
  destruct Hin as [<- | [<- | []]].
  - now apply upper_range in H.
  - now apply lower_range in H.
Qed.

Lemma oneOf_In (s : string) (c : char) : oneOf s c = true -> In c (js s).
Proof.
  unfold oneOf. intros H. apply existsb_exists in H as (x & Hin & H).
  apply N.eqb_eq in H. now subst x.
Qed.

Lemma localUnit_not_space (c : char) :
  localUnit c = true -> isWhiteSpace c = false.
Proof.
  unfold localUnit. intros H.
  apply orb_prop in H as [H | H]; [apply orb_prop in H as [H | H]|].
  - now apply letter_not_space.
  - now apply digit_not_space.
  - apply oneOf_In in H.
    destruct H as [<- | [<- | [<- | [<- | [<- | []]]]]]; reflexivity.
Qed.

Lemma domainUnit_local (c : char) : domainUnit c = true -> localUnit c = true.
Proof.
  unfold domainUnit, localUnit. intros H.
  apply orb_prop in H as [H | H]; [now rewrite H|].
  apply oneOf_In in H.
  destruct H as [<- | [<- | []]]; reflexivity.
Qed.

(** X7.  An address the extractor returns reads [local@domain.tld]: a
    non-empty local part of letters, digits and [. _ % + -], an at sign, a
    non-empty domain of letters, digits, dots and hyphens, a dot, and two
    or more ASCII letters; it holds no white space. *)
Theorem email_shape (inputText : value) (e : ExtractedFields) (v : jsstring) :
  extractPoDetails inputText = Returned e ->
  email e = Some v ->
  exists l d t,
    v = l ++ 64%N :: d ++ 46%N :: t
    /\ l <> [] /\ Forall (fun c => localUnit c = true) l
    /\ d <> [] /\ Forall (fun c => domainUnit c = true) d
    /\ 2 <= length t /\ Forall (fun c => isLetter c = true) t.
Proof.
  intros He Hv.
  destruct (@extractPoDetails_fields _ _ He) as (_ & _ & H & _).
  rewrite Hv in H.
  apply find_group in H as (r1 & g & Hin & -> & Hs).
  destruct Hin as [<- | []].
  change (spans true
            (RSeq (RQuant
                     (AClass false
                        ([range "A" "Z"; range "a" "z"; range "0" "9"]
                         ++ cc "._%+-")) 1 None true)
               (RSeq (RAtom (AChar 64%N))
                  (RSeq (RQuant
                           (AClass false
                              ([range "A" "Z"; range "a" "z"; range "0" "9"]
                               ++ cc ".-")) 1 None true)
                     (RSeq (RAtom (AChar 46%N))
                        (RQuant (AClass false [range "A" "Z"; range "a" "z"])
                           2 None true))))) g) in Hs.
  cbn [spans] in Hs.
  destruct Hs as (l & w1 & -> & (Hl1 & _ & Hl) & a & w2 & -> & (ca & -> & Ha)
                  & d & w3 & -> & (Hd1 & _ & Hd) & b & t & ->
                  & (cb & -> & Hb) & Ht2 & _ & Ht).
  cbn [atom_matches] in Ha, Hb.
  apply symbol_matches in Ha; [|reflexivity].
  apply symbol_matches in Hb; [|reflexivity]. subst ca cb.
  assert (Hl' : Forall (fun c => localUnit c = true) l)
    by (eapply Forall_impl; [|exact Hl]; apply localUnit_class).
  assert (Hd' : Forall (fun c => domainUnit c = true) d)
    by (eapply Forall_impl; [|exact Hd]; apply domainUnit_class).
  assert (Ht' : Forall (fun c => isLetter c = true) t)
    by (eapply Forall_impl; [|exact Ht]; apply letter_class).
  rewrite trim_solid.
  - exists l, d, t. simpl.
    repeat split; auto; intros ->; simpl in *; lia.
  - apply Forall_app. split.
    + eapply Forall_impl; [|exact Hl']. apply localUnit_not_space.
    + simpl. constructor; [reflexivity|].
      apply Forall_app. split.
      * eapply Forall_impl; [|exact Hd'].
        intros c Hc. now apply localUnit_not_space, domainUnit_local.
      * constructor; [reflexivity|].
        eapply Forall_impl; [|exact Ht']. apply letter_not_space.
Qed.

Lemma email_shape_witness :
  exists l d t,
    js "jane.doe@example.com" = l ++ 64%N :: d ++ 46%N :: t
    /\ l <> [] /\ Forall (fun c => localUnit c = true) l
    /\ d <> [] /\ Forall (fun c => domainUnit c = true) d
    /\ 2 <= length t /\ Forall (fun c => isLetter c = true) t.
Proof.
  eapply (@email_shape
            (VString (js "Email ID jane.doe@example.com Location USA")));
    [vm_compute; reflexivity | reflexivity].
Defined.

(* ================================================================== *)
(** * The server side: what comes out *)
(* ================================================================== *)

Lemma extractPoDetails_returns (inputText : value) :
  exists e, extractPoDetails inputText = Returned e /\ wellFormed e.
Proof.
  unfold extractPoDetails.
  set (text := normalizeText inputText).
  set (sec := sectionOrEmpty (interviewSection text)).
  destruct (find_returns candidateNamePattern text eq_refl) as (f1 & -> & H1).
  destruct (find_returns phoneNumberPattern text eq_refl) as (f2 & -> & H2).
  destruct (find_returns emailPattern text eq_refl) as (f3 & -> & H3).
  destruct (find_returns locationPattern text eq_refl) as (f4 & -> & H4).
  destruct (find_returns positionAppliedPattern text eq_refl) as (f5 & -> & H5).
  destruct (find_returns jobLocationPattern text eq_refl) as (f6 & -> & H6).
  destruct (find_returns endClientPattern text eq_refl) as (f7 & -> & H7).
  destruct (find_returns ratePattern text eq_refl) as (f8 & -> & H8).
  destruct (find_returns supportByPattern sec eq_refl) as (f9 & -> & H9).
  destruct (find_returns teamLeadPattern sec eq_refl) as (f10 & -> & H10).
  destruct (find_returns managerPattern sec eq_refl) as (f11 & -> & H11).
  eexists. split; [reflexivity|].
  unfold wellFormed. simpl. repeat constructor; assumption.
Qed.

Lemma htmlToText_outcome (htmlContent : value) :
  exists r,
    htmlToText htmlContent = Returned r
    /\ match r with
       | inl s => s = [] /\ falsy htmlContent = true
       | inr e => wellFormed e /\ falsy htmlContent = false
       end.
Proof.
  unfold htmlToText. destruct (falsy htmlContent) eqn:E.
  - exists (inl []). auto.
  - destruct (extractPoDetails_returns (VString (htmlText htmlContent)))
      as (e & -> & He).
    exists (inr e). cbn [bind]. auto.
Qed.

(** X1.  [htmlToText] never throws, whatever the body: it answers the
    empty string exactly on a missing or empty body ([undefined], [null]
    or the empty string), and otherwise an object whose eleven fields are
    each [null] or a trimmed string. *)
Theorem htmlToText_returns (htmlContent : value) :
  exists r,
    htmlToText htmlContent = Returned r
    /\ match r with
       | inl s => s = [] /\ falsy htmlContent = true
       | inr e => wellFormed e /\ falsy htmlContent = false
       end.
Proof. exact (htmlToText_outcome htmlContent). Qed.

Lemma collapse_length (s : jsstring) :
  forall b, length (collapse b s) <= length s.
Proof.
  induction s as [|c s IH]; intros b; simpl; [lia|].
  destruct (isWhiteSpace c); [destruct b|]; simpl;
    match goal with |- context [collapse ?b' s] => specialize (IH b') end;
    lia.
Qed.

Lemma singleSpaced_In (s : jsstring) :
  forall b c,
    singleSpaced b s = true -> In c s -> isWhiteSpace c = true -> c = 32%N.
Proof.
  induction s as [|d s IH]; intros b c H Hin Hc; [contradiction|].
  simpl in H. destruct Hin as [-> | Hin].
  - rewrite Hc in H. apply andb_prop in H as [H _].
    apply andb_prop in H as [H _]. now apply N.eqb_eq in H.
  - destruct (isWhiteSpace d).
    + apply andb_prop in H as [_ H]. eauto.
    + eauto.
Qed.

(** No two white-space code units follow each other. *)
Lemma singleSpaced_pair (s : jsstring) :
  forall b u c d w,
    singleSpaced b s = true -> s = u ++ c :: d :: w ->
    isWhiteSpace c = true -> isWhiteSpace d = false.
Proof.
  induction s as [|x s IH]; intros b u c d w H E Hc.
  - now destruct u.
  - destruct u as [|y u]; simpl in E; injection E as -> ->.
    + destruct (isWhiteSpace d) eqn:Ed; [|reflexivity].
      cbn [singleSpaced] in H. rewrite Hc, Ed in H.
      apply andb_prop in H as [_ H]. apply andb_prop in H as [H _].
      apply andb_prop in H as [_ H]. discriminate.
    + simpl in H. destruct (isWhiteSpace y).
      * apply andb_prop in H as [_ H]. eapply IH; eauto.
      * eapply IH; eauto.
Qed.

(** X2.  The text [normalizeText] returns is never longer than
    [String(text)]; its only white space is the space U+0020 (no tab, line
    break or no-break space is left); no two spaces follow each other; and
    it neither starts nor ends with one ([trim] leaves it alone). *)
Theorem normalizeText_shape (text : value) :
  length (normalizeText text) <= length (toString text)
  /\ (forall c, In c (normalizeText text) -> isWhiteSpace c = true ->
                c = 32%N)
  /\ (forall u c d w,
        normalizeText text = u ++ c :: d :: w ->
        isWhiteSpace c = true -> isWhiteSpace d = false)
  /\ trim (normalizeText text) = normalizeText text.
Proof.
  pose proof (normalizeText_singleSpaced text) as HS.
  split; [|split; [|split]].
  - rewrite normalizeText_eq.
    etransitivity; [apply trim_length|].
    etransitivity; [apply collapse_length|].
    now rewrite length_map.
  - intros c. now apply singleSpaced_In with (b := false).
  - intros u c d w. now apply singleSpaced_pair with (b := false).
  - rewrite normalizeText_eq. apply trim_idem.
Qed.

(** X3.  The flat text [htmlToText] hands to the extractor holds no tag
    and no entity of the no-break space: every "<" left in it is directly
    followed by ">" or has no ">" after it, and "&nbsp;" occurs nowhere,
    in either case. *)
Theorem body_text_has_no_markup (htmlContent : value) :
  tagFree (htmlText htmlContent) /\ entityFree (htmlText htmlContent).
Proof. exact (htmlText_clean htmlContent). Qed.

(* ================================================================== *)
(** * The fetched list *)
(* ================================================================== *)

Lemma mapM_returns {A B : Type} (f : A -> outcome B) (l : list A) :
  (forall x, In x l -> exists y, f x = Returned y) ->
  exists ys,
    mapM f l = Returned ys /\ Forall2 (fun x y => f x = Returned y) l ys.
Proof.
  induction l as [|x l IH]; intros H; simpl.
  - exists []. auto.
  - destruct (H x) as (y & Hy); [now left|].
    destruct IH as (ys & Hys & HF); [intros z Hz; apply H; now right|].
    exists (y :: ys). rewrite Hy, Hys. cbn [bind]. auto.
Qed.

Lemma Forall2_sorted {A B : Type} (Q : A -> B -> Prop)
    (R : A -> A -> Prop) (R' : B -> B -> Prop) (l : list A) (l' : list B) :
  (forall a b a' b', Q a a' -> Q b b' -> R a b -> R' a' b') ->
  Forall2 Q l l' -> StronglySorted R l -> StronglySorted R' l'.
Proof.
  intros HR. induction 1 as [|a a' l l' Ha HF IH]; intros HS; [constructor|].
  inversion HS as [|? ? HSl Hall]; subst.
  constructor; [auto|].
  clear IH HS HSl. induction HF as [|b b' l l' Hb HF IH]; [constructor|].
  inversion Hall; subst. constructor; eauto.
Qed.

Section FetchFacts.

Context {env : DateEnv}.

Lemma toRecord_returns (email : Email.t) :
  exists item,
    toRecord email = Returned item
    /\ receivedDateTime item = orElse (Email.receivedDateTime email) [].
Proof.
  unfold toRecord.
  match goal with
  | |- context [htmlToText ?v] =>
      destruct (htmlToText_outcome v) as (r & -> & _)
  end.
  cbn [bind]. eexists. split; reflexivity.
Qed.

Lemma toRecord_time (email : Email.t) (item : Item) :
  toRecord email = Returned item -> timeOf item = receivedOf email.
Proof.
  intros H. destruct (toRecord_returns email) as (item' & H' & Hr).
  rewrite H' in H. injection H as <-.
  unfold timeOf, receivedOf. now rewrite Hr.
Qed.

(** The order of the sorted messages, on those with a time value. *)
Lemma sorted_messages (allEmails : list Email.t) :
  Forall (fun m => receivedOf m <> None) allEmails ->
  StronglySorted
    (fun a b =>
       exists x y, receivedOf a = Some x /\ receivedOf b = Some y
                   /\ (x <= y)%Z)
    (js_sort compareReceived allEmails).
Proof.
  apply js_sort_sorted with (P := fun m => receivedOf m <> None).
  - intros a b Ha Hb. unfold compareReceived. fold (receivedOf a).
    fold (receivedOf b).
    destruct (receivedOf a) as [x|]; [|contradiction].
    destruct (receivedOf b) as [y|]; [|contradiction].
    intros H. exists x, y. repeat split. lia.
  - intros a b Ha Hb. unfold compareReceived. fold (receivedOf a).
    fold (receivedOf b).
    destruct (receivedOf a) as [x|]; [|contradiction].
    destruct (receivedOf b) as [y|]; [|contradiction].
    intros H. exists y, x. repeat split. lia.
  - intros a b c _ _ _ (x & y & Hx & Hy & Hxy) (y' & z & Hy' & Hz & Hyz).
    rewrite Hy in Hy'. injection Hy' as <-.
    exists x, z. repeat split; auto. lia.
Qed.

(** X8.  Whatever the messages, their bodies and their timestamps, the
    work of [fetchPoMails] on the collected messages returns (no message
    makes the extraction throw); the list holds one record for each
    message: as many records as messages, each the record of one message,
    in the order of the sorted messages, which are the collected ones
    rearranged.  When the timestamp of every message is missing, empty or
    parseable, the records come oldest first. *)
Theorem fetched_oldest_first (allEmails : list Email.t) :
  exists sorted items,
    mapped allEmails = Returned items
    /\ Permutation allEmails sorted
    /\ Forall2 (fun m item => toRecord m = Returned item) sorted items
    /\ length items = length allEmails
    /\ (Forall (fun m => receivedOf m <> None) allEmails ->
        StronglySorted notNewer items).
Proof.
  unfold mapped.
  destruct (@mapM_returns _ _ toRecord (js_sort compareReceived allEmails))
    as (items & Hm & HF).
  { intros m _. destruct (toRecord_returns m) as (item & H & _). eauto. }
  exists (js_sort compareReceived allEmails), items.
  split; [exact Hm|]. split; [apply js_sort_perm|]. split; [exact HF|].
  split.
  - rewrite <- (Forall2_length HF). symmetry.
    apply Permutation_length, js_sort_perm.
  - intros Ht.
    eapply Forall2_sorted; [| exact HF | apply sorted_messages, Ht].
    intros a b a' b' Ha Hb (x & y & Hx & Hy & Hxy). cbv beta in Ha, Hb.
    apply toRecord_time in Ha, Hb. unfold notNewer, timeValue.
    now rewrite Ha, Hb, Hx, Hy.
Qed.

End FetchFacts.

(** Two messages of April and March 2024, and one whose timestamp does
    not parse beside one of March 2024. *)
Lemma fetched_oldest_first_witness :
  (exists sorted items,
     mapped [UTC.message "2" "2024-04-02T09:30:00Z";
             UTC.message "1" "2024-03-05T10:00:00Z"] = Returned items
     /\ Permutation [UTC.message "2" "2024-04-02T09:30:00Z";
                     UTC.message "1" "2024-03-05T10:00:00Z"] sorted
     /\ Forall2 (fun m item => toRecord m = Returned item) sorted items
     /\ length items = 2
     /\ StronglySorted notNewer items)
  /\ (exists items,
        mapped [UTC.message "3" "last week";
                UTC.message "1" "2024-03-05T10:00:00Z"] = Returned items
        /\ length items = 2).
Proof.
  split.
  - destruct (@fetched_oldest_first UTC.env
                [UTC.message "2" "2024-04-02T09:30:00Z";
                 UTC.message "1" "2024-03-05T10:00:00Z"])
      as (sorted & items & Hm & Hp & HF & Hl & Hs).
    exists sorted, items. repeat split; auto.
    apply Hs. repeat constructor; vm_compute; discriminate.
  - destruct (@fetched_oldest_first UTC.env
                [UTC.message "3" "last week";
                 UTC.message "1" "2024-03-05T10:00:00Z"])
      as (sorted & items & Hm & _ & _ & Hl & _).
    exists items. split; [exact Hm | exact Hl].
Defined.

(* ================================================================== *)
(** * The list pane: every record once, under its month and candidate *)
(* ================================================================== *)

Lemma filter_filter {A : Type} (p q : A -> bool) (l : list A) :
  filter q (filter p l) = filter (fun x => p x && q x) l.
Proof.
  induction l as [|x l IH]; simpl; [reflexivity|].
  destruct (p x); simpl; [|exact IH].
  destruct (q x); now rewrite IH.
Qed.

Lemma flat_map_pointwise {A B : Type} (f g : A -> list B) (l : list A) :
  (forall x, In x l -> Permutation (f x) (g x)) ->
  Permutation (flat_map f l) (flat_map g l).
Proof.
  induction l as [|x l IH]; intros H; simpl; [constructor|].
  apply Permutation_app; [apply H; now left|].
  apply IH. intros y Hy. apply H. now right.
Qed.

Lemma flat_map_of_map {A B C : Type} (f : A -> B) (g : B -> list C)
    (l : list A) :
  flat_map g (map f l) = flat_map (fun x => g (f x)) l.
Proof.
  induction l as [|x l IH]; simpl; [reflexivity|]. now rewrite IH.
Qed.

Lemma length_flat_map {A B : Type} (f : A -> list B) (l : list A) :
  length (flat_map f l) = list_sum (map (fun x => length (f x)) l).
Proof.
  induction l as [|x l IH]; simpl; [reflexivity|].
  now rewrite length_app, IH.
Qed.

(** A value that grows by one element, in a map: the elements of the map
    grow by that one. *)
Lemma flat_map_set {V A : Type} (f : V -> list A) (k : jsstring) (v v' : V)
    (x : A) (m : jsmap V) :
  map_get k m = Some v -> f v' = f v ++ [x] ->
  Permutation (flat_map (fun p => f (snd p)) (map_set k v' m))
              (x :: flat_map (fun p => f (snd p)) m).
Proof.
  intros Hget Hf. induction m as [|[k1 v1] m IH]; simpl in *; [discriminate|].
  destruct (str_eqb k k1); simpl.
  - injection Hget as ->. rewrite Hf, <- List.app_assoc. simpl.
    symmetry. apply Permutation_middle.
  - rewrite (IH Hget). symmetry. apply Permutation_middle.
Qed.

Lemma flat_map_new {V A : Type} (f : V -> list A) (k : jsstring) (v : V)
    (x : A) (m : jsmap V) :
  f v = [x] ->
  Permutation (flat_map (fun p => f (snd p)) (m ++ [(k, v)]))
              (x :: flat_map (fun p => f (snd p)) m).
Proof.
  intros Hf. rewrite flat_map_app. simpl. rewrite Hf. simpl.
  symmetry. apply Permutation_cons_append.
Qed.

Lemma fold_left_perm {V A : Type} (f : V -> list A)
    (step : jsmap V -> A -> jsmap V) :
  (forall m x,
     Permutation (flat_map (fun p => f (snd p)) (step m x))
                 (x :: flat_map (fun p => f (snd p)) m)) ->
  forall l m,
    Permutation (flat_map (fun p => f (snd p)) (fold_left step l m))
                (flat_map (fun p => f (snd p)) m ++ l).
Proof.
  intros Hstep. induction l as [|x l IH]; intros m; simpl.
  - now rewrite List.app_nil_r.
  - rewrite IH, Hstep. simpl. apply Permutation_middle.
Qed.

Section GroupingFacts.

Context {env : DateEnv}.

(** One turn of the inner loop, by cases on the key being new. *)
Lemma addToCandidate_eq (m : jsmap (list Item)) (item : Item) :
  addToCandidate m item
  = match map_get (candidateKey item) m with
    | Some g => map_set (candidateKey item) (g ++ [item]) m
    | None => m ++ [(candidateKey item, [item])]
    end.
Proof.
  unfold addToCandidate, map_has.
  destruct (map_get (candidateKey item) m) as [g|] eqn:E.
  - now rewrite E.
  - rewrite map_get_set_same, map_set_set. now apply map_set_absent.
Qed.

Lemma monthsOf_step (done : list Item) (m : jsmap MonthEntry) (item : Item) :
  monthsOf done m -> monthsOf (done ++ [item]) (addToMonth m item).
Proof.
  intros H label. rewrite addToMonth_eq, filter_app. cbn [filter].
  set (L := formatMonth (receivedDateTime item)).
  change (inMonth label item) with (str_eqb L label).
  pose proof (H L) as HL. pose proof (H label) as Hl.
  destruct (map_get L m) as [b|] eqn:E.
  - destruct (filter (inMonth L) done) as [|r0 rest] eqn:EL; [discriminate|].
    injection HL as ->. cbn [sortKey items].
    destruct (str_eqb L label) eqn:El.
    + apply str_eqb_eq in El. subst label.
      now rewrite map_get_set_same, EL.
    + apply str_eqb_neq in El.
      rewrite map_get_set_other by congruence.
      now rewrite List.app_nil_r.
  - rewrite <- (map_set_absent _ _ _ E).
    destruct (filter (inMonth L) done) as [|r0 rest] eqn:EL; [|discriminate].
    destruct (str_eqb L label) eqn:El.
    + apply str_eqb_eq in El. subst label.
      now rewrite map_get_set_same, EL.
    + apply str_eqb_neq in El.
      rewrite map_get_set_other by congruence.
      now rewrite List.app_nil_r.
Qed.

Lemma monthsOf_all (filtered : list Item) :
  monthsOf filtered (monthBuckets filtered).
Proof.
  unfold monthBuckets.
  assert (G : forall l done m,
             monthsOf done m ->
             monthsOf (done ++ l) (fold_left addToMonth l m)).
  { induction l as [|x l IH]; intros done m H; simpl.
    - now rewrite List.app_nil_r.
    - replace (done ++ x :: l) with ((done ++ [x]) ++ l)
        by now rewrite <- List.app_assoc.
      apply IH, monthsOf_step, H. }
  apply (G filtered [] []). intros label. reflexivity.
Qed.

Lemma groupsOfMonth_step (done : list Item) (m : jsmap (list Item))
    (item : Item) :
  groupsOfMonth done m ->
  groupsOfMonth (done ++ [item]) (addToCandidate m item).
Proof.
  intros H k. rewrite addToCandidate_eq, filter_app. cbn [filter].
  set (K := candidateKey item).
  change (inGroup k item) with (str_eqb K k).
  pose proof (H K) as HK. pose proof (H k) as Hk.
  destruct (map_get K m) as [g|] eqn:E.
  - destruct (filter (inGroup K) done) as [|r0 rest] eqn:EK; [discriminate|].
    injection HK as ->.
    destruct (str_eqb K k) eqn:El.
    + apply str_eqb_eq in El. subst k.
      now rewrite map_get_set_same, EK.
    + apply str_eqb_neq in El.
      rewrite map_get_set_other by congruence.
      now rewrite List.app_nil_r.
  - rewrite <- (map_set_absent _ _ _ E).
    destruct (filter (inGroup K) done) as [|r0 rest] eqn:EK; [|discriminate].
    destruct (str_eqb K k) eqn:El.
    + apply str_eqb_eq in El. subst k.
      now rewrite map_get_set_same, EK.
    + apply str_eqb_neq in El.
      rewrite map_get_set_other by congruence.
      now rewrite List.app_nil_r.
Qed.

Lemma candidate_buckets (l : list Item) :
  groupsOfMonth l (fold_left addToCandidate l [])
  /\ NoDup (map fst (fold_left addToCandidate l [])).
Proof.
  assert (G : forall l done m,
             groupsOfMonth done m /\ NoDup (map fst m) ->
             groupsOfMonth (done ++ l) (fold_left addToCandidate l m)
             /\ NoDup (map fst (fold_left addToCandidate l m))).
  { clear l. induction l as [|x l IH]; intros done m [H HN]; simpl.
    - now rewrite List.app_nil_r.
    - replace (done ++ x :: l) with ((done ++ [x]) ++ l)
        by now rewrite <- List.app_assoc.
      apply IH. split; [now apply groupsOfMonth_step|].
      rewrite addToCandidate_eq.
      destruct (map_get (candidateKey x) m) eqn:E.
      + now apply map_set_NoDup.
      + rewrite <- (map_set_absent _ _ _ E). now apply map_set_NoDup. }
  apply (G l [] []). split; [intros k; reflexivity | constructor].
Qed.

(** A month of the pane comes from a bucket, and the bucket holds the
    records of its label. *)
Lemma grouped_month (filtered : list Item) (m : Month) :
  In m (grouped filtered) ->
  exists e,
    m = toMonth (monthLabel m, e)
    /\ In (monthLabel m, e) (monthBuckets filtered)
    /\ items e = filter (inMonth (monthLabel m)) filtered
    /\ items e <> [].
Proof.
  unfold grouped. intros H. apply in_map_iff in H as ([label e] & <- & H).
  apply js_sort_In in H. exists e. cbn [toMonth monthLabel fst].
  split; [reflexivity|]. split; [exact H|].
  apply In_map_get in H; [|apply bucketsOf_monthBuckets].
  rewrite (monthsOf_all filtered label) in H.
  destruct (filter (inMonth label) filtered) as [|r0 rest]; [discriminate|].
  injection H as <-. cbn [items]. split; [reflexivity | discriminate].
Qed.

(** A group of a month comes from a candidate bucket of its records. *)
Lemma month_group (label : jsstring) (e : MonthEntry) (g : Group) :
  In g (groups (toMonth (label, e))) ->
  groupItems g = filter (inGroup (key g)) (items e)
  /\ groupItems g <> [] /\ displayName g = key g.
Proof.
  cbn [toMonth groups snd]. intros H.
  apply in_map_iff in H as ([k gi] & <- & H).
  cbn [groupItems key displayName fst snd].
  destruct (candidate_buckets (items e)) as [HG HN].
  apply In_map_get in H; [|exact HN].
  rewrite (HG k) in H.
  destruct (filter (inGroup k) (items e)) as [|r0 rest]; [discriminate|].
  injection H as <-. repeat split. discriminate.
Qed.

Lemma groups_perm (entry : jsstring * MonthEntry) :
  Permutation (flat_map groupItems (groups (toMonth entry)))
              (items (snd entry)).
Proof.
  cbn [toMonth groups]. rewrite flat_map_of_map. cbn [groupItems].
  rewrite (fold_left_perm (fun v : list Item => v) addToCandidate).
  - reflexivity.
  - intros m x. rewrite addToCandidate_eq.
    destruct (map_get (candidateKey x) m) as [g|] eqn:E.
    + exact (@flat_map_set _ _ (fun v : list Item => v) _ g (g ++ [x]) x m
               E eq_refl).
    + exact (@flat_map_new _ _ (fun v : list Item => v) _ [x] x m eq_refl).
Qed.

Lemma monthBuckets_perm (filtered : list Item) :
  Permutation (flat_map (fun p => items (snd p)) (monthBuckets filtered))
              filtered.
Proof.
  unfold monthBuckets.
  rewrite (fold_left_perm items addToMonth).
  - reflexivity.
  - intros m x. rewrite addToMonth_eq.
    destruct (map_get (formatMonth (receivedDateTime x)) m) as [b|] eqn:E.
    + exact (@flat_map_set _ _ items _ b
               {| sortKey := sortKey b; items := items b ++ [x] |} x m
               E eq_refl).
    + exact (@flat_map_new _ _ items _
               {| sortKey := monthSortKey (receivedDateTime x);
                  items := [x] |} x m eq_refl).
Qed.

Lemma allItems_perm (filtered : list Item) :
  Permutation (allItems (grouped filtered)) filtered.
Proof.
  unfold allItems, grouped. rewrite flat_map_of_map.
  rewrite (flat_map_pointwise _ (fun p => items (snd p)))
    by (intros entry _; apply groups_perm).
  unfold sortedBuckets. rewrite <- js_sort_perm.
  apply monthBuckets_perm.
Qed.

Lemma monthCount_length (gs : list Group) :
  monthCount gs = length (flat_map groupItems gs).
Proof.
  unfold monthCount.
  assert (G : forall l n,
             fold_left (fun acc group => acc + length (groupItems group)) l n
             = n + length (flat_map groupItems l)).
  { induction l as [|g l IH]; intros n; simpl; [lia|].
    rewrite IH, length_app. lia. }
  apply (G gs 0).
Qed.

(** X9.  Every group of the list pane holds exactly the records of
    [filtered] that have the label of its month and its candidate key
    ([candidate_name], else the subject, else "Untitled"), in the order of
    [filtered]; no group is empty, and the name shown is the key. *)
Theorem groups_hold_their_records (filtered : list Item) (m : Month)
    (g : Group) :
  In m (grouped filtered) -> In g (groups m) ->
  groupItems g
  = filter (fun r => inMonth (monthLabel m) r && inGroup (key g) r) filtered
  /\ groupItems g <> []
  /\ displayName g = key g.
Proof.
  intros Hm Hg.
  destruct (grouped_month _ _ Hm) as (e & Em & _ & He & _).
  rewrite Em in Hg.
  apply month_group in Hg as (Hi & Hne & Hd).
  split; [rewrite Hi, He; apply filter_filter | auto].
Qed.

(** X10.  The list pane shows every record of [filtered] exactly once:
    the records under all groups of all months are a rearrangement of
    [filtered].  The counter of a month is the number of records with the
    label of the month, and the counters add up to the number of results. *)
Theorem every_record_once (filtered : list Item) :
  Permutation (allItems (grouped filtered)) filtered
  /\ Forall
       (fun m =>
          monthCount (groups m)
          = length (filter (inMonth (monthLabel m)) filtered))
       (grouped filtered)
  /\ list_sum (map (fun m => monthCount (groups m)) (grouped filtered))
     = length filtered.
Proof.
  split; [apply allItems_perm|]. split.
  - apply Forall_forall. intros m Hm.
    destruct (grouped_month _ _ Hm) as (e & Em & _ & He & _).
    rewrite monthCount_length, Em.
    rewrite (Permutation_length (groups_perm _)). cbn [snd].
    now rewrite He.
  - rewrite <- (Permutation_length (allItems_perm filtered)).
    unfold allItems. rewrite length_flat_map.
    f_equal. apply map_ext. intros m. apply monthCount_length.
Qed.

(** X11.  The labels of the months of the list pane differ from one
    another, and so do the keys of the groups of a month (they are the
    keys React is given); no month is without a group. *)
Theorem pane_keys_differ (filtered : list Item) :
  NoDup (map monthLabel (grouped filtered))
  /\ Forall (fun m => NoDup (map key (groups m)) /\ groups m <> [])
            (grouped filtered).
Proof.
  split.
  - unfold grouped. rewrite map_map. cbn [toMonth monthLabel].
    apply Permutation_NoDup with (l := map fst (monthBuckets filtered)).
    + apply Permutation_map. apply js_sort_perm.
    + apply bucketsOf_monthBuckets.
  - apply Forall_forall. intros m Hm.
    destruct (grouped_month _ _ Hm) as (e & Em & _ & He & Hne).
    rewrite Em. cbn [toMonth groups snd]. rewrite map_map. cbn [key].
    destruct (candidate_buckets (items e)) as [HG HN].
    split; [exact HN|].
    destruct (items e) as [|r0 rest] eqn:Ei; [contradiction|].
    intros Hnil. apply map_eq_nil in Hnil.
    pose proof (HG (candidateKey r0)) as H0. rewrite Hnil in H0.
    cbn [filter] in H0. unfold inGroup in H0 at 1.
    rewrite str_eqb_refl in H0. discriminate.
Qed.

End GroupingFacts.

Lemma groups_hold_their_records_witness :
  exists m g,
    In m (grouped [UTC.mail "1" "2024-03-05T10:00:00Z" "AcmeCo" "A";
                   UTC.mail "2" "" "Initech" "B";
                   UTC.mail "3" "2024-03-20T16:45:00Z" "Globex" "C"])
    /\ In g (groups m)
    /\ monthLabel m = js "March 2024"
    /\ groupItems g
       = filter (fun r => inMonth (monthLabel m) r && inGroup (key g) r)
           [UTC.mail "1" "2024-03-05T10:00:00Z" "AcmeCo" "A";
            UTC.mail "2" "" "Initech" "B";
            UTC.mail "3" "2024-03-20T16:45:00Z" "Globex" "C"].
Proof.
  eexists. eexists.
  split; [vm_compute; left; reflexivity|].
  split; [vm_compute; left; reflexivity|].
  split; [reflexivity|].
  refine (proj1 (@groups_hold_their_records UTC.env _ _ _ _ _));
    vm_compute; left; reflexivity.
Defined.

(* ================================================================== *)
(** * The sort key of a month *)
(* ================================================================== *)

(** No year reads "0000". *)
Lemma numToString_not_zeros (z : Z) (rest : jsstring) :
  numToString z ++ 45%N :: rest <> js "0000-00".
Proof.
  unfold numToString. destruct z as [|p|p]; simpl.
  - discriminate.
  - destruct (to_uint_head p) as (c & r & -> & Hc & _). simpl.
    intros [= -> _]. lia.
  - discriminate.
Qed.

(** X12.  The sort key "0000-00" stands for the unparseable timestamps
    and for nothing else: a timestamp that parses never gets it, whatever
    its year, so no real month shares the sort key of "Unknown Month". *)
Theorem sentinel_key_is_reserved {env : DateEnv} (v : jsstring) :
  monthSortKey v = js "0000-00" <-> dateOf v = None.
Proof.
  unfold monthSortKey. destruct (dateOf v) as [t|]; [|tauto].
  split; [|discriminate]. intros H. exfalso.
  revert H. unfold yearString. apply numToString_not_zeros.
Qed.

(* ================================================================== *)
(** * Company deduplication: further facts *)
(* ================================================================== *)

Lemma js_sort_fix {A : Type} (cmp : A -> A -> Z) (R : A -> A -> Prop)
    (l : list A) :
  (forall x y, In x l -> In y l -> R x y -> (cmp x y <= 0)%Z) ->
  StronglySorted R l -> js_sort cmp l = l.
Proof.
  intros Hcmp HS. induction HS as [|x l HS IH Hall]; [reflexivity|].
  simpl. rewrite IH by (intros; apply Hcmp; simpl; auto).
  destruct l as [|y l]; [reflexivity|]. simpl.
  inversion Hall as [|? ? Hxy _]; subst.
  destruct (Z.leb_spec (cmp x y) 0) as [_|Hgt]; [reflexivity|].
  assert (Hle : (cmp x y <= 0)%Z) by (apply Hcmp; simpl; auto).
  lia.
Qed.

Section CompanyFacts.

Context {env : DateEnv}.

(** The company map of any group, parseable timestamps or not: one key
    for each company seen, each holding a record of that company. *)
Lemma company_map (l : list Item) :
  forall m,
    NoDup (map fst m) ->
    (forall k s, In (k, s) m -> companyKey s = k) ->
    NoDup (map fst (fold_left companyStep l m))
    /\ (forall k s,
          In (k, s) (fold_left companyStep l m) ->
          companyKey s = k /\ (In (k, s) m \/ In s l))
    /\ (forall k,
          In k (map fst (fold_left companyStep l m))
          <-> In k (map fst m) \/ In k (map companyKey l)).
Proof.
  induction l as [|x l IH]; intros m HN Hk; simpl.
  - repeat split; auto; tauto.
  - assert (HN' : NoDup (map fst (companyStep m x))).
    { unfold companyStep.
      destruct (map_get (companyKey x) m); [|now apply map_set_NoDup].
      destruct (time_gtb _ _); [now apply map_set_NoDup | exact HN]. }
    assert (Hin' : forall k s, In (k, s) (companyStep m x) ->
                               (k = companyKey x /\ s = x) \/ In (k, s) m).
    { intros k s. unfold companyStep.
      destruct (map_get (companyKey x) m); [|apply In_map_set].
      destruct (time_gtb _ _); [apply In_map_set | auto]. }
    assert (Hkeys : forall k, In k (map fst (companyStep m x))
                              <-> In k (map fst m) \/ k = companyKey x).
    { intros k. unfold companyStep.
      destruct (map_get (companyKey x) m) as [s0|] eqn:E.
      - assert (Hx : In (companyKey x) (map fst m)).
        { apply map_get_In in E. now apply (in_map fst) in E. }
        destruct (time_gtb _ _).
        + rewrite (map_set_keys_present _ _ _ E).
          split; [auto | intros [H | ->]; auto].
        + split; [auto | intros [H | ->]; auto].
      - rewrite (map_set_absent _ _ _ E), map_app, in_app_iff. simpl.
        intuition. }
    destruct (IH (companyStep m x) HN') as (H1 & H2 & H3).
    { intros k s H. destruct (Hin' _ _ H) as [[-> ->] | H']; auto. }
    split; [exact H1|]. split.
    + intros k s H. destruct (H2 _ _ H) as (Hks & [H' | H']).
      * split; [exact Hks|].
        destruct (Hin' _ _ H') as [[-> ->] | H'']; auto.
      * auto.
    + intros k. rewrite H3, Hkeys. intuition.
Qed.

Lemma latestPerCompany_keys (group : list Item) :
  Permutation (map companyKey (latestPerCompany group))
              (map fst (fold_left companyStep group [])).
Proof.
  unfold latestPerCompany.
  rewrite <- js_sort_perm, map_map.
  erewrite map_ext_in; [reflexivity|].
  intros [k s] Hin. simpl.
  destruct (@company_map group [] (NoDup_nil _)
              (fun k s (H : In (k, s) []) => match H with end))
    as (_ & H2 & _).
  now destruct (H2 _ _ Hin).
Qed.

Lemma one_per_company (group : list Item) :
  NoDup (map companyKey (latestPerCompany group))
  /\ (forall k, In k (map companyKey (latestPerCompany group))
                <-> In k (map companyKey group))
  /\ incl (latestPerCompany group) group.
Proof.
  destruct (@company_map group [] (NoDup_nil _)
              (fun k s (H : In (k, s) []) => match H with end))
    as (H1 & H2 & H3).
  pose proof (latestPerCompany_keys group) as HP.
  split; [|split].
  - eapply Permutation_NoDup; [symmetry; exact HP | exact H1].
  - intros k. split; intros H.
    + apply (Permutation_in _ HP) in H. apply H3 in H as [[] | H]. exact H.
    + apply (Permutation_in _ (Permutation_sym HP)). apply H3. now right.
  - intros s Hs. apply latestPerCompany_In in Hs as (k & Hin).
    destruct (H2 _ _ Hin) as (_ & [[] | H]). exact H.
Qed.

Lemma latestPerCompany_sorted (group : list Item) :
  Forall timed group -> StronglySorted notOlder (latestPerCompany group).
Proof.
  intros HT. unfold latestPerCompany.
  apply js_sort_sorted with (P := timed).
  - intros x y Hx Hy. rewrite (compareByDate_timed Hx Hy).
    unfold notOlder. lia.
  - intros x y Hx Hy. rewrite (compareByDate_timed Hx Hy).
    unfold notOlder. lia.
  - unfold notOlder. intros; lia.
  - rewrite Forall_forall in *. intros s Hs. apply HT.
    apply (proj2 (proj2 (one_per_company group))).
    unfold latestPerCompany. now apply js_sort_In.
Qed.

(** The head of the deduplicated list is a most recent record of the
    whole group. *)
Lemma latest_first (group : list Item) :
  Forall timed group -> group <> [] ->
  exists first rest,
    latestPerCompany group = first :: rest
    /\ In first group
    /\ forall r, In r group -> (timeValue r <= timeValue first)%Z.
Proof.
  intros HT Hne.
  destruct (companiesOf_all HT) as (_ & Hb & Hc).
  pose proof (latestPerCompany_sorted HT) as HS.
  destruct (one_per_company group) as (_ & _ & Hsub).
  assert (Hcover : forall r, In r group ->
            exists s, In s (latestPerCompany group)
                      /\ (timeValue r <= timeValue s)%Z).
  { intros r Hr. destruct (Hc _ Hr) as (s & Hin).
    exists s. split; [apply latestPerCompany_In; eauto|].
    destruct (Hb _ _ Hin) as (_ & l1 & l2 & E & H1 & H2).
    rewrite E in Hr.
    apply in_app_or in Hr as [Hr|[<-|Hr]].
    + specialize (H1 _ Hr eq_refl). lia.
    + lia.
    + exact (H2 _ Hr eq_refl). }
  destruct (latestPerCompany group) as [|first rest] eqn:E.
  - destruct group as [|r group]; [contradiction|].
    destruct (Hcover r) as (s & [] & _). now left.
  - exists first, rest. split; [reflexivity|].
    split; [apply Hsub; now left|].
    intros r Hr. destruct (Hcover r Hr) as (s & [<- | Hs] & Hle); [exact Hle|].
    inversion HS as [|? ? _ Hall]; subst.
    rewrite Forall_forall in Hall. specialize (Hall s Hs).
    unfold notOlder in Hall. lia.
Qed.

(** X13.  The record a group is shown by ([first], the head of the
    deduplicated list, whose sender, date, rate and support names make the
    row) is a most recent record of the whole group, for every non-empty
    group whose timestamps are all empty or parseable. *)
Theorem group_row_shows_latest (group : list Item) :
  Forall timed group -> group <> [] ->
  exists first rest,
    latestPerCompany group = first :: rest
    /\ In first group
    /\ forall r, In r group -> (timeValue r <= timeValue first)%Z.
Proof. exact (@latest_first group). Qed.

(** X14.  Whatever the timestamps, parseable or not, the deduplicated
    list of a group holds records of the group, one for each company key
    of the group and no two for the same, so "POs" counts the companies
    and never exceeds the size of the group. *)
Theorem one_record_per_company (group : list Item) :
  NoDup (map companyKey (latestPerCompany group))
  /\ (forall k, In k (map companyKey (latestPerCompany group))
                <-> In k (map companyKey group))
  /\ incl (latestPerCompany group) group
  /\ length (latestPerCompany group) <= length group.
Proof.
  destruct (one_per_company group) as (H1 & H2 & H3).
  repeat split; try apply H2; auto.
  apply NoDup_incl_length; [|exact H3].
  eapply NoDup_map_inv, H1.
Qed.

Lemma fold_companyStep_fresh (l : list Item) :
  forall m,
    NoDup (map companyKey l) ->
    (forall r, In r l -> map_get (companyKey r) m = None) ->
    fold_left companyStep l m = m ++ map (fun r => (companyKey r, r)) l.
Proof.
  induction l as [|x l IH]; intros m HN Hm; simpl.
  - now rewrite List.app_nil_r.
  - inversion HN as [|? ? Hx HN']; subst.
    assert (E : companyStep m x = m ++ [(companyKey x, x)]).
    { unfold companyStep. rewrite (Hm x) by now left.
      apply map_set_absent, Hm. now left. }
    rewrite E, IH; [now rewrite <- List.app_assoc | exact HN' |].
    intros r Hr.
    rewrite <- (map_set_absent _ x _ (Hm x (or_introl eq_refl))).
    rewrite map_get_set_other; [apply Hm; now right|].
    intros Heq. apply Hx. rewrite <- Heq. now apply in_map.
Qed.

(** X15.  Deduplicating a deduplicated list changes nothing, for every
    group whose timestamps are all empty or parseable. *)
Theorem dedup_is_idempotent (group : list Item) :
  Forall timed group ->
  latestPerCompany (latestPerCompany group) = latestPerCompany group.
Proof.
  intros HT.
  destruct (one_per_company group) as (HN & _ & Hsub).
  pose proof (latestPerCompany_sorted HT) as HS.
  set (d := latestPerCompany group) in *.
  unfold latestPerCompany at 1.
  rewrite (@fold_companyStep_fresh d [] HN) by reflexivity.
  cbn [app]. rewrite map_map. cbn [snd]. rewrite map_id.
  apply js_sort_fix with (R := notOlder); [|exact HS].
  intros x y Hx Hy Hxy.
  rewrite Forall_forall in HT.
  rewrite compareByDate_timed by (apply HT, Hsub; assumption).
  unfold notOlder in Hxy. lia.
Qed.

End CompanyFacts.

Lemma group_row_shows_latest_witness :
  exists first rest,
    latestPerCompany
      [UTC.mail "1" "2024-03-05T10:00:00Z" "AcmeCo" "A";
       UTC.mail "2" "2024-04-02T09:30:00Z" "Initech" "B";
       UTC.mail "3" "2024-01-15T08:00:00Z" "AcmeCo" "A"] = first :: rest
    /\ In first
         [UTC.mail "1" "2024-03-05T10:00:00Z" "AcmeCo" "A";
          UTC.mail "2" "2024-04-02T09:30:00Z" "Initech" "B";
          UTC.mail "3" "2024-01-15T08:00:00Z" "AcmeCo" "A"]
    /\ forall r,
         In r
           [UTC.mail "1" "2024-03-05T10:00:00Z" "AcmeCo" "A";
            UTC.mail "2" "2024-04-02T09:30:00Z" "Initech" "B";
            UTC.mail "3" "2024-01-15T08:00:00Z" "AcmeCo" "A"] ->
         (timeValue r <= timeValue first)%Z.
Proof.
  apply (@group_row_shows_latest UTC.env);
    [repeat constructor; vm_compute; discriminate | discriminate].
Defined.

Lemma dedup_is_idempotent_witness :
  latestPerCompany
    (latestPerCompany
       [UTC.mail "1" "2024-03-05T10:00:00Z" "AcmeCo" "A";
        UTC.mail "2" "2024-04-02T09:30:00Z" "Initech" "B";
        UTC.mail "3" "2024-01-15T08:00:00Z" "AcmeCo" "A"])
  = latestPerCompany
      [UTC.mail "1" "2024-03-05T10:00:00Z" "AcmeCo" "A";
       UTC.mail "2" "2024-04-02T09:30:00Z" "Initech" "B";
       UTC.mail "3" "2024-01-15T08:00:00Z" "AcmeCo" "A"].
Proof.
  apply (@dedup_is_idempotent UTC.env).
  repeat constructor; vm_compute; discriminate.
Defined.

(* ================================================================== *)
(** * The support table *)
(* ================================================================== *)

Lemma sumCounts_set (k : jsstring) (v : Z) (m : jsmap Z) :
  sumCounts (map_set k v m)
  = (sumCounts m - match map_get k m with Some n => n | None => 0 end + v)%Z.
Proof.
  induction m as [|[k1 v1] m IH]; simpl; [lia|].
  destruct (str_eqb k k1); simpl; [lia|]. rewrite IH. lia.
Qed.

Lemma sumCounts_perm (a b : list (jsstring * Z)) :
  Permutation a b -> sumCounts a = sumCounts b.
Proof. induction 1; simpl; lia. Qed.

Lemma set_add_iff (x y : jsstring) (s : list jsstring) :
  In y (set_add x s) <-> y = x \/ In y s.
Proof.
  unfold set_add. destruct (existsb (str_eqb x) s) eqn:E.
  - apply existsb_exists in E as (z & Hz & Heq).
    apply str_eqb_eq in Heq. subst z. split; [auto | intros [-> | H]; auto].
  - rewrite in_app_iff. simpl. intuition.
Qed.

Lemma set_add_NoDup (x : jsstring) (s : list jsstring) :
  NoDup s -> NoDup (set_add x s).
Proof.
  intros HN. unfold set_add.
  destruct (existsb (str_eqb x) s) eqn:E; [exact HN|].
  apply NoDup_app_remove_l with (l := []). simpl.
  apply Permutation_NoDup with (l := x :: s);
    [apply Permutation_cons_append|].
  constructor; [|exact HN]. intros Hin.
  assert (Ht : existsb (str_eqb x) s = true).
  { apply existsb_exists. exists x. split; [exact Hin | apply str_eqb_refl]. }
  congruence.
Qed.

Section SupportTable.

Context {env : DateEnv}.
Variables supportYear supportMonth : jsstring.

Lemma countStep_sum (m : jsmap Z) (item : Item) :
  sumCounts (countStep supportYear supportMonth m item)
  = (sumCounts m
     + if passesFilter supportYear supportMonth item then 1 else 0)%Z.
Proof.
  unfold countStep.
  destruct (passesFilter supportYear supportMonth item); [|lia].
  rewrite sumCounts_set.
  destruct (map_get (supportName item) m); lia.
Qed.

Lemma countsMap_sum (l : list Item) :
  forall m,
    sumCounts (fold_left (countStep supportYear supportMonth) l m)
    = (sumCounts m
       + Z.of_nat
           (length (filter (passesFilter supportYear supportMonth) l)))%Z.
Proof.
  induction l as [|x l IH]; intros m; simpl; [lia|].
  rewrite IH, countStep_sum.
  destruct (passesFilter supportYear supportMonth x); simpl length; lia.
Qed.

Lemma countsMap_NoDup (l : list Item) :
  forall m,
    NoDup (map fst m) ->
    NoDup (map fst (fold_left (countStep supportYear supportMonth) l m)).
Proof.
  induction l as [|x l IH]; intros m HN; simpl; [exact HN|].
  apply IH. unfold countStep.
  destruct (passesFilter supportYear supportMonth x); [|exact HN].
  now apply map_set_NoDup.
Qed.

(** What a row of the table says. *)
Lemma support_row (filtered : list Item) (who : jsstring) (n : Z) :
  In (who, n) (supportCounts filtered supportYear supportMonth) ->
  n = countOf supportYear supportMonth who filtered /\ (1 <= n)%Z.
Proof.
  unfold supportCounts. intros H. apply js_sort_In in H.
  apply In_map_get in H; [|apply countsMap_NoDup; constructor].
  rewrite (@countsOf_all env supportYear supportMonth filtered who) in H.
  pose proof (@countOf_nonneg env supportYear supportMonth who filtered) as H0.
  destruct (Z.eqb_spec (countOf supportYear supportMonth who filtered) 0);
    [discriminate|].
  injection H as <-. split; [reflexivity | lia].
Qed.

(** X16.  The support table has one row for each name under which a
    record passes the year and month filters; the count of a row is the
    number of those records, at least one; the rows come by count, highest
    first; and the counts add up to the number of records that pass (with
    both filters at "All", to the number of results). *)
Theorem support_table (filtered : list Item) :
  NoDup (map fst (supportCounts filtered supportYear supportMonth))
  /\ Forall
       (fun row =>
          snd row = countOf supportYear supportMonth (fst row) filtered
          /\ (1 <= snd row)%Z)
       (supportCounts filtered supportYear supportMonth)
  /\ StronglySorted countNotBelow
       (supportCounts filtered supportYear supportMonth)
  /\ sumCounts (supportCounts filtered supportYear supportMonth)
     = Z.of_nat (length (filter (passesFilter supportYear supportMonth)
                           filtered))
  /\ sumCounts (supportCounts filtered All All)
     = Z.of_nat (length filtered).
Proof.
  split; [|split; [|split; [|split]]].
  - unfold supportCounts.
    eapply Permutation_NoDup; [apply Permutation_map, js_sort_perm|].
    apply countsMap_NoDup. constructor.
  - apply Forall_forall. intros [who n] H. now apply support_row.
  - unfold supportCounts.
    apply js_sort_sorted with (P := fun _ => True).
    + unfold countNotBelow. intros; lia.
    + unfold countNotBelow. intros; lia.
    + unfold countNotBelow. intros; lia.
    + apply Forall_forall. auto.
  - unfold supportCounts.
    rewrite <- (sumCounts_perm (js_sort_perm _ _)).
    unfold countsMap. now rewrite countsMap_sum.
  - unfold supportCounts.
    rewrite <- (sumCounts_perm (js_sort_perm _ _)).
    unfold countsMap.
    assert (G : forall l m,
               sumCounts (fold_left (countStep All All) l m)
               = (sumCounts m + Z.of_nat (length l))%Z).
    { induction l as [|x l IH]; intros m; simpl length; simpl fold_left;
        [lia|].
      rewrite IH. unfold countStep, passesFilter.
      rewrite str_eqb_refl. cbn [negb andb].
      assert (E : (if match dateOrEpoch (receivedDateTime x) with
                      | Some _ => true
                      | None => true
                      end
                   then map_set (supportName x)
                          (match map_get (supportName x) m with
                           | Some n => n
                           | None => 0
                           end + 1)%Z m
                   else m)
                  = map_set (supportName x)
                      (match map_get (supportName x) m with
                       | Some n => n
                       | None => 0
                       end + 1)%Z m)
        by now destruct (dateOrEpoch (receivedDateTime x)).
      rewrite E, sumCounts_set.
      destruct (map_get (supportName x) m); lia. }
    now rewrite G.
Qed.

(** One turn of the loop filling the candidate sets. *)
Lemma candidateStep_eq (m : jsmap (list jsstring)) (item : Item) :
  candidateStep supportYear supportMonth m item
  = if passesFilter supportYear supportMonth item then
      map_set (supportName item)
        (set_add (candidateName item)
           match map_get (supportName item) m with
           | Some s => s
           | None => []
           end) m
    else m.
Proof.
  unfold candidateStep, map_has.
  destruct (passesFilter supportYear supportMonth item); [|reflexivity].
  destruct (map_get (supportName item) m) as [s|] eqn:E.
  - now rewrite E.
  - now rewrite map_get_set_same, map_set_set.
Qed.

(** Every candidate set holds distinct names, each the candidate of a
    counted record of the expert. *)
Lemma candidate_sets (l : list Item) :
  forall done m,
    (forall k s, In (k, s) m ->
       NoDup s
       /\ forall c, In c s ->
            exists r, In r done
                      /\ passesFilter supportYear supportMonth r = true
                      /\ supportName r = k /\ candidateName r = c) ->
    forall k s,
      In (k, s) (fold_left (candidateStep supportYear supportMonth) l m) ->
      NoDup s
      /\ forall c, In c s ->
           exists r, In r (done ++ l)
                     /\ passesFilter supportYear supportMonth r = true
                     /\ supportName r = k /\ candidateName r = c.
Proof.
  induction l as [|x l IH]; intros done m H k s Hin; simpl in Hin.
  - rewrite List.app_nil_r. auto.
  - replace (done ++ x :: l) with ((done ++ [x]) ++ l)
      by now rewrite <- List.app_assoc.
    apply (IH (done ++ [x]) (candidateStep supportYear supportMonth m x))
      with (k := k) (s := s); [|exact Hin].
    clear k s Hin. intros k s Hin. rewrite candidateStep_eq in Hin.
    assert (Hold : forall k s, In (k, s) m ->
              NoDup s
              /\ forall c, In c s ->
                   exists r, In r (done ++ [x])
                             /\ passesFilter supportYear supportMonth r = true
                             /\ supportName r = k /\ candidateName r = c).
    { intros k0 s0 H0. destruct (H _ _ H0) as (HN & Hc).
      split; [exact HN|]. intros c Hcin.
      destruct (Hc c Hcin) as (r & Hr & Hrest).
      exists r. split; [apply in_or_app; now left | exact Hrest]. }
    destruct (passesFilter supportYear supportMonth x) eqn:Ep;
      [|now apply Hold].
    apply In_map_set in Hin as [[-> ->] | Hin]; [|now apply Hold].
    assert (H0 : NoDup match map_get (supportName x) m with
                       | Some s => s
                       | None => []
                       end
                 /\ forall c,
                      In c match map_get (supportName x) m with
                           | Some s => s
                           | None => []
                           end ->
                      exists r,
                        In r (done ++ [x])
                        /\ passesFilter supportYear supportMonth r = true
                        /\ supportName r = supportName x
                        /\ candidateName r = c).
    { destruct (map_get (supportName x) m) as [s0|] eqn:E.
      - apply map_get_In in E. now apply Hold.
      - split; [constructor | intros c []]. }
    destruct H0 as (HN & Hc). split; [now apply set_add_NoDup|].
    intros c Hcin. apply set_add_iff in Hcin as [-> | Hcin]; [|auto].
    exists x. split; [apply in_or_app; right; now left | auto].
Qed.

(** X17.  Every row of the support table has its candidates: the name
    of the row is a key of [supportCandidates], so the fall-back
    [["Unknown"]] of the table is never reached; the set is not empty,
    holds no name twice, and each of its names is the candidate of a
    record counted in the row. *)
Theorem every_row_has_candidates (filtered : list Item) :
  Forall
    (fun row =>
       exists s,
         map_get (fst row)
           (supportCandidates filtered supportYear supportMonth) = Some s
         /\ s <> [] /\ NoDup s
         /\ forall c, In c s ->
              exists r, In r filtered
                        /\ passesFilter supportYear supportMonth r = true
                        /\ supportName r = fst row
                        /\ candidateName r = c)
    (supportCounts filtered supportYear supportMonth).
Proof.
  apply Forall_forall. intros [who n] Hrow. cbn [fst].
  apply support_row in Hrow as (Hn & H1).
  assert (Hr : exists r, In r filtered
                         /\ passesFilter supportYear supportMonth r = true
                         /\ supportName r = who).
  { unfold countOf in Hn.
    destruct (filter (fun r => passesFilter supportYear supportMonth r
                               && str_eqb (supportName r) who) filtered)
      as [|r rest] eqn:E; [simpl in Hn; lia|].
    assert (Hin : In r (filter (fun r => passesFilter supportYear supportMonth r
                                         && str_eqb (supportName r) who)
                          filtered)) by (rewrite E; now left).
    apply filter_In in Hin as (Hin & Hp). apply andb_prop in Hp as [Hp Hw].
    apply str_eqb_eq in Hw. eauto. }
  destruct Hr as (r & Hr & Hp & <-).
  pose proof (@candidatesOf_fold env supportYear supportMonth filtered [] [])
    as HC.
  destruct (HC (fun r (H : In r []) => match H with end) r Hr Hp)
    as (s & Hs & Hc).
  exists s. split; [exact Hs|]. split; [intros ->; contradiction|].
  apply map_get_In in Hs.
  apply (@candidate_sets filtered [] [] (fun k s (H : In (k, s) []) =>
                                           match H with end)) in Hs.
  exact Hs.
Qed.

End SupportTable.

(* ================================================================== *)
(** * The year tabs and the month options *)
(* ================================================================== *)

Lemma str_ltb_total (a : jsstring) :
  forall b, str_ltb a b = false -> str_ltb b a = false -> a = b.
Proof.
  induction a as [|x a IH]; intros [|y b]; simpl; try easy.
  destruct (N.ltb_spec x y) as [Hxy|Hxy]; [discriminate|].
  destruct (N.ltb_spec y x) as [Hyx|Hyx].
  - destruct (N.eqb_spec x y); [lia | discriminate].
  - assert (x = y) by lia. subst y. rewrite N.eqb_refl.
    intros H1 H2. f_equal. auto.
Qed.

Lemma sorted_app {A : Type} (R : A -> A -> Prop) (l1 l2 : list A) :
  StronglySorted R l1 -> StronglySorted R l2 ->
  (forall a b, In a l1 -> In b l2 -> R a b) ->
  StronglySorted R (l1 ++ l2).
Proof.
  intros H1 H2 H. induction H1 as [|x l1 H1 IH Hall]; simpl; [exact H2|].
  constructor.
  - apply IH. intros a b Ha Hb. apply H; [now right | exact Hb].
  - apply Forall_app. split; [exact Hall|].
    apply Forall_forall. intros b Hb. apply H; [now left | exact Hb].
Qed.

Lemma sorted_rev {A : Type} (R : A -> A -> Prop) (l : list A) :
  StronglySorted R l -> StronglySorted (fun a b => R b a) (rev l).
Proof.
  induction 1 as [|x l HS IH Hall]; simpl; [constructor|].
  apply sorted_app; [exact IH | repeat constructor |].
  intros a b Ha [<- | []]. apply in_rev in Ha.
  rewrite Forall_forall in Hall. auto.
Qed.

(** A sorted list without repetition is strictly sorted. *)
Lemma sorted_strict {A : Type} (R : A -> A -> Prop) (l : list A) :
  StronglySorted R l -> NoDup l ->
  StronglySorted (fun a b => R a b /\ a <> b) l.
Proof.
  induction 1 as [|x l HS IH Hall]; intros HN; [constructor|].
  inversion HN as [|? ? Hx HN']; subst.
  constructor; [auto|].
  rewrite Forall_forall in *. intros y Hy. split; [auto|].
  intros ->. contradiction.
Qed.

Lemma sorted_weaken {A : Type} (R R' : A -> A -> Prop) (l : list A) :
  (forall a b, R a b -> R' a b) ->
  StronglySorted R l -> StronglySorted R' l.
Proof.
  intros H. induction 1 as [|x l HS IH Hall]; constructor; [exact IH|].
  eapply Forall_impl; [|exact Hall]. auto.
Qed.

(** The sort without a comparator puts distinct strings in strictly
    ascending order. *)
Lemma sort_strings (l : list jsstring) :
  NoDup l -> StronglySorted ascending (js_sort compareStrings l).
Proof.
  intros HN.
  apply sorted_weaken
    with (R := fun a b => str_ltb b a = false /\ a <> b).
  - intros a b [H Hne]. unfold ascending.
    destruct (str_ltb a b) eqn:E; [reflexivity|].
    exfalso. apply Hne. now apply str_ltb_total.
  - apply sorted_strict.
    + apply js_sort_sorted with (P := fun _ => True).
      * intros x y _ _. unfold compareStrings.
        destruct (str_ltb x y) eqn:E; [intros _; now apply str_ltb_asym|].
        destruct (str_ltb y x); [lia | reflexivity].
      * intros x y _ _. unfold compareStrings.
        destruct (str_ltb x y) eqn:E; [lia | reflexivity].
      * intros x y z _ _ _ H1 H2. now apply str_geb_trans with y.
      * apply Forall_forall. auto.
    + eapply Permutation_NoDup; [apply js_sort_perm | exact HN].
Qed.

(** A set filled from a list: the names of the elements that have one,
    each once. *)
Lemma set_fold {A B : Type} (g : A -> option B) (h : B -> jsstring)
    (l : list A) :
  forall s,
    NoDup s ->
    NoDup (fold_left
             (fun s x =>
                match g x with Some t => set_add (h t) s | None => s end)
             l s)
    /\ forall y,
         In y (fold_left
                 (fun s x =>
                    match g x with Some t => set_add (h t) s | None => s end)
                 l s)
         <-> In y s \/ exists x t, In x l /\ g x = Some t /\ h t = y.
Proof.
  induction l as [|x l IH]; intros s HN; simpl.
  - split; [exact HN|]. intros y. split; [auto|].
    intros [H | (x & t & [] & _)]. exact H.
  - destruct (IH (match g x with Some t => set_add (h t) s | None => s end))
      as (H1 & H2).
    { destruct (g x); [now apply set_add_NoDup | exact HN]. }
    split; [exact H1|]. intros y. rewrite H2. split.
    + intros [H | (r & u & Hr & Hu & Hy)].
      * destruct (g x) as [t|] eqn:E; [|now left].
        apply set_add_iff in H as [-> | H]; [|now left].
        right. exists x, t. auto.
      * right. exists r, u. auto.
    + intros [H | (r & u & [<- | Hr] & Hu & Hy)].
      * left. destruct (g x); [apply set_add_iff; now right | exact H].
      * left. rewrite Hu. apply set_add_iff. now left.
      * right. exists r, u. auto.
Qed.

Section FilterOptions.

Context {env : DateEnv}.

Lemma filterStep_sets (l : list Item) :
  forall sets,
    fst (fold_left filterStep l sets)
    = fold_left
        (fun s r =>
           match timeOf r with
           | Some t => set_add (yearString t) s
           | None => s
           end) l (fst sets)
    /\ snd (fold_left filterStep l sets)
       = fold_left
           (fun s r =>
              match timeOf r with
              | Some t => set_add (monthString t) s
              | None => s
              end) l (snd sets).
Proof.
  induction l as [|x l IH]; intros sets; simpl; [auto|].
  destruct (IH (filterStep sets x)) as [-> ->].
  unfold filterStep, timeOf.
  destruct (dateOrEpoch (receivedDateTime x)); auto.
Qed.

(** What the year tabs and the month options hold. *)
Lemma option_members (filtered : list Item) :
  (forall y,
     In y (years (supportFilters filtered))
     <-> exists r t, In r filtered /\ timeOf r = Some t /\ yearString t = y)
  /\ (forall m,
        In m (months (supportFilters filtered))
        <-> exists r t,
              In r filtered /\ timeOf r = Some t /\ monthString t = m).
Proof.
  unfold supportFilters. cbn [years months].
  destruct (filterStep_sets filtered ([], [])) as [-> ->]. cbn [fst snd].
  destruct (set_fold timeOf yearString filtered (NoDup_nil _)) as (_ & H3).
  destruct (set_fold timeOf monthString filtered (NoDup_nil _)) as (_ & H4).
  split.
  - intros y. rewrite <- in_rev, js_sort_In, H3. simpl. tauto.
  - intros m. rewrite js_sort_In, H4. simpl. tauto.
Qed.

(** X18.  The year tabs are the years of the records whose timestamp is
    empty or parseable, each once, the highest string first; the month
    options are their months, each once, in ascending order. *)
Theorem filter_options (filtered : list Item) :
  (forall y,
     In y (years (supportFilters filtered))
     <-> exists r t, In r filtered /\ timeOf r = Some t /\ yearString t = y)
  /\ (forall m,
        In m (months (supportFilters filtered))
        <-> exists r t,
              In r filtered /\ timeOf r = Some t /\ monthString t = m)
  /\ StronglySorted descending (years (supportFilters filtered))
  /\ StronglySorted ascending (months (supportFilters filtered)).
Proof.
  destruct (option_members filtered) as (Hy & Hm).
  split; [exact Hy|]. split; [exact Hm|].
  unfold supportFilters. cbn [years months].
  destruct (filterStep_sets filtered ([], [])) as [-> ->]. cbn [fst snd].
  destruct (set_fold timeOf yearString filtered (NoDup_nil _)) as (H1 & _).
  destruct (set_fold timeOf monthString filtered (NoDup_nil _)) as (H2 & _).
  split.
  - apply (sorted_rev (sort_strings H1)).
  - apply (sort_strings H2).
Qed.

(** The latest time value, once the records have been seen. *)
Lemma latest_fold (l : list Item) :
  forall acc t,
    fold_left latestStep l acc = Some t ->
    (acc = Some t \/ exists r, In r l /\ timeOf r = Some t)
    /\ (forall a, acc = Some a -> (a <= t)%Z)
    /\ (forall r u, In r l -> timeOf r = Some u -> (u <= t)%Z).
Proof.
  induction l as [|x l IH]; intros acc t H; simpl in H.
  - subst acc. repeat split; auto.
    + intros a [= ->]. lia.
    + intros r u [].
  - apply IH in H as (H1 & H2 & H3).
    unfold latestStep in H1, H2. fold (timeOf x) in H1, H2.
    repeat split.
    + destruct H1 as [H1 | (r & Hr & Ht)]; [|right; exists r; simpl; auto].
      destruct (timeOf x) as [d|] eqn:Ex; [|now left].
      destruct acc as [a|]; [|right; exists x; simpl; split; auto; congruence].
      destruct (d >? a)%Z; [|now left].
      right. exists x. simpl. split; auto. congruence.
    + intros a ->. destruct (timeOf x) as [d|]; [|auto].
      destruct (Z.gtb_spec d a); [|auto].
      specialize (H2 d eq_refl). lia.
    + intros r u [<- | Hr] Hu; [|eauto].
      rewrite Hu in H2.
      destruct acc as [a|]; [|auto].
      destruct (Z.gtb_spec u a); [auto|].
      specialize (H2 a eq_refl). lia.
Qed.

(** The latest period is that of a most recent record. *)
Lemma latest_record (filtered : list Item) :
  (exists r, In r filtered /\ timed r) ->
  exists r t,
    In r filtered /\ timeOf r = Some t
    /\ (forall r', In r' filtered -> timed r' -> (timeValue r' <= t)%Z)
    /\ latestPeriod filtered
       = {| year := yearString t; month := monthString t |}.
Proof.
  intros Hex. unfold latestPeriod.
  destruct (fold_left latestStep filtered None) as [t|] eqn:E;
    [|exfalso; revert E; now apply latest_of_timed].
  apply latest_fold in E as ([E | (r & Hr & Ht)] & _ & H3); [discriminate|].
  exists r, t. split; [exact Hr|]. split; [exact Ht|].
  split; [|reflexivity].
  intros r' Hr' Ht'. unfold timed in Ht'. unfold timeValue.
  destruct (timeOf r') as [u|] eqn:Eu; [|contradiction]. eauto.
Qed.

(** X19.  When some record has an empty or parseable timestamp, the
    year and month the filters are seeded with are those of a most recent
    such record, and both are on offer: the year is one of the year tabs,
    the month one of the month options. *)
Theorem seeded_period_is_latest (filtered : list Item) :
  (exists r, In r filtered /\ timed r) ->
  exists r t,
    In r filtered /\ timeOf r = Some t
    /\ (forall r', In r' filtered -> timed r' -> (timeValue r' <= t)%Z)
    /\ latestPeriod filtered
       = {| year := yearString t; month := monthString t |}
    /\ In (year (latestPeriod filtered)) (years (supportFilters filtered))
    /\ In (month (latestPeriod filtered)) (months (supportFilters filtered)).
Proof.
  intros Hex.
  destruct (@latest_record filtered Hex) as (r & t & Hr & Ht & Hmax & Hlp).
  exists r, t. split; [exact Hr|]. split; [exact Ht|].
  split; [exact Hmax|]. split; [exact Hlp|].
  rewrite Hlp. cbn [year month].
  destruct (option_members filtered) as (Hy & Hm).
  split; [apply Hy | apply Hm]; exists r, t; auto.
Qed.

(** X20.  The seeding effect settles at once: run again on the filters
    it has just set, with the same latest period, it changes nothing (the
    render it causes is the last); and it leaves the filters alone when
    neither is "All", or when no timestamp gave a period. *)
Theorem seeding_settles (lp : Period) (st : Filters) :
  seedEffect lp (seedEffect lp st) = seedEffect lp st
  /\ (supportYear st <> All -> supportMonth st <> All ->
      seedEffect lp st = st)
  /\ (year lp = All -> month lp = All -> seedEffect lp st = st).
Proof.
  destruct lp as [y m], st as [sy sm]. unfold seedEffect.
  cbn [supportYear supportMonth year month].
  split; [|split].
  - f_equal.
    + destruct (str_eqb sy All) eqn:E1; destruct (str_eqb y All) eqn:E2;
        cbn [andb negb]; rewrite ?E1, ?E2; cbn [andb negb]; reflexivity.
    + destruct (str_eqb sm All) eqn:E1; destruct (str_eqb m All) eqn:E2;
        cbn [andb negb]; rewrite ?E1, ?E2; cbn [andb negb]; reflexivity.
  - intros Hy Hm. apply str_eqb_neq in Hy, Hm. now rewrite Hy, Hm.
  - intros -> ->. rewrite str_eqb_refl. cbn [negb].
    now rewrite !andb_false_r.
Qed.

(** X25.  Once the filters have been seeded from "All"/"All", the
    support table is not empty when some record has an empty or parseable
    timestamp: a most recent such record passes the seeded filters, so the
    name it is counted under has a row. *)
Theorem seeded_table_is_not_empty (filtered : list Item) :
  (exists r, In r filtered /\ timed r) ->
  let st :=
    seedEffect (latestPeriod filtered)
      {| supportYear := All; supportMonth := All |} in
  supportYear st = year (latestPeriod filtered)
  /\ supportMonth st = month (latestPeriod filtered)
  /\ exists r n,
       In r filtered /\ timed r
       /\ (forall r', In r' filtered -> timed r' ->
                      (timeValue r' <= timeValue r)%Z)
       /\ In (supportName r, n)
            (supportCounts filtered (supportYear st) (supportMonth st))
       /\ (1 <= n)%Z.
Proof.
  intros Hex st.
  destruct (@latest_record filtered Hex) as (r & t & Hr & Ht & Hmax & Hlp).
  assert (Hy : supportYear st = yearString t).
  { subst st. rewrite Hlp. unfold seedEffect.
    cbn [supportYear year]. rewrite str_eqb_refl.
    pose proof (yearString_not_All t) as Hne. apply str_eqb_neq in Hne.
    now rewrite Hne. }
  assert (Hm : supportMonth st = monthString t).
  { subst st. rewrite Hlp. unfold seedEffect.
    cbn [supportMonth month]. rewrite str_eqb_refl.
    pose proof (monthString_not_All t) as Hne. apply str_eqb_neq in Hne.
    now rewrite Hne. }
  rewrite Hy, Hm, Hlp. cbn [year month].
  split; [reflexivity|]. split; [reflexivity|].
  assert (Hp : passesFilter (yearString t) (monthString t) r = true).
  { unfold passesFilter. fold (timeOf r). rewrite Ht.
    rewrite !str_eqb_refl. cbn [negb]. now rewrite !andb_false_r. }
  pose proof (@countOf_member env (yearString t) (monthString t) r filtered
                Hr Hp) as H1.
  pose proof (@countsOf_all env (yearString t) (monthString t) filtered
                (supportName r)) as Hget.
  destruct (Z.eqb_spec
              (countOf (yearString t) (monthString t) (supportName r) filtered)
              0) as [E0|_]; [lia|].
  exists r, (countOf (yearString t) (monthString t) (supportName r) filtered).
  split; [exact Hr|]. split; [unfold timed; congruence|].
  split.
  - intros r' Hr' Ht'. unfold timeValue at 2. rewrite Ht. auto.
  - split; [|exact H1]. unfold supportCounts.
    apply js_sort_In. now apply map_get_In.
Qed.

End FilterOptions.

Lemma seeded_period_is_latest_witness :
  exists r t,
    In r [UTC.mail "1" "2024-03-05T10:00:00Z" "AcmeCo" "A";
          UTC.mail "2" "not a date" "Initech" "B"]
    /\ timeOf r = Some t
    /\ (forall r',
          In r' [UTC.mail "1" "2024-03-05T10:00:00Z" "AcmeCo" "A";
                 UTC.mail "2" "not a date" "Initech" "B"] ->
          timed r' -> (timeValue r' <= t)%Z)
    /\ latestPeriod [UTC.mail "1" "2024-03-05T10:00:00Z" "AcmeCo" "A";
                     UTC.mail "2" "not a date" "Initech" "B"]
       = {| year := yearString t; month := monthString t |}
    /\ In (year (latestPeriod
                   [UTC.mail "1" "2024-03-05T10:00:00Z" "AcmeCo" "A";
                    UTC.mail "2" "not a date" "Initech" "B"]))
          (years (supportFilters
                    [UTC.mail "1" "2024-03-05T10:00:00Z" "AcmeCo" "A";
                     UTC.mail "2" "not a date" "Initech" "B"]))
    /\ In (month (latestPeriod
                    [UTC.mail "1" "2024-03-05T10:00:00Z" "AcmeCo" "A";
                     UTC.mail "2" "not a date" "Initech" "B"]))
          (months (supportFilters
                     [UTC.mail "1" "2024-03-05T10:00:00Z" "AcmeCo" "A";
                      UTC.mail "2" "not a date" "Initech" "B"])).
Proof.
  apply (@seeded_period_is_latest UTC.env).
  exists (UTC.mail "1" "2024-03-05T10:00:00Z" "AcmeCo" "A").
  split; [now left | vm_compute; discriminate].
Defined.

Lemma seeded_table_is_not_empty_witness :
  let filtered :=
    [UTC.mail "1" "2024-03-05T10:00:00Z" "AcmeCo" "A";
     UTC.mail "2" "2023-11-20T08:00:00Z" "Initech" "B"] in
  let st :=
    seedEffect (latestPeriod filtered)
      {| supportYear := All; supportMonth := All |} in
  supportYear st = year (latestPeriod filtered)
  /\ supportMonth st = month (latestPeriod filtered)
  /\ exists r n,
       In r filtered /\ timed r
       /\ (forall r', In r' filtered -> timed r' ->
                      (timeValue r' <= timeValue r)%Z)
       /\ In (supportName r, n)
            (supportCounts filtered (supportYear st) (supportMonth st))
       /\ (1 <= n)%Z.
Proof.
  intros filtered. apply (@seeded_table_is_not_empty UTC.env).
  exists (UTC.mail "1" "2024-03-05T10:00:00Z" "AcmeCo" "A").
  split; [now left | vm_compute; discriminate].
Defined.

(* ================================================================== *)
(** * A click on a group *)
(* ================================================================== *)

Lemma find_by_id (l : list Item) (x : Item) :
  NoDup (map id l) -> In x l ->
  List.find (fun item => str_eqb (id item) (id x)) l = Some x.
Proof.
  induction l as [|y l IH]; intros HN Hin; [contradiction|].
  simpl in HN. inversion HN as [|? ? Hy HN']; subst. simpl.
  destruct (str_eqb (id y) (id x)) eqn:E.
  - apply str_eqb_eq in E. destruct Hin as [-> | Hin]; [reflexivity|].
    exfalso. apply Hy. rewrite E. now apply in_map.
  - destruct Hin as [-> | Hin]; [now rewrite str_eqb_refl in E | auto].
Qed.

Lemma orElse_self (s : jsstring) : orElse (Some s) [] = s.
Proof. now destruct s. Qed.

Section GroupClick.

Context {env : DateEnv}.

(** X21.  A click on a group that is not the active one makes it the
    active one, hands its deduplicated records to the details pane and
    selects its first record, so the record the details pane looks up by
    id is a most recent record of the group (the ids of [filtered] being
    distinct, the timestamps of the group empty or parseable); a second
    click on the same group clears all three states. *)
Theorem click_selects_latest (filtered group : list Item)
    (groupKey : jsstring) (prev : Selection) :
  NoDup (map id filtered) -> incl group filtered ->
  Forall timed group -> group <> [] ->
  selectedGroupKey prev <> groupKey ->
  let st := onClick groupKey (latestPerCompany group) prev in
  selectedGroupKey st = groupKey
  /\ selectedGroupItems st = latestPerCompany group
  /\ (exists first,
        selected filtered (selectedId st) = Some first
        /\ In first group
        /\ forall r, In r group -> (timeValue r <= timeValue first)%Z)
  /\ onClick groupKey (latestPerCompany group) st
     = {| selectedGroupKey := []; selectedId := [];
          selectedGroupItems := [] |}.
Proof.
  intros HN Hsub HT Hne Hkey st. subst st.
  apply str_eqb_neq in Hkey.
  assert (E : onClick groupKey (latestPerCompany group) prev
              = {| selectedGroupKey := groupKey;
                   selectedId :=
                     match latestPerCompany group with
                     | first :: _ => orElse (Some (id first)) []
                     | [] => []
                     end;
                   selectedGroupItems := latestPerCompany group |})
    by (unfold onClick; now rewrite Hkey).
  rewrite E. cbn [selectedGroupKey selectedId selectedGroupItems].
  split; [reflexivity|]. split; [reflexivity|]. split.
  - destruct (latest_first HT Hne) as (first & rest & -> & Hin & Hmax).
    exists first. rewrite orElse_self. unfold selected.
    split; [apply find_by_id; auto | auto].
  - unfold onClick. cbn [selectedGroupKey]. now rewrite str_eqb_refl.
Qed.

End GroupClick.

Lemma click_selects_latest_witness :
  let r1 := UTC.mail "1" "2024-03-05T10:00:00Z" "AcmeCo" "A" in
  let r2 := UTC.mail "2" "2024-03-20T09:30:00Z" "Initech" "B" in
  let r3 := UTC.mail "3" "2023-11-20T08:00:00Z" "Globex" "C" in
  exists first,
    selected [r1; r2; r3]
      (selectedId
         (onClick (groupKey (js "March 2024") (js "Jane Doe"))
            (latestPerCompany [r1; r2])
            {| selectedGroupKey := []; selectedId := [];
               selectedGroupItems := [] |}))
    = Some first
    /\ In first [r1; r2]
    /\ forall r, In r [r1; r2] -> (timeValue r <= timeValue first)%Z.
Proof.
  intros r1 r2 r3.
  refine (proj1 (proj2 (proj2
            (@click_selects_latest UTC.env [r1; r2; r3] [r1; r2]
               (groupKey (js "March 2024") (js "Jane Doe"))
               {| selectedGroupKey := []; selectedId := [];
                  selectedGroupItems := [] |} _ _ _ _ _)))).
  - repeat constructor; vm_compute; intuition discriminate.
  - intros r [<- | [<- | []]]; simpl; auto.
  - repeat constructor; vm_compute; discriminate.
  - discriminate.
  - vm_compute. discriminate.
Defined.

(* ================================================================== *)
(** * The preview of a body *)
(* ================================================================== *)

Lemma previewBase_returns (trimmed : jsstring) :
  trim trimmed = trimmed ->
  exists base, previewBase trimmed = Returned base /\ trim base = base.
Proof.
  intros Ht. unfold previewBase.
  destruct (str_match cutoffPattern trimmed) as [m|] eqn:E.
  - apply search_from_group in E; [|reflexivity].
    destruct (m_group1 m) as [g|]; [|contradiction].
    exists (trim g). split; [reflexivity | apply trim_idem].
  - exists trimmed. auto.
Qed.

(** A trimmed string followed by an ellipsis is trimmed. *)
Lemma trim_ellipsis (a : jsstring) :
  trim a = a -> trim (a ++ js "...") = a ++ js "...".
Proof.
  intros Ha.
  assert (Hhead : match a with
                  | [] => True
                  | c :: _ => isWhiteSpace c = false
                  end).
  { rewrite <- Ha. unfold trim. apply trimEnd_head. apply dropWhile_head. }
  unfold trim, trimStart.
  rewrite dropWhile_fix by (destruct a; [reflexivity | exact Hhead]).
  unfold trimEnd. rewrite rev_app_distr. simpl rev at 2.
  cbn [app dropWhile]. change (isWhiteSpace 46%N) with false. cbn iota.
  change (46%N :: 46%N :: 46%N :: rev a) with (rev (js "...") ++ rev a).
  now rewrite <- rev_app_distr, rev_involutive.
Qed.

(** White space is collapsed the same with the no-break spaces replaced
    first or not. *)
Lemma collapse_unbreak (s : jsstring) :
  forall b, collapse b (map unbreak s) = collapse b s.
Proof.
  assert (Hw : forall c, isWhiteSpace (unbreak c) = isWhiteSpace c).
  { intros c. unfold unbreak. now destruct (N.eqb_spec 160 c) as [<- | Hne]. }
  assert (Hs : forall c, isWhiteSpace c = false -> unbreak c = c).
  { intros c. unfold unbreak. destruct (N.eqb_spec 160 c) as [<- | Hne];
      [discriminate | reflexivity]. }
  induction s as [|c s IH]; intros b; [reflexivity|].
  cbn [map collapse]. rewrite Hw.
  destruct (isWhiteSpace c) eqn:E; [destruct b | rewrite (Hs c E)];
    now rewrite IH.
Qed.

Lemma normalizeText_spaces (text : value) :
  normalizeText text
  = trim (replaceAll spacesPattern (js " ") (toString text)).
Proof.
  rewrite normalizeText_eq, collapse_unbreak. unfold replaceAll.
  now destruct (replace_spaces (toString text) 0) as [-> _].
Qed.

(** X23.  The first replacement of [normalizeText], of the no-break
    spaces, is redundant: the pattern of the second one takes a no-break
    space as white space, so the result is the same without the first. *)
Theorem nbsp_replacement_is_redundant (text : value) :
  normalizeText text
  = trim (replaceAll spacesPattern (js " ") (toString text)).
Proof. exact (normalizeText_spaces text). Qed.

(** A pattern anchored at the start matches at index 0 or nowhere. *)
Lemma search_from_bol (p : pattern) (r : regex) (s : jsstring) :
  p_regex p = RSeq RBol r ->
  forall i, search_from p (S i) s = None.
Proof.
  intros Hp.
  assert (Hm : forall i s', match_at p (S i) s' = None).
  { intros i s'. unfold match_at. rewrite Hp. reflexivity. }
  induction s as [|c s IH]; intros i; simpl; rewrite Hm; auto.
Qed.

Lemma search_anchored (p : pattern) (r : regex) (s : jsstring) :
  p_regex p = RSeq RBol r ->
  str_match p s
  = match match_at p 0 s with
    | Some (cap, len) =>
        Some {| m_index := 0; m_text := firstn len s; m_group1 := cap |}
    | None => None
    end.
Proof.
  intros Hp. unfold str_match. destruct s as [|c s]; cbn [search_from].
  - now destruct (match_at p 0 []) as [[cap len]|].
  - destruct (match_at p 0 (c :: s)) as [[cap len]|]; [reflexivity|].
    now apply search_from_bol with (r := r).
Qed.

(** X22.  [shortPreview] never throws, whatever the text (the group of
    its pattern always takes part); the preview is at most 120 code units
    long, and it neither starts nor ends with white space. *)
Theorem shortPreview_bounded (text : value) :
  exists preview,
    shortPreview text = Returned preview
    /\ length preview <= 120
    /\ trim preview = preview.
Proof.
  unfold shortPreview. destruct (falsy text).
  - exists []. repeat split. simpl. lia.
  - destruct (@previewBase_returns
                (trim (replaceAll spacesPattern (js " ") (toString text)))
                (trim_idem _))
      as (base & -> & Hb).
    cbn [bind]. destruct (Nat.leb_spec (length base) 120) as [Hle|Hgt].
    + exists base. auto.
    + eexists. split; [reflexivity|]. split.
      * rewrite length_app. change (length (js "...")) with 3.
        pose proof (trim_length (firstn 117 base)) as H1.
        rewrite length_firstn in H1. lia.
      * apply trim_ellipsis, trim_idem.
Qed.

(* ================================================================== *)
(** * Where the preview stops *)
(* ================================================================== *)

Section Unanchored.

Variable icase : bool.

Lemma exactly_succeeds a n :
  forall (k k' : nat -> jsstring -> option mstate) pos pos' s,
    (forall p p' s', succeeds (k p s') = succeeds (k' p' s')) ->
    succeeds (exactly icase a n k pos s)
    = succeeds (exactly icase a n k' pos' s).
Proof.
  induction n as [|n IH]; intros k k' pos pos' s Hk; simpl; [apply Hk|].
  destruct s as [|c s]; [reflexivity|].
  destruct (atom_matches icase a c); [now apply IH | reflexivity].
Qed.

Lemma upto_succeeds a greedy s :
  forall hi (k k' : nat -> jsstring -> option mstate) pos pos',
    (forall p p' s', succeeds (k p s') = succeeds (k' p' s')) ->
    succeeds (upto icase a greedy hi k pos s)
    = succeeds (upto icase a greedy hi k' pos' s).
Proof.
  induction s as [|c s IH]; intros hi k k' pos pos' Hk.
  - destruct hi as [[|h]|]; simpl; apply Hk.
  - assert (Hstep : forall h,
      succeeds
        (if atom_matches icase a c then
           if greedy then
             match upto icase a greedy h k (S pos) s with
             | Some r => Some r
             | None => k pos (c :: s)
             end
           else
             match k pos (c :: s) with
             | Some r => Some r
             | None => upto icase a greedy h k (S pos) s
             end
         else k pos (c :: s))
      = succeeds
          (if atom_matches icase a c then
             if greedy then
               match upto icase a greedy h k' (S pos') s with
               | Some r => Some r
               | None => k' pos' (c :: s)
               end
             else
               match k' pos' (c :: s) with
               | Some r => Some r
               | None => upto icase a greedy h k' (S pos') s
               end
           else k' pos' (c :: s))).
    { intros h. pose proof (IH h k k' (S pos) (S pos') Hk) as Hu.
      pose proof (Hk pos pos' (c :: s)) as Hh.
      destruct (atom_matches icase a c); [|exact Hh].
      destruct greedy.
      - destruct (upto icase a true h k (S pos) s),
                 (upto icase a true h k' (S pos') s);
          simpl in *; congruence.
      - destruct (k pos (c :: s)), (k' pos' (c :: s));
          simpl in *; congruence. }
    destruct hi as [[|h]|]; simpl; [apply Hk | apply Hstep | apply Hstep].
Qed.

(** Whether an unanchored pattern matches depends neither on the index
    of the attempt nor on the position in it. *)
Lemma run_succeeds r :
  unanchored r = true ->
  forall start start'
         (k k' : option jsstring -> nat -> jsstring -> option mstate)
         cap cap' pos pos' s,
    (forall c c' p p' s', succeeds (k c p s') = succeeds (k' c' p' s')) ->
    succeeds (run icase start r k cap pos s)
    = succeeds (run icase start' r k' cap' pos' s).
Proof.
  induction r as [| a | r1 IH1 r2 IH2 | r1 IH1 r2 IH2 | a lo hi g
                  | r1 IH1 | r1 IH1 | |];
    intros Hr start start' k k' cap cap' pos pos' s Hk; simpl in *.
  - apply Hk.
  - destruct s as [|c s]; [reflexivity|].
    destruct (atom_matches icase a c); [apply Hk | reflexivity].
  - apply andb_prop in Hr as [Hr1 Hr2].
    apply IH1; [exact Hr1|]. intros c c' p p' s'. now apply IH2.
  - apply andb_prop in Hr as [Hr1 Hr2].
    pose proof (IH1 Hr1 start start' k k' cap cap' pos pos' s Hk) as H1.
    pose proof (IH2 Hr2 start start' k k' cap cap' pos pos' s Hk) as H2.
    destruct (run icase start r1 k cap pos s),
             (run icase start' r1 k' cap' pos' s);
      simpl in *; congruence.
  - apply exactly_succeeds. intros p p' s'.
    apply upto_succeeds. intros q q' s''. apply Hk.
  - apply IH1; [exact Hr|]. intros c c' p p' s'. apply Hk.
  - pose proof (IH1 Hr start start'
                  (fun cap' pos' _ => Some (cap', pos'))
                  (fun cap' pos' _ => Some (cap', pos'))
                  cap cap' pos pos' s (fun _ _ _ _ _ => eq_refl)) as H1.
    destruct (run icase start r1 (fun cap' pos' _ => Some (cap', pos'))
                cap pos s)
      as [[c1 p1]|],
      (run icase start' r1 (fun cap' pos' _ => Some (cap', pos')) cap' pos' s)
      as [[c2 p2]|]; simpl in *; try congruence.
    apply Hk.
  - discriminate.
  - destruct s; [apply Hk | reflexivity].
Qed.

(** A lazy star stops at the first position its continuation accepts. *)
Lemma upto_lazy_first a (k : nat -> jsstring -> option mstate) s :
  forall pos x,
    upto icase a false None k pos s = Some x ->
    exists n,
      n <= length s
      /\ k (pos + n) (skipn n s) = Some x
      /\ forall i, i < n -> k (pos + i) (skipn i s) = None.
Proof.
  induction s as [|c s IH]; intros pos x H; simpl in H.
  - exists 0. rewrite Nat.add_0_r. repeat split; auto. intros i Hi; lia.
  - assert (here : k pos (c :: s) = Some x ->
              exists n,
                n <= length (c :: s)
                /\ k (pos + n) (skipn n (c :: s)) = Some x
                /\ forall i, i < n -> k (pos + i) (skipn i (c :: s)) = None).
    { intros Hk. exists 0. rewrite Nat.add_0_r. simpl.
      repeat split; auto; [lia | intros i Hi; lia]. }
    destruct (atom_matches icase a c); [|auto].
    destruct (k pos (c :: s)) eqn:E; [injection H as ->; auto|].
    apply IH in H as (n & Hn & Hk & Hfirst).
    exists (S n). simpl. split; [lia|]. split.
    + now replace (pos + S n) with (S pos + n) by lia.
    + intros [|i] Hi; [now rewrite Nat.add_0_r|].
      simpl. replace (pos + S i) with (S pos + i) by lia.
      apply Hfirst. lia.
Qed.

(** It reaches the end of a text it can cross. *)
Lemma upto_lazy_end a (k : nat -> jsstring -> option mstate) s :
  forall pos,
    Forall (fun c => atom_matches icase a c = true) s ->
    k (pos + length s) [] <> None ->
    upto icase a false None k pos s <> None.
Proof.
  induction s as [|c s IH]; intros pos Hall Hk; simpl.
  - now rewrite Nat.add_0_r in Hk.
  - inversion Hall as [|? ? Hc Hs]; subst. rewrite Hc.
    destruct (k pos (c :: s)); [discriminate|].
    apply IH; [exact Hs|].
    simpl in Hk.
    now replace (S pos + length s) with (pos + S (length s)) by lia.
Qed.

End Unanchored.

(** The look-ahead of [cutoffPattern] holds at the label and at the end
    of the text, and nowhere else. *)
Lemma cutoff_lookahead (cap : option jsstring) (pos : nat) (s : jsstring) :
  succeeds
    (run true 0
       (RLookahead (alt [seq [plus space; lit "Name of Candidate:"]; REol]))
       (fun cap' pos' _ => Some (cap', pos')) cap pos s)
  = labelAt s || match s with [] => true | _ :: _ => false end.
Proof.
  cbn [run alt].
  assert (H : succeeds
                (run true 0 (seq [plus space; lit "Name of Candidate:"])
                   (fun cap' pos' _ => Some (cap', pos')) cap pos s)
              = labelAt s).
  { unfold labelAt, match_at.
    apply (@run_succeeds true (p_regex labelPattern) eq_refl).
    reflexivity. }
  destruct (run true 0 (seq [plus space; lit "Name of Candidate:"])
              (fun cap' pos' _ => Some (cap', pos')) cap pos s)
    as [[c1 p1]|]; cbn [succeeds] in H; rewrite <- H; [reflexivity|].
  cbn [orb]. now destruct s.
Qed.

(** The text a normalized text is made of can be crossed by the dot. *)
Lemma singleSpaced_dots (s : jsstring) :
  forall b, singleSpaced b s = true ->
            Forall (fun c => atom_matches true ADot c = true) s.
Proof.
  induction s as [|c s IH]; intros b H; [constructor|].
  simpl in H. constructor.
  - cbn [atom_matches]. destruct (isWhiteSpace c) eqn:E.
    + apply andb_prop in H as [H _]. apply andb_prop in H as [H _].
      apply N.eqb_eq in H. now subst c.
    + unfold isLineTerminator, isWhiteSpace in *. to_props. lia.
  - destruct (isWhiteSpace c); [apply andb_prop in H as [_ H]|]; eauto.
Qed.

(** One attempt of [cutoffPattern] at index 0: a lazy star, then the
    look-ahead. *)
Lemma cutoff_run (s : jsstring) :
  match_at cutoffPattern 0 s
  = upto true ADot false None
      (fun pos' s' =>
         run true 0
           (RLookahead
              (alt [seq [plus space; lit "Name of Candidate:"]; REol]))
           (fun cap' pos'' _ => Some (cap', pos''))
           (Some (firstn (pos' - 0) s)) pos' s')
      0 s.
Proof. reflexivity. Qed.

(** Where the group of [cutoffPattern] stops. *)
Lemma cutoff_first (s : jsstring) cap len :
  match_at cutoffPattern 0 s = Some (cap, len) ->
  exists n,
    n <= length s
    /\ cap = Some (firstn n s)
    /\ (n = length s \/ labelAt (skipn n s) = true)
    /\ forall i, i < n -> labelAt (skipn i s) = false.
Proof.
  rewrite cutoff_run. intros H.
  apply upto_lazy_first in H as (n & Hn & Hk & Hfirst).
  exists n. split; [exact Hn|]. cbn [Nat.add] in Hk.
  pose proof (cutoff_lookahead (Some (firstn (n - 0) s)) n (skipn n s)) as HL.
  rewrite Hk in HL. cbn [succeeds] in HL.
  split; [|split].
  - apply run_spans in Hk as (cap' & w & s' & _ & E & _ & Hg).
    injection E as <- _.
    apply groupSpans_groupsOf in Hg as [-> | (r1 & g & [] & _)].
    now rewrite Nat.sub_0_r.
  - symmetry in HL. apply orb_prop in HL as [HL | HL]; [now right|].
    left. destruct (skipn n s) eqn:Es; [|discriminate].
    apply (f_equal (@length char)) in Es. rewrite length_skipn in Es.
    simpl in Es. lia.
  - intros i Hi. specialize (Hfirst i Hi). cbn [Nat.add] in Hfirst.
    pose proof (cutoff_lookahead (Some (firstn (i - 0) s)) i (skipn i s))
      as HLi.
    rewrite Hfirst in HLi. cbn [succeeds] in HLi. symmetry in HLi.
    now apply orb_false_elim in HLi as [HLi _].
Qed.

(** On a text the dot can cross, [cutoffPattern] matches at index 0. *)
Lemma cutoff_matches (s : jsstring) :
  Forall (fun c => atom_matches true ADot c = true) s ->
  match_at cutoffPattern 0 s <> None.
Proof.
  intros Hall. rewrite cutoff_run.
  apply upto_lazy_end; [exact Hall|]. cbn [Nat.add].
  pose proof (cutoff_lookahead (Some (firstn (length s - 0) s)) (length s) [])
    as HL.
  intros E. rewrite E in HL. cbn [succeeds] in HL.
  rewrite orb_true_r in HL. discriminate.
Qed.

(** X24.  The preview stops before the first "Name of Candidate:" label:
    the text it is made from is the normalized text up to the first index
    at which white space and the label follow (in any case of the
    letters), or all of it where there is no such index. *)
Theorem preview_stops_at_label (text : value) :
  falsy text = false ->
  exists n,
    n <= length (normalizeText text)
    /\ (n = length (normalizeText text)
        \/ labelAt (skipn n (normalizeText text)) = true)
    /\ (forall i, i < n -> labelAt (skipn i (normalizeText text)) = false)
    /\ shortPreview text
       = Returned
           (let base := trim (firstn n (normalizeText text)) in
            if length base <=? 120 then base
            else trim (firstn 117 base) ++ js "...").
Proof.
  intros Hf. unfold shortPreview. rewrite Hf, <- normalizeText_spaces.
  set (t := normalizeText text).
  assert (Hdots : Forall (fun c => atom_matches true ADot c = true) t)
    by (apply singleSpaced_dots with (b := false),
              normalizeText_singleSpaced).
  unfold previewBase.
  rewrite (@search_anchored cutoffPattern _ t eq_refl).
  destruct (match_at cutoffPattern 0 t) as [[cap len]|] eqn:E;
    [|now apply cutoff_matches in Hdots].
  apply cutoff_first in E as (n & Hn & -> & Hat & Hfirst).
  exists n. cbn [m_group1 bind].
  repeat (split; [assumption|]).
  now destruct (length (trim (firstn n t)) <=? 120).
Qed.

Lemma preview_stops_at_label_witness :
  let text := VString (js "PO for Jane.  Name of Candidate: Jane Doe") in
  exists n,
    n <= length (normalizeText text)
    /\ (n = length (normalizeText text)
        \/ labelAt (skipn n (normalizeText text)) = true)
    /\ (forall i, i < n -> labelAt (skipn i (normalizeText text)) = false)
    /\ shortPreview text
       = Returned
           (let base := trim (firstn n (normalizeText text)) in
            if length base <=? 120 then base
            else trim (firstn 117 base) ++ js "...").
Proof.
  intros text. apply preview_stops_at_label. reflexivity.
Defined.

(* ================================================================== *)
(** * Company deduplication: the groups of the pane *)
(* ================================================================== *)


Section PaneGroups.

Context {env : DateEnv}.

Hypothesis label_known : forall t, monthYearLabel t <> js "Unknown Month".







End PaneGroups.

